(** * Access-key rotation for an IAM user

    A shallow embedding of the key-rotator sources
    ([iam-key-rotator.ts], [credential-pusher.ts],
    [credential-pusher-travis.ts], [index.ts]) and the properties of the
    rotation step and of the credential pusher that are proved about it.

    The asynchronous functions of the source are embedded as programs of a
    small free monad [Prog]: a program either returns, throws, writes to the
    console, sleeps, or awaits a call to an external collaborator (the IAM
    API, the HTTP client, an injected service).  A program is run against a
    handler that answers the awaited calls; the run yields the final state
    of the handler, the trace of everything the program did, and its result
    or the exception it ended with. *)

From Stdlib Require Import List String Ascii ZArith Lia Bool Arith.
From Stdlib Require Import Permutation Sorted DecimalString DecimalNat.
Import ListNotations.

Local Open Scope list_scope.

Infix "+++" := String.append (at level 60, right associativity).

(** ** JavaScript values *)

(** Exceptions: [new Error(msg)], the [TypeError]s of the runtime, and
    whatever a rejected promise of a client library carries. *)
Inductive Exn : Type :=
| Error (message : string)
| TypeError (message : string).

Definition result (X : Type) : Type := (Exn + X)%type.

(** [!s] on a string: only the empty string is falsy. *)
Definition falsy (s : string) : bool := String.eqb s EmptyString.

(** [!o] on a string that may be [undefined]. *)
Definition falsy_opt (o : option string) : bool :=
  match o with
  | None => true
  | Some s => falsy s
  end.

(** A number inside a template literal. *)
Definition of_nat (n : nat) : string := NilZero.string_of_uint (Nat.to_uint n).

(** A possibly undefined string inside a template literal. *)
Definition of_opt (o : option string) : string :=
  match o with
  | None => "undefined"%string
  | Some s => s
  end.

Definition nl : string := String (ascii_of_nat 10) EmptyString.

(** What [console.log] prints: text, a [Date] (whose rendering is left to the
    runtime) or an exception object. *)
Inductive Part : Type :=
| Txt (s : string)
| DateStr (d : Z)
| ErrObj (e : Exn).

(** [Array.prototype.sort(comparefn)], as ECMAScript specifies it from the
    2019 edition on: the result is sorted by [comparefn] and elements that
    compare equal keep their order.  [insert] puts [x] in front of the
    first element it does not have to follow.  The V8 of Node.js 10, the
    runtime the Lambda is configured with, sorts as [InnerArraySort] below
    does: with the comparison function of the rotation, the same list for
    up to 10 keys, and beyond that a sorted list in which keys that compare
    equal may change places. *)
Section ArraySort.
Context {A : Type} (comparefn : A -> A -> Z).

Fixpoint insert (x : A) (l : list A) : list A :=
  match l with
  | [] => [x]
  | y :: l' => if (comparefn x y <=? 0)%Z then x :: y :: l'
               else y :: insert x l'
  end.

Fixpoint sort (l : list A) : list A :=
  match l with
  | [] => []
  | x :: l' => insert x (sort l')
  end.
End ArraySort.

(** ** [Array.prototype.sort] on Node.js 10

    The sort of the V8 that Node.js 10 ships ([InnerArraySort] of its
    [array.js]), on an array without holes: an in-place quicksort that
    hands ranges of up to 10 elements to an insertion sort.  The array is a
    list that is read with [elem] and written with [assign]; every index
    the sort uses lies inside the array.  The loops count down the number
    of rounds they have left, which their index ranges bound. *)
Section ArrayCells.
Context {A : Type} (d : A).

(** [a[i]]. *)
Definition elem (a : list A) (i : nat) : A := nth i a d.

(** [a[i] = v]. *)
Fixpoint assign (a : list A) (i : nat) (v : A) : list A :=
  match a, i with
  | [], _ => []
  | _ :: a', 0 => v :: a'
  | x :: a', S i' => x :: assign a' i' v
  end.
End ArrayCells.

Section QuickSortParts.
Context {A : Type} (comparefn : A -> A -> Z) (d : A).

(** The inner loop of [InsertionSort], [for (j = i - 1; j >= from; j--)],
    with [n] the number of elements from [from] up to [j], and the
    assignment [a[j + 1] = element] that follows it. *)
Fixpoint insertionInner (n : nat) (a : list A) (from : nat) (element : A) : list A :=
  match n with
  | 0 => assign a from element
  | S n' =>
      let j := from + n' in
      let tmp := elem d a j in
      let order := comparefn tmp element in
      if (order >? 0)%Z then insertionInner n' (assign a (j + 1) tmp) from element
      else assign a (j + 1) element
  end.

(** The outer loop, [for (i = from + 1; i < to; i++)]. *)
Fixpoint insertionOuter (count : nat) (a : list A) (from i : nat) : list A :=
  match count with
  | 0 => a
  | S count' =>
      let element := elem d a i in
      insertionOuter count' (insertionInner (i - from) a from element) from (i + 1)
  end.

(** [InsertionSort(a, from, to)]. *)
Definition InsertionSort (a : list A) (from to : nat) : list A :=
  insertionOuter (to - (from + 1)) a from (from + 1).

(** The pivot candidates of [GetThirdIndex], every [increment]-th cell
    with its index:
    [for (i = from; i < to; i += increment) t_array[j] = [i, a[i]]]. *)
Fixpoint candidates (count : nat) (a : list A) (i to increment : nat) : list (nat * A) :=
  match count with
  | 0 => []
  | S count' =>
      if i <? to then (i, elem d a i) :: candidates count' a (i + increment) to increment
      else []
  end.

(** [GetThirdIndex(a, from, to)]: the index of the median of a sample of
    the range, which [sortSample] sorts by the element. *)
Definition GetThirdIndex (sortSample : list (nat * A) -> list (nat * A))
    (a : list A) (from to : nat) : nat :=
  let increment := 200 + Nat.land (to - from) 15 in
  let t_array := candidates (to - from) a (from + 1) (to - 1) increment in
  let t_array := sortSample t_array in
  fst (elem (0, d) t_array (Nat.shiftr (List.length t_array) 1)).

(** The three pivot candidates in the order of [comparefn]. *)
Definition orderThree (v0 v1 v2 : A) : A * A * A :=
  let c01 := comparefn v0 v1 in
  let '(v0, v1) := if (c01 >? 0)%Z then (v1, v0) else (v0, v1) in
  let c02 := comparefn v0 v2 in
  if (c02 >=? 0)%Z then (v2, v0, v1)
  else
    let c12 := comparefn v1 v2 in
    if (c12 >? 0)%Z then (v0, v2, v1) else (v0, v1, v2).

(** The smallest candidate goes to the front of the range, the largest to
    its end and the median, the pivot, behind the front. *)
Definition placePivot (a : list A) (from to third_index : nat) : list A * A :=
  let v0 := elem d a from in
  let v1 := elem d a (to - 1) in
  let v2 := elem d a third_index in
  let '(v0, v1, v2) := orderThree v0 v1 v2 in
  let a := assign a from v0 in
  let a := assign a (to - 1) v2 in
  let pivot := v1 in
  let low_end := from + 1 in
  let a := assign a third_index (elem d a low_end) in
  let a := assign a low_end pivot in
  (a, pivot).

(** The [do ... while (order > 0)] of the partition: [high_start] moves
    down to an element that is not above the pivot; [None] when it meets
    [i], where the source leaves the partition loop. *)
Fixpoint scanDown (count : nat) (a : list A) (pivot : A) (i high_start : nat)
    : nat * option Z :=
  match count with
  | 0 => (high_start, None)
  | S count' =>
      let high_start := high_start - 1 in
      if high_start =? i then (high_start, None)
      else
        let top_elem := elem d a high_start in
        let order := comparefn top_elem pivot in
        if (order >? 0)%Z then scanDown count' a pivot i high_start
        else (high_start, Some order)
  end.

(** The partition loop, [for (i = low_end + 1; i < high_start; i++)]. *)
Fixpoint partition (count : nat) (a : list A) (pivot : A) (low_end i high_start : nat)
    : list A * nat * nat :=
  match count with
  | 0 => (a, low_end, high_start)
  | S count' =>
      if i <? high_start then
        let element := elem d a i in
        let order := comparefn element pivot in
        if (order <? 0)%Z then
          let a := assign a i (elem d a low_end) in
          let a := assign a low_end element in
          partition count' a pivot (low_end + 1) (i + 1) high_start
        else if (order >? 0)%Z then
          match scanDown (high_start - i) a pivot i high_start with
          | (high_start, None) => (a, low_end, high_start)
          | (high_start, Some order) =>
              let a := assign a i (elem d a high_start) in
              let a := assign a high_start element in
              if (order <? 0)%Z then
                let element := elem d a i in
                let a := assign a i (elem d a low_end) in
                let a := assign a low_end element in
                partition count' a pivot (low_end + 1) (i + 1) high_start
              else partition count' a pivot low_end (i + 1) high_start
          end
        else partition count' a pivot low_end (i + 1) high_start
      else (a, low_end, high_start)
  end.
End QuickSortParts.

(** [QuickSort(a, from, to)]: the pivot is the median of the first, the
    last and a third element, which is the middle one for ranges of up to
    1000 elements and else the one [GetThirdIndex] picks from a sample that
    the same sort sorts.  [fuel] bounds the nesting of the calls; a range
    is sorted with more fuel than it has elements. *)
Fixpoint QuickSort (fuel : nat) (A : Type) (comparefn : A -> A -> Z) (d : A)
    (a : list A) (from to : nat) {struct fuel} : list A :=
  match fuel with
  | 0 => a
  | S fuel' =>
      if to - from <=? 10 then InsertionSort comparefn d a from to
      else
        let third_index :=
          if 1000 <? to - from then
            GetThirdIndex d
              (fun t_array =>
                 QuickSort fuel' (nat * A)%type
                   (fun a b => comparefn (snd a) (snd b)) (0, d)
                   t_array 0 (List.length t_array))
              a from to
          else from + Nat.shiftr (to - from) 1 in
        let '(a, pivot) := placePivot comparefn d a from to third_index in
        let low_end := from + 1 in
        let high_start := to - 1 in
        let '(a, low_end, high_start) :=
          partition comparefn d (to - from) a pivot low_end (low_end + 1) high_start in
        if to - high_start <? low_end - from then
          let a := QuickSort fuel' A comparefn d a high_start to in
          QuickSort fuel' A comparefn d a from low_end
        else
          let a := QuickSort fuel' A comparefn d a from low_end in
          QuickSort fuel' A comparefn d a high_start to
  end.

(** [array.sort(comparefn)] on Node.js 10. *)
Definition InnerArraySort {A : Type} (comparefn : A -> A -> Z) (array : list A) : list A :=
  match array with
  | [] => []
  | d :: _ =>
      if List.length array <? 2 then array
      else QuickSort (S (List.length array)) A comparefn d array 0 (List.length array)
  end.

(** One round of [InsertionSort] on the sorted front of the array, read
    from its end: [element] goes down past the elements that are above it. *)
Fixpoint passAbove {A : Type} (comparefn : A -> A -> Z) (element : A) (front : list A)
    : list A :=
  match front with
  | [] => [element]
  | tmp :: front' =>
      if (comparefn tmp element >? 0)%Z then tmp :: passAbove comparefn element front'
      else element :: tmp :: front'
  end.

(** [a'] holds the elements of [a], moved about inside the range from
    [from] up to [to] only. *)
Definition rearranged {A : Type} (dec : forall x y : A, {x = y} + {x <> y}) (d : A)
    (from to : nat) (a a' : list A) : Prop :=
  List.length a' = List.length a
  /\ (forall x, count_occ dec a' x = count_occ dec a x)
  /\ (forall k, k < from \/ to <= k -> elem d a' k = elem d a k).

(** The state of the partition loop of [QuickSort] on the range from [from]
    up to [to]: the cells below [low_end] hold elements that may stand in
    front of the pivot, the cells from [low_end] up to [i] elements that
    compare equal to it, the cells from [high_start] on elements that may
    stand behind it. *)
Definition partitioned {A : Type} (dec : forall x y : A, {x = y} + {x <> y}) (d : A)
    (Lo Mid Hi : A -> Prop) (from to : nat) (a0 a : list A)
    (low_end i high_start : nat) : Prop :=
  rearranged dec d from to a0 a
  /\ from < low_end /\ low_end <= i /\ i <= high_start /\ high_start < to
  /\ to <= List.length a0
  /\ (forall k, from <= k < low_end -> Lo (elem d a k))
  /\ (forall k, low_end <= k < i -> Mid (elem d a k))
  /\ (forall k, high_start <= k < to -> Hi (elem d a k)).

(** ** The data of the AWS SDK, of axios and of the pusher interface *)

(** [AWS.IAM.AccessKeyMetadata]; [CreateDate] is the time value of the
    [Date]. *)
Record AccessKeyMetadata : Type := {
  UserName : string;
  AccessKeyId : string;
  Status : string;
  CreateDate : Z
}.

(** [AWS.IAM.AccessKey], the answer to [createAccessKey]. *)
Module AccessKey.
Record t : Type := {
  UserName : string;
  AccessKeyId : string;
  Status : string;
  SecretAccessKey : string;
  CreateDate : Z
}.
End AccessKey.

(** [aws.iam.User], as far as the rotator reads it. *)
Module User.
Record t : Type := {
  name : string;
  arn : string
}.
End User.

(** [Project] of [credential-pusher.ts]. *)
Record Project : Type := {
  project : string;
  accessKeyIDLocation : string;
  secretAccessKeyLocation : string
}.

(** [ServiceConfiguration].  The type annotations of the source promise a
    string and an array; [validateConfiguration] tests both for absence, so
    both may be [undefined] here. *)
Record ServiceConfiguration : Type := {
  accessKey : option string;
  projects : option (list Project)
}.

(** [TravisEnvVar] of [credential-pusher-travis.ts]: every field optional. *)
Module TravisEnvVar.
Record t : Type := {
  id : option string;
  name : option string;
  public : option bool;
  value : option string
}.
End TravisEnvVar.

Record TravisListEnvVarsResponse : Type := {
  env_vars : option (list TravisEnvVar.t)
}.

Record AxiosResponse : Type := {
  data : option TravisListEnvVarsResponse;
  status : nat
}.

Record AxiosInstance : Type := {
  baseURL : string;
  headers : list (string * string);
  timeout : Z
}.

(** The body of the PATCH request that updates an environment variable. *)
Record EnvVarPatch : Type := {
  env_var_value : string;
  env_var_public : bool
}.

(** ** Programs *)

(** The calls a program awaits.  [servicePush] stands for the
    [pushNewCredentials] of a [Service] whose implementation is not part of
    the program under study. *)
Inductive Call : Type :=
| listAccessKeys (UserName : string)
| createAccessKey (UserName : string)
| updateAccessKey (UserName AccessKeyId Status : string)
| deleteAccessKey (UserName AccessKeyId : string)
| httpGet (client : AxiosInstance) (url : string)
| httpPatch (client : AxiosInstance) (url : string) (body : EnvVarPatch)
| servicePush (config : ServiceConfiguration) (newKey newKeySecret : string).

(** What a call resolves to. *)
Definition Resp (c : Call) : Type :=
  match c with
  | listAccessKeys _ => list AccessKeyMetadata
  | createAccessKey _ => AccessKey.t
  | updateAccessKey _ _ _ => unit
  | deleteAccessKey _ _ => unit
  | httpGet _ _ => AxiosResponse
  | httpPatch _ _ _ => AxiosResponse
  | servicePush _ _ _ => unit
  end.

Inductive Prog (A : Type) : Type :=
| Ret (a : A)
| Throw (e : Exn)
| Log (m : list Part) (k : Prog A)
| Sleep (ms : Z) (k : Prog A)
| Await (c : Call) (k : result (Resp c) -> Prog A).

Arguments Ret {A} a.
Arguments Throw {A} e.
Arguments Log {A} m k.
Arguments Sleep {A} ms k.
Arguments Await {A} c k.

Fixpoint bind {A B : Type} (p : Prog A) (f : A -> Prog B) : Prog B :=
  match p with
  | Ret a => f a
  | Throw e => Throw e
  | Log m k => Log m (bind k f)
  | Sleep ms k => Sleep ms (bind k f)
  | Await c k => Await c (fun r => bind (k r) f)
  end.

(** [try { p } catch (err) { h err }]. *)
Fixpoint try_catch {A : Type} (p : Prog A) (h : Exn -> Prog A) : Prog A :=
  match p with
  | Ret a => Ret a
  | Throw e => h e
  | Log m k => Log m (try_catch k h)
  | Sleep ms k => Sleep ms (try_catch k h)
  | Await c k => Await c (fun r => try_catch (k r) h)
  end.

(** [await] of a call: a rejection is thrown at the [await]. *)
Definition call (c : Call) : Prog (Resp c) :=
  Await c (fun r => match r with
                    | inl e => Throw e
                    | inr x => Ret x
                    end).

Definition log (m : list Part) : Prog unit := Log m (Ret tt).

Definition throw {A : Type} (e : Exn) : Prog A := Throw e.

Notation "x <- p ;; q" := (bind p (fun x => q))
  (at level 61, p at next level, right associativity).
Notation "p ;; q" := (bind p (fun _ => q))
  (at level 61, right associativity).

(** [for (const x of l) { body x }]. *)
Fixpoint for_of {X : Type} (l : list X) (body : X -> Prog unit) : Prog unit :=
  match l with
  | [] => Ret tt
  | x :: l' => body x ;; for_of l' body
  end.

(** ** Runs *)

Inductive Event : Type :=
| EvLog (m : list Part)
| EvSleep (ms : Z)
| EvCall (c : Call) (r : result (Resp c)).

(** A handler answers every call and may change its own state. *)
Definition Handler (S : Type) : Type :=
  forall c : Call, S -> S * result (Resp c).

Fixpoint exec {S A : Type} (h : Handler S) (p : Prog A) (s : S)
  : S * list Event * result A :=
  match p with
  | Ret a => (s, [], inr a)
  | Throw e => (s, [], inl e)
  | Log m k =>
      let '(s', tr, r) := exec h k s in (s', EvLog m :: tr, r)
  | Sleep ms k =>
      let '(s', tr, r) := exec h k s in (s', EvSleep ms :: tr, r)
  | Await c k =>
      let (s1, r) := h c s in
      let '(s', tr, r') := exec h (k r) s1 in (s', EvCall c r :: tr, r')
  end.

Definition final {S A : Type} (x : S * list Event * result A) : S := fst (fst x).
Definition trace {S A : Type} (x : S * list Event * result A) : list Event := snd (fst x).
Definition outcome {S A : Type} (x : S * list Event * result A) : result A := snd x.

(** ** iam-key-rotator.ts *)

Definition listIAMAccessKeys (iamUserName : string) : Prog (list AccessKeyMetadata) :=
  call (listAccessKeys iamUserName).

Definition createIAMAccessKey (iamUserName : string) : Prog AccessKey.t :=
  call (createAccessKey iamUserName).

Definition updateIAMAccessKey (iamUserName accessKeyId status : string) : Prog unit :=
  call (updateAccessKey iamUserName accessKeyId status).

Definition deleteIAMAccessKey (iamUserName accessKeyId : string) : Prog unit :=
  call (deleteAccessKey iamUserName accessKeyId).

(** [setTimeout(resolve, n * 1000)]. *)
Definition sleepSeconds (n : Z) : Prog unit := Sleep (n * 1000) (Ret tt).

(** The comparison function handed to [sort]: newer keys first. *)
Definition compareCreateDate (a b : AccessKeyMetadata) : Z :=
  let aCreation := CreateDate a in
  let bCreation := CreateDate b in
  if (aCreation >? bCreation)%Z then (-1)%Z
  else if (aCreation <? bCreation)%Z then 1%Z
  else 0%Z.

(** The order of the sorted keys: [a] may stand in front of [b]. *)
Definition newestFirst (a b : AccessKeyMetadata) : Prop :=
  (CreateDate b <= CreateDate a)%Z.

(** The cells from [from] up to [to] are in descending order of creation
    time. *)
Definition sortedOn (d : AccessKeyMetadata) (from to : nat) (a : list AccessKeyMetadata)
  : Prop :=
  forall i j, from <= i -> i <= j -> j < to -> newestFirst (elem d a i) (elem d a j).

Definition logKey (key : AccessKeyMetadata) : Prog unit :=
  log [Txt (" - " +++ AccessKeyId key +++ " [" +++ Status key +++ "] ");
       DateStr (CreateDate key)].

(** What [rotateIAMUserKeys] does with the sorted keys: the [try] block
    from the first [console.log] on. *)
Definition rotateSorted (iamUser : User.t)
    (onNewCredentials : string -> string -> Prog unit)
    (accessKeys : list AccessKeyMetadata) : Prog unit :=
  let iamUserName := User.name iamUser in
  log [Txt ("IAM User has " +++ of_nat (List.length accessKeys) +++ " keys:")] ;;
  for_of accessKeys logKey ;;
  (if 2 <? List.length accessKeys then
     throw (Error ("Unexpected number of access keys ("
                   +++ of_nat (List.length accessKeys) +++ ")"))
   else if List.length accessKeys <=? 1 then
     newKey <- createIAMAccessKey iamUserName ;;
     log [Txt ("Created new key key " +++ AccessKey.AccessKeyId newKey)] ;;
     sleepSeconds 1 ;;
     onNewCredentials (AccessKey.AccessKeyId newKey) (AccessKey.SecretAccessKey newKey)
   else
     match nth_error accessKeys 1 with
     | None => throw (TypeError "Cannot read property 'Status' of undefined")
     | Some olderKey =>
         if String.eqb (Status olderKey) "Active" then
           log [Txt ("Invalidating older access key " +++ AccessKeyId olderKey)] ;;
           updateIAMAccessKey iamUserName (AccessKeyId olderKey) "Inactive"
         else if String.eqb (Status olderKey) "Inactive" then
           log [Txt ("Deleting older, inactive access key " +++ AccessKeyId olderKey
                     +++ " [" +++ Status olderKey +++ "]")] ;;
           deleteIAMAccessKey iamUserName (AccessKeyId olderKey)
         else
           throw (Error ("Unexpected status for access key ("
                         +++ Status olderKey +++ ")"))
     end) ;;
  log [Txt ("Key rotation step complete." +++ nl +++ nl +++ nl)].

(** The [try] block of [rotateIAMUserKeys]: fetch the keys, sort them newest
    first, act on the sorted list. *)
Definition rotateSteps (iamUser : User.t)
    (onNewCredentials : string -> string -> Prog unit) : Prog unit :=
  let iamUserName := User.name iamUser in
  accessKeys <- listIAMAccessKeys iamUserName ;;
  let accessKeys := sort compareCreateDate accessKeys in
  rotateSorted iamUser onNewCredentials accessKeys.

Definition rotateIAMUserKeys (iamUser : User.t)
    (onNewCredentials : string -> string -> Prog unit) : Prog unit :=
  try_catch (rotateSteps iamUser onNewCredentials)
    (fun err => log [Txt ("Unhandled exception:" +++ nl); ErrObj err]).

(** [rotateIAMUserKeys] as it runs on Node.js 10, the runtime the Lambda is
    created with: the same function, with the [sort] of that runtime. *)
Definition rotateStepsOnNode10 (iamUser : User.t)
    (onNewCredentials : string -> string -> Prog unit) : Prog unit :=
  let iamUserName := User.name iamUser in
  accessKeys <- listIAMAccessKeys iamUserName ;;
  let accessKeys := InnerArraySort compareCreateDate accessKeys in
  rotateSorted iamUser onNewCredentials accessKeys.

Definition rotateIAMUserKeysOnNode10 (iamUser : User.t)
    (onNewCredentials : string -> string -> Prog unit) : Prog unit :=
  try_catch (rotateStepsOnNode10 iamUser onNewCredentials)
    (fun err => log [Txt ("Unhandled exception:" +++ nl); ErrObj err]).

(** ** credential-pusher.ts *)

(** The [Service] interface. *)
Record Service : Type := {
  validateConfiguration : ServiceConfiguration -> option string;
  pushNewCredentials : ServiceConfiguration -> string -> string -> Prog unit
}.

Record CredentialPusher : Type := {
  service : Service;
  config : ServiceConfiguration
}.

(** [new CredentialPusher(service, config)]: the instance, or the exception
    the constructor throws. *)
Definition newCredentialPusher (service : Service) (config : ServiceConfiguration)
  : result CredentialPusher :=
  let validationErr := validateConfiguration service config in
  if negb (falsy_opt validationErr) then
    inl (Error ("validation CredentialPusher configuration: " +++ of_opt validationErr))
  else
    inr {| service := service; config := config |}.

Definition push (this : CredentialPusher) (newAccessKeyId newSecretAccessKey : string)
  : Prog unit :=
  pushNewCredentials (service this) (config this) newAccessKeyId newSecretAccessKey.

(** ** The Lambda of [AccessKeyRotator] *)

Record AccessKeyRotatorArgs : Type := {
  user : User.t;
  interval : string;
  credentialPusher : CredentialPusher
}.

(** The function handed to [rotateIAMUserKeys] by the Lambda. *)
Definition onNewCredentials (args : AccessKeyRotatorArgs) (newKey newSecret : string)
  : Prog unit :=
  try_catch
    (log [Txt "Pushing out the new key to 3rd party services..."] ;;
     push (credentialPusher args) newKey newSecret)
    (fun err =>
       log [Txt "Unhandled exception pushing out credentials:"] ;;
       log [ErrObj err]).

(** [callback] of [keyRotatorLambda]; the event it is triggered with is not
    read. *)
Definition keyRotatorLambda (args : AccessKeyRotatorArgs) : Prog unit :=
  let userToRotate := user args in
  rotateIAMUserKeys userToRotate (onNewCredentials args).

(** ** credential-pusher-travis.ts *)

Module TravisCIPusher.

Definition validateConfiguration (config : ServiceConfiguration) : option string :=
  if falsy_opt (accessKey config) then
    Some "No Travis CI access key provided."%string
  else
    match projects config with
    | None => Some "No projects to push credentials to."%string
    | Some ps =>
        if List.length ps =? 0 then Some "No projects to push credentials to."%string
        else None
    end.

Definition getTravisClient (token : option string) : AxiosInstance :=
  {| baseURL := "https://api.travis-ci.com";
     headers := [("Travis-API-Version", "3");
                 ("Authorization", "token " +++ of_opt token);
                 ("Content-Type", "application/json");
                 ("User-Agent", "Pulumi AWS access key rotator")]%string;
     timeout := 10 * 1000 |}.

(** Characters [encodeURIComponent] leaves alone. *)
Definition uriUnreserved (c : ascii) : bool :=
  let n := nat_of_ascii c in
  ((65 <=? n) && (n <=? 90)) || ((97 <=? n) && (n <=? 122))
  || ((48 <=? n) && (n <=? 57))
  || existsb (Ascii.eqb c) ["-"; "_"; "."; "!"; "~"; "*"; "'"; "("; ")"]%char.

Definition hexDigit (n : nat) : ascii :=
  if n <? 10 then ascii_of_nat (48 + n) else ascii_of_nat (55 + n).

(** [encodeURIComponent] on the UTF-8 bytes of a well-formed string. *)
Fixpoint encodeURIComponent (s : string) : string :=
  match s with
  | EmptyString => EmptyString
  | String c s' =>
      if uriUnreserved c then String c (encodeURIComponent s')
      else
        let n := nat_of_ascii c in
        String "%" (String (hexDigit (n / 16)) (String (hexDigit (n mod 16))
          (encodeURIComponent s')))
  end.

(** [envVar.name === location]. *)
Definition nameIs (envVar : TravisEnvVar.t) (location : string) : bool :=
  match TravisEnvVar.name envVar with
  | None => false
  | Some n => String.eqb n location
  end.

(** One turn of the loop over the environment variables; the pair is
    [(accessKeyEnvVarId, secretAccessKeyEnvVarId)]. *)
Definition resolveEnvVar (project : Project) (ids : string * string)
    (envVar : TravisEnvVar.t) : string * string :=
  if falsy_opt (TravisEnvVar.id envVar) then ids
  else if nameIs envVar (accessKeyIDLocation project) then
    (of_opt (TravisEnvVar.id envVar), snd ids)
  else if nameIs envVar (secretAccessKeyLocation project) then
    (fst ids, of_opt (TravisEnvVar.id envVar))
  else ids.

Definition resolveEnvVars (project : Project) (envVars : list TravisEnvVar.t)
  : string * string :=
  fold_left (resolveEnvVar project) envVars (EmptyString, EmptyString).

Definition envVarsUrl (repoSlug : string) : string :=
  "/repo/" +++ repoSlug +++ "/env_vars".

Definition envVarUrl (repoSlug envVarId : string) : string :=
  "/repo/" +++ repoSlug +++ "/env_var/" +++ envVarId.

(** The body of the loop over [config.projects]; [proj] is the loop
    variable [project] of the source. *)
Definition pushProject (travisClient : AxiosInstance)
    (newAccessKeyId newSecretAccessKey : string) (proj : Project) : Prog unit :=
  log [Txt ("Pushing new credentials to Travis CI project '"
            +++ project proj +++ "'")] ;;
  let repoSlug := encodeURIComponent (project proj) in
  listEnvVarsResp <- call (httpGet travisClient (envVarsUrl repoSlug)) ;;
  match data listEnvVarsResp with
  | None => throw (Error "Didn't get list of Travis project credentials as expected.")
  | Some d =>
      match env_vars d with
      | None => throw (Error "Didn't get list of Travis project credentials as expected.")
      | Some envVars =>
          let '(accessKeyEnvVarId, secretAccessKeyEnvVarId) :=
            resolveEnvVars proj envVars in
          if falsy accessKeyEnvVarId then
            throw (Error ("Unable to find Travis CI environment variable with name "
                          +++ accessKeyIDLocation proj))
          else if falsy secretAccessKeyEnvVarId then
            throw (Error ("Unable to find Travis CI environment variable with name "
                          +++ secretAccessKeyLocation proj))
          else
            log [Txt ("Updating env var '" +++ accessKeyIDLocation proj
                      +++ "' (" +++ accessKeyEnvVarId +++ ")")] ;;
            updateAccessKeyIdResp <-
              call (httpPatch travisClient (envVarUrl repoSlug accessKeyEnvVarId)
                      {| env_var_value := newAccessKeyId; env_var_public := true |}) ;;
            log [Txt ("Updated AWS access key ID. Got response code ("
                      +++ of_nat (status updateAccessKeyIdResp) +++ ")")] ;;
            log [Txt ("Updating env var '" +++ secretAccessKeyLocation proj
                      +++ "' (" +++ secretAccessKeyEnvVarId +++ ")")] ;;
            updateSecretAccessKeyResp <-
              call (httpPatch travisClient (envVarUrl repoSlug secretAccessKeyEnvVarId)
                      {| env_var_value := newSecretAccessKey; env_var_public := false |}) ;;
            log [Txt ("Updated AWS secret access key. Got response code ("
                      +++ of_nat (status updateSecretAccessKeyResp) +++ ")")]
      end
  end.

Definition pushNewCredentials (config : ServiceConfiguration)
    (newAccessKeyId newSecretAccessKey : string) : Prog unit :=
  let travisClient := getTravisClient (accessKey config) in
  match projects config with
  | None => throw (TypeError "config.projects is not iterable")
  | Some ps => for_of ps (pushProject travisClient newAccessKeyId newSecretAccessKey)
  end.

Definition new : Service :=
  Build_Service validateConfiguration pushNewCredentials.

End TravisCIPusher.

(** A [Service] implemented elsewhere: pushing is one awaited call. *)
Definition externalService (validate : ServiceConfiguration -> option string) : Service :=
  {| validateConfiguration := validate;
     pushNewCredentials := fun config newKey newKeySecret =>
                             call (servicePush config newKey newKeySecret) |}.

(** ** index.ts *)

Definition demoConfiguration (travisCiToken : string) : ServiceConfiguration :=
  {| accessKey := Some travisCiToken;
     projects := Some [ {| project := "chrsmith/pulumi-aws-travis-cicd-demo";
                           accessKeyIDLocation := "AWS_ACCESS_KEY_ID";
                           secretAccessKeyLocation := "AWS_SECRET_ACCESS_KEY" |} ] |}.

Definition demoTravisCIPusher (travisCiToken : string) : result CredentialPusher :=
  newCredentialPusher TravisCIPusher.new (demoConfiguration travisCiToken).

(** The rotator is built from the pusher, so only once the pusher exists. *)
Definition rotator (travisCiToken rate : string) (user : User.t)
  : result AccessKeyRotatorArgs :=
  match demoTravisCIPusher travisCiToken with
  | inl e => inl e
  | inr pusher => inr {| user := user; interval := rate; credentialPusher := pusher |}
  end.

(** ** Reading traces *)

(** What a run did to the outside world, console output left out. *)
Inductive Step : Type :=
| Called (c : Call)
| Slept (ms : Z).

Definition stepOf (e : Event) : option Step :=
  match e with
  | EvLog _ => None
  | EvSleep ms => Some (Slept ms)
  | EvCall c _ => Some (Called c)
  end.

Fixpoint steps (tr : list Event) : list Step :=
  match tr with
  | [] => []
  | e :: tr' => match stepOf e with
                | Some st => st :: steps tr'
                | None => steps tr'
                end
  end.

Definition isCreate (c : Call) : bool :=
  match c with createAccessKey _ => true | _ => false end.

Definition isUpdate (c : Call) : bool :=
  match c with updateAccessKey _ _ _ => true | _ => false end.

Definition isDelete (c : Call) : bool :=
  match c with deleteAccessKey _ _ => true | _ => false end.

(** A call that changes the key set of the principal. *)
Definition isMutation (c : Call) : bool := isCreate c || isUpdate c || isDelete c.

(** A call that hands a credential to the distributor. *)
Definition isDistribution (c : Call) : bool :=
  match c with servicePush _ _ _ => true | _ => false end.

(** The calls of a trace that satisfy [f], in order. *)
Fixpoint callsWhere (f : Call -> bool) (tr : list Event) : list Call :=
  match tr with
  | [] => []
  | EvCall c _ :: tr' => if f c then c :: callsWhere f tr' else callsWhere f tr'
  | _ :: tr' => callsWhere f tr'
  end.

(** The console output of a trace. *)
Fixpoint logged (tr : list Event) : list (list Part) :=
  match tr with
  | [] => []
  | EvLog m :: tr' => m :: logged tr'
  | _ :: tr' => logged tr'
  end.

(** The lines [rotateSorted] prints before it decides. *)
Definition keyListing (accessKeys : list AccessKeyMetadata) : list Event :=
  EvLog [Txt ("IAM User has " +++ of_nat (List.length accessKeys) +++ " keys:")]
  :: map (fun key => EvLog [Txt (" - " +++ AccessKeyId key +++ " [" +++ Status key +++ "] ");
                            DateStr (CreateDate key)]) accessKeys.

Definition stepComplete : Event :=
  EvLog [Txt ("Key rotation step complete." +++ nl +++ nl +++ nl)].

Definition unhandled (err : Exn) : Event :=
  EvLog [Txt ("Unhandled exception:" +++ nl); ErrObj err].

(** The two exceptions [rotateSorted] throws on an unexpected key set. *)
Definition tooManyKeys (n : nat) : Exn :=
  Error ("Unexpected number of access keys (" +++ of_nat n +++ ")").

Definition unexpectedStatus (st : string) : Exn :=
  Error ("Unexpected status for access key (" +++ st +++ ")").

(** The change [rotateSorted] asks the store for, read off the sorted keys:
    a new key for up to one key, the retirement of the second of two keys,
    nothing otherwise. *)
Definition changeAsked (iamUser : User.t) (accessKeys : list AccessKeyMetadata)
  : list Call :=
  match accessKeys with
  | [] | [_] => [createAccessKey (User.name iamUser)]
  | [_; olderKey] =>
      if String.eqb (Status olderKey) "Active" then
        [updateAccessKey (User.name iamUser) (AccessKeyId olderKey) "Inactive"]
      else if String.eqb (Status olderKey) "Inactive" then
        [deleteAccessKey (User.name iamUser) (AccessKeyId olderKey)]
      else []
  | _ => []
  end.

(** ** A rotator whose distributor is an external service *)

Definition externalArgs (u : User.t) (rate : string)
    (validate : ServiceConfiguration -> option string) (cfg : ServiceConfiguration)
  : AccessKeyRotatorArgs :=
  {| user := u; interval := rate;
     credentialPusher := {| service := externalService validate; config := cfg |} |}.

(** What the Lambda prints around a push. *)
Definition pushingOut : Event :=
  EvLog [Txt "Pushing out the new key to 3rd party services..."].

Definition pushFailed (err : Exn) : list Event :=
  [EvLog [Txt "Unhandled exception pushing out credentials:"]; EvLog [ErrObj err]].

(** ** A simulated credential store *)

(** The key set of one principal.  [issued] counts the keys ever created and
    numbers them; [now] is the clock that stamps a new key; [pushFails] tells
    whether the distributor rejects what it is handed. *)
Record Sim : Type := {
  keys : list AccessKeyMetadata;
  issued : nat;
  now : Z;
  pushFails : bool
}.

Definition keyIdOf (n : nat) : string := "AKIA" +++ of_nat n.
Definition secretOf (n : nat) : string := "secret" +++ of_nat n.

Definition setStatus (accessKeyId status : string) (k : AccessKeyMetadata)
  : AccessKeyMetadata :=
  if String.eqb (AccessKeyId k) accessKeyId then
    {| UserName := UserName k; AccessKeyId := AccessKeyId k;
       Status := status; CreateDate := CreateDate k |}
  else k.

(** The store applies every mutation it is asked for: it lists the keys in
    the order they were created, creates an Active key stamped [now] under
    an identifier never used before, and updates or deletes by identifier.
    It enforces no limit on the number of keys. *)
Definition simHandler : Handler Sim :=
  fun c s =>
    match c as c0 return Sim * result (Resp c0) with
    | listAccessKeys _ => (s, inr (keys s))
    | createAccessKey u =>
        ({| keys := keys s ++ [ {| UserName := u; AccessKeyId := keyIdOf (issued s);
                                   Status := "Active"; CreateDate := now s |} ];
            issued := S (issued s); now := now s; pushFails := pushFails s |},
         inr {| AccessKey.UserName := u;
                AccessKey.AccessKeyId := keyIdOf (issued s);
                AccessKey.Status := "Active";
                AccessKey.SecretAccessKey := secretOf (issued s);
                AccessKey.CreateDate := now s |})
    | updateAccessKey _ accessKeyId status =>
        ({| keys := map (setStatus accessKeyId status) (keys s);
            issued := issued s; now := now s; pushFails := pushFails s |}, inr tt)
    | deleteAccessKey _ accessKeyId =>
        ({| keys := filter (fun k => negb (String.eqb (AccessKeyId k) accessKeyId)) (keys s);
            issued := issued s; now := now s; pushFails := pushFails s |}, inr tt)
    | httpGet _ _ => (s, inl (Error "Network Error"))
    | httpPatch _ _ _ => (s, inl (Error "Network Error"))
    | servicePush _ _ _ =>
        (s, if pushFails s then inl (Error "push rejected") else inr tt)
    end.

Definition emptyStore : Sim :=
  {| keys := []; issued := 0; now := 0; pushFails := false |}.

(** One scheduled invocation: the clock reads [t], the distributor is up or
    down, the Lambda runs to its end. *)
Definition invocation (args : AccessKeyRotatorArgs) (s : Sim) (t : Z) (down : bool)
  : Sim * list Event * result unit :=
  exec simHandler (keyRotatorLambda args)
    {| keys := keys s; issued := issued s; now := t; pushFails := down |}.

(** The stores that repeated invocations reach from the empty one. *)
Inductive reachable (args : AccessKeyRotatorArgs) : Sim -> Prop :=
| reach_empty : reachable args emptyStore
| reach_invoke : forall s t down,
    reachable args s -> reachable args (final (invocation args s t down)).

Definition isActive (k : AccessKeyMetadata) : bool := String.eqb (Status k) "Active".

Definition holdsKey (l : list AccessKeyMetadata) (accessKeyId : string) : bool :=
  existsb (fun k => String.eqb (AccessKeyId k) accessKeyId) l.

(** [k] is Active and no Active key of [l] is newer. *)
Definition newestActive (l : list AccessKeyMetadata) (k : AccessKeyMetadata) : bool :=
  isActive k
  && forallb (fun k' => implb (isActive k') (CreateDate k' <=? CreateDate k)%Z) l.

(** The key created by an invocation at time [t] on the store [s]. *)
Definition createdKey (u : User.t) (s : Sim) (t : Z) : AccessKeyMetadata :=
  {| UserName := User.name u; AccessKeyId := keyIdOf (issued s);
     Status := "Active"; CreateDate := t |}.

(** What holds of every store the rotation reaches: at most two keys, no
    identifier twice, every identifier one the store has issued. *)
Definition wellFormed (s : Sim) : Prop :=
  List.length (keys s) <= 2
  /\ NoDup (map AccessKeyId (keys s))
  /\ Forall (fun k => exists n, n < issued s /\ AccessKeyId k = keyIdOf n) (keys s).

(** ** The pusher against the variables of a project *)

(** The identifier is one a variable of the list carries under that name. *)
Definition handleOf (envVars : list TravisEnvVar.t) (location envVarId : string) : bool :=
  existsb (fun v => TravisCIPusher.nameIs v location
                    && negb (falsy_opt (TravisEnvVar.id v))
                    && String.eqb (of_opt (TravisEnvVar.id v)) envVarId) envVars.

(** Some variable of the list with an identifier has that name. *)
Definition resolvable (envVars : list TravisEnvVar.t) (location : string) : bool :=
  existsb (fun v => TravisCIPusher.nameIs v location
                    && negb (falsy_opt (TravisEnvVar.id v))) envVars.

(** Some variable with an identifier has the secret name and not the
    key-id name. *)
Definition secretPicked (p : Project) (envVars : list TravisEnvVar.t) : bool :=
  existsb (fun v => negb (falsy_opt (TravisEnvVar.id v))
                    && negb (TravisCIPusher.nameIs v (accessKeyIDLocation p))
                    && TravisCIPusher.nameIs v (secretAccessKeyLocation p)) envVars.

Definition isPatch (c : Call) : bool :=
  match c with httpPatch _ _ _ => true | _ => false end.

(** ** Sample inputs *)

(** The user of [user-and-group.ts]. *)
Definition cicdUser : User.t :=
  {| User.name := "cicd-bot"; User.arn := "arn:aws:iam::123456789012:user/bots/cicd-bot" |}.

Definition sampleArgs : AccessKeyRotatorArgs :=
  externalArgs cicdUser "rate(1 hour)" TravisCIPusher.validateConfiguration
    (demoConfiguration "travis-token").

Definition sampleKey (n : nat) (status : string) (created : Z) : AccessKeyMetadata :=
  {| UserName := "cicd-bot"; AccessKeyId := keyIdOf n; Status := status;
     CreateDate := created |}.

Definition storeOf (l : list AccessKeyMetadata) (n : nat) : Sim :=
  {| keys := l; issued := n; now := 0; pushFails := false |}.

(** Eleven keys that were created at the same time. *)
Definition elevenKeys : list AccessKeyMetadata :=
  map (fun n => sampleKey n "Active" 5) (seq 0 11).

(** A Travis that knows one set of variables for every repository, accepts
    every update and keeps them, in order, as its state. *)
Definition travisWith (envVars : list TravisEnvVar.t) : Handler (list (string * EnvVarPatch)) :=
  fun c applied =>
    match c as c0 return list (string * EnvVarPatch) * result (Resp c0) with
    | httpGet _ _ =>
        (applied, inr {| data := Some {| env_vars := Some envVars |}; status := 200 |})
    | httpPatch _ url body =>
        (applied ++ [(url, body)], inr {| data := None; status := 200 |})
    | listAccessKeys _ => (applied, inl (Error "not an IAM endpoint"))
    | createAccessKey _ => (applied, inl (Error "not an IAM endpoint"))
    | updateAccessKey _ _ _ => (applied, inl (Error "not an IAM endpoint"))
    | deleteAccessKey _ _ => (applied, inl (Error "not an IAM endpoint"))
    | servicePush _ _ _ => (applied, inl (Error "not a service"))
    end.

Definition envVar (id name : string) : TravisEnvVar.t :=
  {| TravisEnvVar.id := Some id; TravisEnvVar.name := Some name;
     TravisEnvVar.public := Some false; TravisEnvVar.value := None |}.

(** The variables of the demo repository. *)
Definition demoEnvVars : list TravisEnvVar.t :=
  [envVar "id-1" "AWS_ACCESS_KEY_ID"; envVar "id-2" "AWS_SECRET_ACCESS_KEY"].

Definition demoProject : Project :=
  {| project := "chrsmith/pulumi-aws-travis-cicd-demo";
     accessKeyIDLocation := "AWS_ACCESS_KEY_ID";
     secretAccessKeyLocation := "AWS_SECRET_ACCESS_KEY" |}.

(** A project whose locations the target does not have. *)
Definition strayProject : Project :=
  {| project := "chrsmith/other";
     accessKeyIDLocation := "KEY_ID";
     secretAccessKeyLocation := "KEY_SECRET" |}.

(** A project that names one location for both values. *)
Definition sameNameProject : Project :=
  {| project := "chrsmith/pulumi-aws-travis-cicd-demo";
     accessKeyIDLocation := "AWS_ACCESS_KEY_ID";
     secretAccessKeyLocation := "AWS_ACCESS_KEY_ID" |}.

(** The exception for a location that is not found. *)
Definition unableToFind (location : string) : Exn :=
  Error ("Unable to find Travis CI environment variable with name " +++ location).

(** The two updates the pusher sends for a project once both locations are
    resolved among [envVars]: the request path and the body of each. *)
Definition updatesFor (envVars : list TravisEnvVar.t) (newAccessKeyId newSecretAccessKey : string)
    (p : Project) : list (string * EnvVarPatch) :=
  let repoSlug := TravisCIPusher.encodeURIComponent (project p) in
  let ids := TravisCIPusher.resolveEnvVars p envVars in
  [(TravisCIPusher.envVarUrl repoSlug (fst ids),
    {| env_var_value := newAccessKeyId; env_var_public := true |});
   (TravisCIPusher.envVarUrl repoSlug (snd ids),
    {| env_var_value := newSecretAccessKey; env_var_public := false |})].

(** Both locations of the project are found among [envVars]. *)
Definition resolves (envVars : list TravisEnvVar.t) (p : Project) : bool :=
  resolvable envVars (accessKeyIDLocation p) && secretPicked p envVars.

(** ** Further readings of a trace *)

Definition isList (c : Call) : bool :=
  match c with listAccessKeys _ => true | _ => false end.

(** The identifier a distribution call hands on. *)
Definition pushedId (c : Call) : option string :=
  match c with
  | servicePush _ newKey _ => Some newKey
  | _ => None
  end.

(** ** Shapes of the key set *)

Definition isInactive (k : AccessKeyMetadata) : bool := String.eqb (Status k) "Inactive".

(** The key sets the rotation keeps to: none, one Active key, or two keys of
    which the newer is Active and the older Active or Inactive. *)
Definition healthy (l : list AccessKeyMetadata) : bool :=
  match sort compareCreateDate l with
  | [] => true
  | [a] => isActive a
  | [newer; older] => isActive newer && (isActive older || isInactive older)
  | _ => false
  end.

(** A store that may be read but refuses every change. *)
Definition readOnlyStore : Handler Sim :=
  fun c s =>
    match c as c0 return Sim * result (Resp c0) with
    | listAccessKeys _ => (s, inr (keys s))
    | createAccessKey _ => (s, inl (Error "AccessDenied"))
    | updateAccessKey _ _ _ => (s, inl (Error "AccessDenied"))
    | deleteAccessKey _ _ => (s, inl (Error "AccessDenied"))
    | httpGet _ _ => (s, inl (Error "Network Error"))
    | httpPatch _ _ _ => (s, inl (Error "Network Error"))
    | servicePush _ _ _ => (s, inr tt)
    end.

(** ** Further targets and worlds *)

(** A Travis that answers every listing with [listing] and accepts the
    updates [accept] lets through, keeping them, in order, as its state. *)
Definition travisStub (listing : result AxiosResponse) (accept : EnvVarPatch -> bool)
  : Handler (list (string * EnvVarPatch)) :=
  fun c applied =>
    match c as c0 return list (string * EnvVarPatch) * result (Resp c0) with
    | httpGet _ _ => (applied, listing)
    | httpPatch _ url body =>
        if accept body
        then (applied ++ [(url, body)], inr {| data := None; status := 200 |})
        else (applied, inl (Error "Request failed with status code 500"))
    | listAccessKeys _ => (applied, inl (Error "not an IAM endpoint"))
    | createAccessKey _ => (applied, inl (Error "not an IAM endpoint"))
    | updateAccessKey _ _ _ => (applied, inl (Error "not an IAM endpoint"))
    | deleteAccessKey _ _ => (applied, inl (Error "not an IAM endpoint"))
    | servicePush _ _ _ => (applied, inl (Error "not a service"))
    end.

(** The listing of the demo repository. *)
Definition demoListing : result AxiosResponse :=
  inr {| data := Some {| env_vars := Some demoEnvVars |}; status := 200 |}.

(** The simulated store and the recording Travis side by side: the calls of
    the IAM client go to the store, the requests of the HTTP client to
    Travis. *)
Definition worldHandler (envVars : list TravisEnvVar.t)
  : Handler (Sim * list (string * EnvVarPatch)) :=
  fun c w =>
    match c as c0 return (Sim * list (string * EnvVarPatch)) * result (Resp c0) with
    | listAccessKeys u =>
        let (s', r) := simHandler (listAccessKeys u) (fst w) in ((s', snd w), r)
    | createAccessKey u =>
        let (s', r) := simHandler (createAccessKey u) (fst w) in ((s', snd w), r)
    | updateAccessKey u i st =>
        let (s', r) := simHandler (updateAccessKey u i st) (fst w) in ((s', snd w), r)
    | deleteAccessKey u i =>
        let (s', r) := simHandler (deleteAccessKey u i) (fst w) in ((s', snd w), r)
    | httpGet cl url =>
        let (a', r) := travisWith envVars (httpGet cl url) (snd w) in ((fst w, a'), r)
    | httpPatch cl url body =>
        let (a', r) := travisWith envVars (httpPatch cl url body) (snd w) in ((fst w, a'), r)
    | servicePush _ _ _ => (w, inl (Error "not a service"))
    end.

(** The run with trace [tr] has got [envVars] as the answer to the listing
    of the variables of [p]. *)
Definition listedFor (tr : list Event) (client : AxiosInstance) (p : Project)
    (envVars : list TravisEnvVar.t) : Prop :=
  let repoSlug := TravisCIPusher.encodeURIComponent (project p) in
  exists resp d,
    In (EvCall (httpGet client (TravisCIPusher.envVarsUrl repoSlug)) (inr resp)) tr
    /\ data resp = Some d /\ env_vars d = Some envVars.

(** A request of the pusher for [p], in a run with trace [tr]: the listing
    of the variables of [p], or the update of a variable that a listing
    answered in this run carries, with an identifier, under the name of the
    location: the new key id, marked public, for a variable of the key-id
    name, or the new secret, marked not public, for a variable of the
    secret name. *)
Definition sentFor (tr : list Event) (client : AxiosInstance) (newId newSecret : string)
    (p : Project) (c : Call) : Prop :=
  let repoSlug := TravisCIPusher.encodeURIComponent (project p) in
  c = httpGet client (TravisCIPusher.envVarsUrl repoSlug)
  \/ exists envVars envVarId,
       listedFor tr client p envVars
       /\ ((c = httpPatch client (TravisCIPusher.envVarUrl repoSlug envVarId)
                  {| env_var_value := newId; env_var_public := true |}
            /\ handleOf envVars (accessKeyIDLocation p) envVarId = true)
           \/ (c = httpPatch client (TravisCIPusher.envVarUrl repoSlug envVarId)
                     {| env_var_value := newSecret; env_var_public := false |}
               /\ handleOf envVars (secretAccessKeyLocation p) envVarId = true)).

(** Every call of a trace, in order. *)
Definition calls (tr : list Event) : list Call := callsWhere (fun _ => true) tr.

(** ** The execution policy of the Lambda *)

(** A statement of an IAM policy document. *)
Record PolicyStatement : Type := {
  Effect : string;
  Action : list string;
  Resource : string
}.

(** The statements of [lambdaKeyRotationPolicy], declared by
    [createLambdaRolePolicy] for the user whose keys are rotated. *)
Definition keyRotatorPolicy (user : User.t) : list PolicyStatement :=
  [ {| Effect := "Allow";
       Action := ["iam:CreateAccessKey"; "iam:DeleteAccessKey";
                  "iam:ListAccessKeys"; "iam:UpdateAccessKey"]%string;
       Resource := User.arn user |} ].

(** The IAM action that authorises a call of the IAM client, and the user
    it is made for; the other calls need none. *)
Definition iamAction (c : Call) : option (string * string) :=
  match c with
  | listAccessKeys u => Some ("iam:ListAccessKeys", u)%string
  | createAccessKey u => Some ("iam:CreateAccessKey", u)%string
  | updateAccessKey u _ _ => Some ("iam:UpdateAccessKey", u)%string
  | deleteAccessKey u _ => Some ("iam:DeleteAccessKey", u)%string
  | _ => None
  end.

(** The policy allows the action on the resource. *)
Definition allows (policy : list PolicyStatement) (action resource : string) : bool :=
  existsb (fun st => String.eqb (Effect st) "Allow"
                     && existsb (String.eqb action) (Action st)
                     && String.eqb (Resource st) resource) policy.

(** The policy lets the call through when it is made for [user]. *)
Definition permits (user : User.t) (c : Call) : bool :=
  match iamAction c with
  | None => true
  | Some (action, userName) =>
      String.eqb userName (User.name user)
      && allows (keyRotatorPolicy user) action (User.arn user)
  end.

(** * Properties *)

#[local] Arguments String.append : simpl never.

(** ** Runs of composed programs *)

Lemma exec_bind {S A B : Type} (h : Handler S) (p : Prog A) (f : A -> Prog B) (s : S) :
  exec h (bind p f) s =
  match exec h p s with
  | (s1, tr1, inl e) => (s1, tr1, inl e)
  | (s1, tr1, inr a) =>
      match exec h (f a) s1 with
      | (s2, tr2, r) => (s2, tr1 ++ tr2, r)
      end
  end.
Proof.
  revert s; induction p as [a | e | m k IH | ms k IH | c k IH]; intros s; simpl.
  - destruct (exec h (f a) s) as [[s2 tr2] r]; reflexivity.
  - reflexivity.
  - rewrite IH. destruct (exec h k s) as [[s1 tr1] [e | a]]; [reflexivity |].
    destruct (exec h (f a) s1) as [[s2 tr2] r]; reflexivity.
  - rewrite IH. destruct (exec h k s) as [[s1 tr1] [e | a]]; [reflexivity |].
    destruct (exec h (f a) s1) as [[s2 tr2] r]; reflexivity.
  - destruct (h c s) as [s0 r0]. rewrite IH.
    destruct (exec h (k r0) s0) as [[s1 tr1] [e | a]]; [reflexivity |].
    destruct (exec h (f a) s1) as [[s2 tr2] r]; reflexivity.
Qed.

Lemma exec_try_catch {S A : Type} (h : Handler S) (p : Prog A) (hd : Exn -> Prog A) (s : S) :
  exec h (try_catch p hd) s =
  match exec h p s with
  | (s1, tr1, inr a) => (s1, tr1, inr a)
  | (s1, tr1, inl e) =>
      match exec h (hd e) s1 with
      | (s2, tr2, r) => (s2, tr1 ++ tr2, r)
      end
  end.
Proof.
  revert s; induction p as [a | e | m k IH | ms k IH | c k IH]; intros s; simpl.
  - reflexivity.
  - destruct (exec h (hd e) s) as [[s2 tr2] r]; reflexivity.
  - rewrite IH. destruct (exec h k s) as [[s1 tr1] [e | a]]; [| reflexivity].
    destruct (exec h (hd e) s1) as [[s2 tr2] r]; reflexivity.
  - rewrite IH. destruct (exec h k s) as [[s1 tr1] [e | a]]; [| reflexivity].
    destruct (exec h (hd e) s1) as [[s2 tr2] r]; reflexivity.
  - destruct (h c s) as [s0 r0]. rewrite IH.
    destruct (exec h (k r0) s0) as [[s1 tr1] [e | a]]; [| reflexivity].
    destruct (exec h (hd e) s1) as [[s2 tr2] r]; reflexivity.
Qed.

Lemma exec_log {S : Type} (h : Handler S) (m : list Part) (s : S) :
  exec h (log m) s = (s, [EvLog m], inr tt).
Proof. reflexivity. Qed.

Lemma exec_call {S : Type} (h : Handler S) (c : Call) (s : S) :
  exec h (call c) s =
  (fst (h c s), [EvCall c (snd (h c s))],
   match snd (h c s) with inl e => inl e | inr x => inr x end).
Proof.
  unfold call; simpl. destruct (h c s) as [s1 [e | x]]; reflexivity.
Qed.

Lemma exec_for_of_logKey {S : Type} (h : Handler S) (l : list AccessKeyMetadata) (s : S) :
  exec h (for_of l logKey) s =
  (s, map (fun key => EvLog [Txt (" - " +++ AccessKeyId key +++ " [" +++ Status key +++ "] ");
                             DateStr (CreateDate key)]) l, inr tt).
Proof.
  induction l as [| k l IH]; [reflexivity |].
  cbn [for_of]. rewrite exec_bind. unfold logKey at 1. rewrite exec_log, IH. reflexivity.
Qed.

(** A run of a loop is the run of its first turn followed, when that turn
    completes, by the run of the remaining turns. *)
Lemma exec_for_of_cons {S X : Type} (h : Handler S) (x : X) (l : list X)
    (body : X -> Prog unit) (s : S) :
  exec h (for_of (x :: l) body) s =
  match exec h (body x) s with
  | (s1, tr1, inl e) => (s1, tr1, inl e)
  | (s1, tr1, inr _) =>
      match exec h (for_of l body) s1 with
      | (s2, tr2, r) => (s2, tr1 ++ tr2, r)
      end
  end.
Proof. cbn [for_of]. apply exec_bind. Qed.

(** ** Reading traces *)

Lemma steps_app (a b : list Event) : steps (a ++ b) = steps a ++ steps b.
Proof.
  induction a as [| e a IH]; [reflexivity |].
  simpl. destruct (stepOf e); simpl; rewrite IH; reflexivity.
Qed.

Lemma callsWhere_app (f : Call -> bool) (a b : list Event) :
  callsWhere f (a ++ b) = callsWhere f a ++ callsWhere f b.
Proof.
  induction a as [| e a IH]; [reflexivity |].
  destruct e as [m | ms | c r]; simpl; auto.
  destruct (f c); simpl; rewrite IH; reflexivity.
Qed.

Lemma logged_app (a b : list Event) : logged (a ++ b) = logged a ++ logged b.
Proof.
  induction a as [| e a IH]; [reflexivity |].
  destruct e; simpl; rewrite ?IH; reflexivity.
Qed.

Lemma steps_keyListing (l : list AccessKeyMetadata) : steps (keyListing l) = [].
Proof.
  unfold keyListing; simpl. induction l as [| k l IH]; simpl; auto.
Qed.

Lemma callsWhere_keyListing (f : Call -> bool) (l : list AccessKeyMetadata) :
  callsWhere f (keyListing l) = [].
Proof.
  unfold keyListing; simpl. induction l as [| k l IH]; simpl; auto.
Qed.

(** ** Sorting *)

Section SortFacts.
Context {A : Type} (cmp : A -> A -> Z).

Lemma insert_perm (x : A) (l : list A) : Permutation (x :: l) (insert cmp x l).
Proof.
  induction l as [| y l IH]; simpl; [apply Permutation_refl |].
  destruct (cmp x y <=? 0)%Z; [apply Permutation_refl |].
  eapply perm_trans; [apply perm_swap |]. apply perm_skip, IH.
Qed.

Lemma sort_perm (l : list A) : Permutation l (sort cmp l).
Proof.
  induction l as [| x l IH]; simpl; [constructor |].
  eapply perm_trans; [apply perm_skip, IH | apply insert_perm].
Qed.

Lemma sort_length (l : list A) : List.length (sort cmp l) = List.length l.
Proof. symmetry. apply Permutation_length, sort_perm. Qed.
End SortFacts.

(** [compareCreateDate] orders by creation time, newest first. *)
Lemma compareCreateDate_le (a b : AccessKeyMetadata) :
  (compareCreateDate a b <=? 0)%Z = (CreateDate b <=? CreateDate a)%Z.
Proof.
  unfold compareCreateDate; cbv zeta.
  destruct (Z.gtb_spec (CreateDate a) (CreateDate b)) as [Hgt | Hle].
  - symmetry. simpl. apply Z.leb_le. lia.
  - destruct (Z.ltb_spec (CreateDate a) (CreateDate b)) as [Hlt | Hge]; simpl; symmetry.
    + apply Z.leb_gt. lia.
    + apply Z.leb_le. lia.
Qed.

Lemma insert_newestFirst (x : AccessKeyMetadata) (l : list AccessKeyMetadata) :
  StronglySorted newestFirst l ->
  StronglySorted newestFirst (insert compareCreateDate x l).
Proof.
  induction l as [| y l IH]; intros Hs; simpl.
  - constructor; constructor.
  - rewrite compareCreateDate_le.
    inversion Hs as [| ? ? Hl Hy]; subst.
    destruct (Z.leb_spec (CreateDate y) (CreateDate x)) as [Hle | Hgt].
    + constructor; [exact Hs |].
      constructor; [exact Hle |].
      eapply Forall_impl; [| exact Hy].
      unfold newestFirst; intros z Hz; lia.
    + constructor; [apply IH, Hl |].
      eapply Permutation_Forall; [apply insert_perm |].
      constructor; [unfold newestFirst; lia | exact Hy].
Qed.

Lemma sort_newestFirst (l : list AccessKeyMetadata) :
  StronglySorted newestFirst (sort compareCreateDate l).
Proof.
  induction l as [| x l IH]; simpl; [constructor | apply insert_newestFirst, IH].
Qed.

(** Inserting a key does not disturb the keys created at time [t], and puts
    a key created at [t] in front of them. *)
Lemma filter_insert_date (t : Z) (x : AccessKeyMetadata) (l : list AccessKeyMetadata) :
  filter (fun k => (CreateDate k =? t)%Z) (insert compareCreateDate x l) =
  filter (fun k => (CreateDate k =? t)%Z) (x :: l).
Proof.
  induction l as [| y l IH]; [reflexivity |].
  cbn [insert]. rewrite compareCreateDate_le.
  destruct (Z.leb_spec (CreateDate y) (CreateDate x)) as [Hle | Hgt]; [reflexivity |].
  cbn [filter] in *. rewrite IH.
  destruct (Z.eqb_spec (CreateDate x) t) as [Hx | Hx];
    destruct (Z.eqb_spec (CreateDate y) t) as [Hy | Hy]; try reflexivity.
  lia.
Qed.

Lemma sort_stable (t : Z) (l : list AccessKeyMetadata) :
  filter (fun k => (CreateDate k =? t)%Z) (sort compareCreateDate l) =
  filter (fun k => (CreateDate k =? t)%Z) l.
Proof.
  induction l as [| x l IH]; [reflexivity |].
  cbn [sort]. rewrite filter_insert_date. cbn [filter]. rewrite IH. reflexivity.
Qed.

(** ** Runs of the rotation step *)

Section RotationRuns.
Context {S : Type} (h : Handler S) (u : User.t).
Context (cb : string -> string -> Prog unit).

(** The run of the [try] block is the fetch followed by the run of
    [rotateSorted] on the sorted keys. *)
Lemma exec_rotateSteps (s : S) :
  exec h (rotateSteps u cb) s =
  match snd (h (listAccessKeys (User.name u)) s) with
  | inl e =>
      (fst (h (listAccessKeys (User.name u)) s),
       [EvCall (listAccessKeys (User.name u)) (inl e)], inl e)
  | inr fetched =>
      match exec h (rotateSorted u cb (sort compareCreateDate fetched))
              (fst (h (listAccessKeys (User.name u)) s)) with
      | (s2, tr, r) => (s2, EvCall (listAccessKeys (User.name u)) (inr fetched) :: tr, r)
      end
  end.
Proof.
  unfold rotateSteps, listIAMAccessKeys; cbv zeta. rewrite exec_bind.
  rewrite (exec_call h (listAccessKeys (User.name u))).
  destruct (h (listAccessKeys (User.name u)) s) as [s1 [e | fetched]]; simpl;
    [reflexivity |].
  destruct (exec h (rotateSorted u cb (sort compareCreateDate fetched)) s1)
    as [[s2 tr] r]; reflexivity.
Qed.

(** The [catch] turns an exception of the [try] block into a line on the
    console. *)
Lemma exec_rotateIAMUserKeys (s : S) :
  exec h (rotateIAMUserKeys u cb) s =
  match exec h (rotateSteps u cb) s with
  | (s1, tr, inl err) => (s1, tr ++ [unhandled err], inr tt)
  | (s1, tr, inr a) => (s1, tr, inr a)
  end.
Proof.
  unfold rotateIAMUserKeys. rewrite exec_try_catch.
  destruct (exec h (rotateSteps u cb) s) as [[s1 tr] [err | a]]; reflexivity.
Qed.

Lemma exec_rotateSorted_many (l : list AccessKeyMetadata) (s : S) :
  2 < List.length l ->
  exec h (rotateSorted u cb l) s = (s, keyListing l, inl (tooManyKeys (List.length l))).
Proof.
  intros Hl. unfold rotateSorted; cbv zeta.
  rewrite exec_bind, exec_log, exec_bind, exec_for_of_logKey, exec_bind.
  apply Nat.ltb_lt in Hl. rewrite Hl.
  unfold throw, keyListing; cbn [exec app]. rewrite app_nil_r. reflexivity.
Qed.

Lemma exec_rotateSorted_few (l : list AccessKeyMetadata) (s : S) :
  List.length l <= 1 ->
  exec h (rotateSorted u cb l) s =
  match h (createAccessKey (User.name u)) s with
  | (s1, inl e) =>
      (s1, keyListing l ++ [EvCall (createAccessKey (User.name u)) (inl e)], inl e)
  | (s1, inr newKey) =>
      match exec h (cb (AccessKey.AccessKeyId newKey) (AccessKey.SecretAccessKey newKey)) s1 with
      | (s2, tr, inl e) =>
          (s2, keyListing l
               ++ [EvCall (createAccessKey (User.name u)) (inr newKey);
                   EvLog [Txt ("Created new key key " +++ AccessKey.AccessKeyId newKey)];
                   EvSleep 1000] ++ tr, inl e)
      | (s2, tr, inr _) =>
          (s2, keyListing l
               ++ [EvCall (createAccessKey (User.name u)) (inr newKey);
                   EvLog [Txt ("Created new key key " +++ AccessKey.AccessKeyId newKey)];
                   EvSleep 1000] ++ tr ++ [stepComplete], inr tt)
      end
  end.
Proof.
  intros Hl. unfold rotateSorted; cbv zeta.
  rewrite exec_bind, exec_log, exec_bind, exec_for_of_logKey, exec_bind.
  assert (H2 : (2 <? List.length l) = false) by (apply Nat.ltb_ge; lia).
  assert (H1 : (List.length l <=? 1) = true) by (apply Nat.leb_le; lia).
  rewrite H2, H1. unfold createIAMAccessKey.
  rewrite exec_bind, (exec_call h (createAccessKey (User.name u))).
  destruct (h (createAccessKey (User.name u)) s) as [s1 [e | newKey]]; simpl;
    [reflexivity |].
  destruct (exec h (cb (AccessKey.AccessKeyId newKey) (AccessKey.SecretAccessKey newKey)) s1)
    as [[s2 tr] [e | []]]; simpl; [reflexivity |].
  reflexivity.
Qed.

Lemma exec_rotateSorted_two (l : list AccessKeyMetadata) (older : AccessKeyMetadata) (s : S) :
  List.length l = 2 -> nth_error l 1 = Some older ->
  exec h (rotateSorted u cb l) s =
  if String.eqb (Status older) "Active" then
    match h (updateAccessKey (User.name u) (AccessKeyId older) "Inactive") s with
    | (s1, inl e) =>
        (s1, keyListing l
             ++ [EvLog [Txt ("Invalidating older access key " +++ AccessKeyId older)];
                 EvCall (updateAccessKey (User.name u) (AccessKeyId older) "Inactive") (inl e)],
         inl e)
    | (s1, inr x) =>
        (s1, keyListing l
             ++ [EvLog [Txt ("Invalidating older access key " +++ AccessKeyId older)];
                 EvCall (updateAccessKey (User.name u) (AccessKeyId older) "Inactive") (inr x);
                 stepComplete],
         inr tt)
    end
  else if String.eqb (Status older) "Inactive" then
    match h (deleteAccessKey (User.name u) (AccessKeyId older)) s with
    | (s1, inl e) =>
        (s1, keyListing l
             ++ [EvLog [Txt ("Deleting older, inactive access key " +++ AccessKeyId older
                             +++ " [" +++ Status older +++ "]")];
                 EvCall (deleteAccessKey (User.name u) (AccessKeyId older)) (inl e)],
         inl e)
    | (s1, inr x) =>
        (s1, keyListing l
             ++ [EvLog [Txt ("Deleting older, inactive access key " +++ AccessKeyId older
                             +++ " [" +++ Status older +++ "]")];
                 EvCall (deleteAccessKey (User.name u) (AccessKeyId older)) (inr x);
                 stepComplete],
         inr tt)
    end
  else
    (s, keyListing l, inl (unexpectedStatus (Status older))).
Proof.
  intros Hl Hn. unfold rotateSorted; cbv zeta.
  rewrite exec_bind, exec_log, exec_bind, exec_for_of_logKey, exec_bind.
  assert (H2 : (2 <? List.length l) = false) by (apply Nat.ltb_ge; lia).
  assert (H1 : (List.length l <=? 1) = false) by (apply Nat.leb_gt; lia).
  rewrite H2, H1, Hn.
  destruct (String.eqb (Status older) "Active").
  - rewrite exec_bind, exec_log. unfold updateIAMAccessKey.
    rewrite (exec_call h (updateAccessKey (User.name u) (AccessKeyId older) "Inactive")).
    destruct (h (updateAccessKey (User.name u) (AccessKeyId older) "Inactive") s)
      as [s1 [e | []]]; simpl; reflexivity.
  - destruct (String.eqb (Status older) "Inactive").
    + rewrite exec_bind, exec_log. unfold deleteIAMAccessKey.
      rewrite (exec_call h (deleteAccessKey (User.name u) (AccessKeyId older))).
      destruct (h (deleteAccessKey (User.name u) (AccessKeyId older)) s)
        as [s1 [e | []]]; simpl; reflexivity.
    + unfold throw, keyListing; cbn [exec app]. rewrite app_nil_r. reflexivity.
Qed.
End RotationRuns.

(** ** Runs of the Lambda with an external distributor *)

Section LambdaRuns.
Context {S : Type} (h : Handler S) (u : User.t) (rate : string).
Context (validate : ServiceConfiguration -> option string) (cfg : ServiceConfiguration).

Let args := externalArgs u rate validate cfg.

(** The callback awaits the push; a rejection ends on the console and the
    callback itself completes. *)
Lemma exec_onNewCredentials (newKey newSecret : string) (s : S) :
  exec h (onNewCredentials args newKey newSecret) s =
  match h (servicePush cfg newKey newSecret) s with
  | (s1, inl e) =>
      (s1, pushingOut :: EvCall (servicePush cfg newKey newSecret) (inl e) :: pushFailed e,
       inr tt)
  | (s1, inr x) =>
      (s1, [pushingOut; EvCall (servicePush cfg newKey newSecret) (inr x)], inr tt)
  end.
Proof.
  unfold onNewCredentials, push, args; simpl.
  destruct (h (servicePush cfg newKey newSecret) s) as [s1 [e | []]]; reflexivity.
Qed.

(** The callback never throws. *)
Lemma onNewCredentials_completes (newKey newSecret : string) (s : S) :
  outcome (exec h (onNewCredentials args newKey newSecret) s) = inr tt.
Proof.
  rewrite exec_onNewCredentials.
  destruct (h (servicePush cfg newKey newSecret) s) as [s1 [e | x]]; reflexivity.
Qed.

(** A snapshot of at most one key: the whole run. *)
Lemma lambda_run_few (s s1 : S) (fetched : list AccessKeyMetadata) :
  h (listAccessKeys (User.name u)) s = (s1, inr fetched) ->
  List.length fetched <= 1 ->
  exec h (keyRotatorLambda args) s =
  match h (createAccessKey (User.name u)) s1 with
  | (s2, inl e) =>
      (s2, EvCall (listAccessKeys (User.name u)) (inr fetched)
           :: keyListing (sort compareCreateDate fetched)
           ++ [EvCall (createAccessKey (User.name u)) (inl e); unhandled e],
       inr tt)
  | (s2, inr newKey) =>
      match exec h (onNewCredentials args (AccessKey.AccessKeyId newKey)
                      (AccessKey.SecretAccessKey newKey)) s2 with
      | (s3, tr, _) =>
          (s3, EvCall (listAccessKeys (User.name u)) (inr fetched)
               :: keyListing (sort compareCreateDate fetched)
               ++ [EvCall (createAccessKey (User.name u)) (inr newKey);
                   EvLog [Txt ("Created new key key " +++ AccessKey.AccessKeyId newKey)];
                   EvSleep 1000] ++ tr ++ [stepComplete],
           inr tt)
      end
  end.
Proof.
  intros Hlist Hlen. unfold keyRotatorLambda; cbv zeta.
  rewrite exec_rotateIAMUserKeys, exec_rotateSteps.
  replace (user args) with u by reflexivity.
  rewrite Hlist; cbn [fst snd].
  rewrite exec_rotateSorted_few by (rewrite sort_length; exact Hlen).
  destruct (h (createAccessKey (User.name u)) s1) as [s2 [e | newKey]].
  - cbn [app]. rewrite <- app_assoc. reflexivity.
  - pose proof (onNewCredentials_completes (AccessKey.AccessKeyId newKey)
                  (AccessKey.SecretAccessKey newKey) s2) as Hc.
    destruct (exec h (onNewCredentials args (AccessKey.AccessKeyId newKey)
                        (AccessKey.SecretAccessKey newKey)) s2) as [[s3 tr] r].
    unfold outcome in Hc; simpl in Hc; subst r. reflexivity.
Qed.

(** A snapshot of more than two keys: the whole run. *)
Lemma lambda_run_many (s s1 : S) (fetched : list AccessKeyMetadata) :
  h (listAccessKeys (User.name u)) s = (s1, inr fetched) ->
  2 < List.length fetched ->
  exec h (keyRotatorLambda args) s =
  (s1, EvCall (listAccessKeys (User.name u)) (inr fetched)
       :: keyListing (sort compareCreateDate fetched)
       ++ [unhandled (tooManyKeys (List.length fetched))],
   inr tt).
Proof.
  intros Hlist Hlen. unfold keyRotatorLambda; cbv zeta.
  rewrite exec_rotateIAMUserKeys, exec_rotateSteps.
  replace (user args) with u by reflexivity.
  rewrite Hlist; cbn [fst snd].
  rewrite exec_rotateSorted_many by (rewrite sort_length; exact Hlen).
  rewrite sort_length. reflexivity.
Qed.

(** A snapshot of two keys: the whole run. *)
Lemma lambda_run_two (s s1 : S) (fetched : list AccessKeyMetadata)
    (older : AccessKeyMetadata) :
  h (listAccessKeys (User.name u)) s = (s1, inr fetched) ->
  List.length fetched = 2 ->
  nth_error (sort compareCreateDate fetched) 1 = Some older ->
  exec h (keyRotatorLambda args) s =
  match exec h (rotateSorted u (onNewCredentials args) (sort compareCreateDate fetched)) s1 with
  | (s2, tr, inl err) =>
      (s2, EvCall (listAccessKeys (User.name u)) (inr fetched) :: tr ++ [unhandled err], inr tt)
  | (s2, tr, inr a) =>
      (s2, EvCall (listAccessKeys (User.name u)) (inr fetched) :: tr, inr a)
  end.
Proof.
  intros Hlist Hlen Hn. unfold keyRotatorLambda; cbv zeta.
  rewrite exec_rotateIAMUserKeys, exec_rotateSteps.
  replace (user args) with u by reflexivity.
  rewrite Hlist; cbn [fst snd].
  destruct (exec h (rotateSorted u (onNewCredentials args)
                      (sort compareCreateDate fetched)) s1) as [[s2 tr] [err | a]];
    reflexivity.
Qed.
End LambdaRuns.

(** A list of two elements has an element at index 1. *)
Lemma nth_error_second {A : Type} (l : list A) :
  List.length l = 2 -> exists x, nth_error l 1 = Some x.
Proof.
  destruct l as [| a [| b [| c l]]]; simpl; intros H; try discriminate.
  exists b; reflexivity.
Qed.

Ltac read_trace :=
  unfold trace, final, outcome; cbn [fst snd];
  repeat progress
    (cbn [steps stepOf callsWhere logged app isMutation isCreate isUpdate isDelete
          isDistribution orb pushFailed pushingOut stepComplete unhandled];
     rewrite ?steps_app, ?callsWhere_app, ?logged_app,
             ?steps_keyListing, ?callsWhere_keyListing).

(** ** The rotation step, branch by branch *)

(** C2.  On a snapshot of at most one key the run issues exactly one
    mutation, the creation of a key; once the store has answered with the
    new key the run sleeps for the grace period of one second and then hands
    the identifier and the secret of that very key to the distributor, once.
    No other snapshot leads to a creation or to a distribution: a run that
    contains either started from a snapshot of at most one key. *)
Theorem rotate_few_keys_creates_then_distributes :
  (forall (S : Type) (h : Handler S) u rate validate cfg (s s1 : S) fetched,
      h (listAccessKeys (User.name u)) s = (s1, inr fetched) ->
      List.length fetched <= 1 ->
      let run := exec h (keyRotatorLambda (externalArgs u rate validate cfg)) s in
      callsWhere isMutation (trace run) = [createAccessKey (User.name u)]
      /\ forall (s2 : S) newKey,
           h (createAccessKey (User.name u)) s1 = (s2, inr newKey) ->
           steps (trace run) =
             [Called (listAccessKeys (User.name u));
              Called (createAccessKey (User.name u));
              Slept 1000;
              Called (servicePush cfg (AccessKey.AccessKeyId newKey)
                        (AccessKey.SecretAccessKey newKey))])
  /\ (forall (S : Type) (h : Handler S) u rate validate cfg (s : S),
      let run := exec h (keyRotatorLambda (externalArgs u rate validate cfg)) s in
      callsWhere (fun c => isCreate c || isDistribution c) (trace run) <> [] ->
      exists (s1 : S) fetched,
        h (listAccessKeys (User.name u)) s = (s1, inr fetched)
        /\ List.length fetched <= 1).
Proof.
  split.
  - intros S h u rate validate cfg s s1 fetched Hlist Hlen run. subst run.
    rewrite (lambda_run_few h u rate validate cfg s s1 fetched Hlist Hlen).
    destruct (h (createAccessKey (User.name u)) s1) as [s2 [e | newKey]].
    + split; [read_trace; reflexivity |]. intros s2' newKey H; discriminate H.
    + rewrite exec_onNewCredentials.
      destruct (h (servicePush cfg (AccessKey.AccessKeyId newKey)
                     (AccessKey.SecretAccessKey newKey)) s2) as [s3 [e | x]].
      * split; [read_trace; reflexivity |].
        intros s2' newKey' H; inversion H; subst. read_trace; reflexivity.
      * split; [read_trace; reflexivity |].
        intros s2' newKey' H; inversion H; subst. read_trace; reflexivity.
  - intros S h u rate validate cfg s run. subst run.
    destruct (h (listAccessKeys (User.name u)) s) as [s1 [e | fetched]] eqn:Hlist.
    + unfold keyRotatorLambda; cbv zeta.
      rewrite exec_rotateIAMUserKeys, exec_rotateSteps.
      replace (user (externalArgs u rate validate cfg)) with u by reflexivity.
      rewrite Hlist. read_trace. intros H; exfalso; apply H; reflexivity.
    + destruct (le_lt_dec (List.length fetched) 1) as [Hle | Hgt];
        [intros _; exists s1, fetched; split; [reflexivity | exact Hle] |].
      destruct (le_lt_dec (List.length fetched) 2) as [Hle2 | Hgt2].
      * assert (Hlen : List.length fetched = 2) by lia.
        destruct (nth_error_second (sort compareCreateDate fetched)) as [older Hn];
          [rewrite sort_length; exact Hlen |].
        rewrite (lambda_run_two h u rate validate cfg s s1 fetched older Hlist Hlen Hn).
        rewrite (exec_rotateSorted_two h u _ _ older s1) by
          (rewrite ?sort_length; assumption).
        destruct (String.eqb (Status older) "Active");
          [| destruct (String.eqb (Status older) "Inactive")].
        -- destruct (h (updateAccessKey (User.name u) (AccessKeyId older) "Inactive") s1)
             as [s2 [e | x]]; read_trace; intros H; exfalso; apply H; reflexivity.
        -- destruct (h (deleteAccessKey (User.name u) (AccessKeyId older)) s1)
             as [s2 [e | x]]; read_trace; intros H; exfalso; apply H; reflexivity.
        -- read_trace; intros H; exfalso; apply H; reflexivity.
      * rewrite (lambda_run_many h u rate validate cfg s s1 fetched Hlist Hgt2).
        read_trace. intros H; exfalso; apply H; reflexivity.
Qed.

Lemma rotate_few_keys_creates_then_distributes_witness :
  steps (trace (exec simHandler (keyRotatorLambda sampleArgs) (storeOf [] 0))) =
    [Called (listAccessKeys "cicd-bot");
     Called (createAccessKey "cicd-bot");
     Slept 1000;
     Called (servicePush (demoConfiguration "travis-token") "AKIA0" "secret0")]
  /\ exists (s1 : Sim) fetched,
       simHandler (listAccessKeys "cicd-bot") (storeOf [sampleKey 0 "Active" 5] 1)
       = (s1, inr fetched)
       /\ List.length fetched <= 1.
Proof.
  split.
  - apply (proj2 (proj1 rotate_few_keys_creates_then_distributes
                    Sim simHandler cicdUser "rate(1 hour)"%string
                    TravisCIPusher.validateConfiguration (demoConfiguration "travis-token")
                    (storeOf [] 0) (storeOf [] 0) [] eq_refl (Nat.le_0_l 1))
             (fst (simHandler (createAccessKey "cicd-bot") (storeOf [] 0)))
             (AccessKey.Build_t "cicd-bot" "AKIA0" "Active" "secret0" 0)).
    reflexivity.
  - apply (proj2 rotate_few_keys_creates_then_distributes
             Sim simHandler cicdUser "rate(1 hour)"%string
             TravisCIPusher.validateConfiguration (demoConfiguration "travis-token")
             (storeOf [sampleKey 0 "Active" 5] 1)).
    vm_compute. discriminate.
Defined.





(** C5, as the code has it.  On a snapshot of more than two keys, and on a
    snapshot of two keys whose older key is neither Active nor Inactive, the
    exception is caught inside [rotateIAMUserKeys]: the run prints the key
    listing and then "Unhandled exception:" with the exception, and the call
    returns normally to the Lambda. *)
Theorem rotate_fatal_is_caught_and_logged :
  forall (S : Type) (h : Handler S) u cb (s s1 : S) fetched,
    h (listAccessKeys (User.name u)) s = (s1, inr fetched) ->
    let run := exec h (rotateIAMUserKeys u cb) s in
    (2 < List.length fetched ->
       outcome run = inr tt
       /\ trace run =
            EvCall (listAccessKeys (User.name u)) (inr fetched)
            :: keyListing (sort compareCreateDate fetched)
            ++ [unhandled (tooManyKeys (List.length fetched))])
    /\ (forall older,
          List.length fetched = 2 ->
          nth_error (sort compareCreateDate fetched) 1 = Some older ->
          Status older <> "Active"%string -> Status older <> "Inactive"%string ->
          outcome run = inr tt
          /\ trace run =
               EvCall (listAccessKeys (User.name u)) (inr fetched)
               :: keyListing (sort compareCreateDate fetched)
               ++ [unhandled (unexpectedStatus (Status older))]).
Proof.
  intros S h u cb s s1 fetched Hlist run. subst run.
  rewrite exec_rotateIAMUserKeys, exec_rotateSteps, Hlist; cbn [fst snd]. split.
  - intros Hlen.
    rewrite exec_rotateSorted_many by (rewrite sort_length; exact Hlen).
    rewrite sort_length. split; reflexivity.
  - intros older Hlen Hn Ha Hi.
    rewrite (exec_rotateSorted_two h u _ _ older s1) by (rewrite ?sort_length; assumption).
    apply String.eqb_neq in Ha, Hi. rewrite Ha, Hi. split; reflexivity.
Qed.

Lemma rotate_fatal_is_caught_and_logged_witness :
  let threeKeys := [sampleKey 0 "Active" 5; sampleKey 1 "Active" 9; sampleKey 2 "Active" 12] in
  let oddKeys := [sampleKey 0 "Expired" 5; sampleKey 1 "Active" 9] in
  (let run := exec simHandler (rotateIAMUserKeys cicdUser (onNewCredentials sampleArgs))
                (storeOf threeKeys 3) in
   outcome run = inr tt
   /\ trace run =
        EvCall (listAccessKeys "cicd-bot") (inr threeKeys)
        :: keyListing (sort compareCreateDate threeKeys)
        ++ [unhandled (tooManyKeys 3)])
  /\ (let run := exec simHandler (rotateIAMUserKeys cicdUser (onNewCredentials sampleArgs))
                   (storeOf oddKeys 2) in
      outcome run = inr tt
      /\ trace run =
           EvCall (listAccessKeys "cicd-bot") (inr oddKeys)
           :: keyListing (sort compareCreateDate oddKeys)
           ++ [unhandled (unexpectedStatus "Expired")]).
Proof.
  intros threeKeys oddKeys. split.
  - apply (proj1 (rotate_fatal_is_caught_and_logged
                    Sim simHandler cicdUser (onNewCredentials sampleArgs)
                    (storeOf threeKeys 3) (storeOf threeKeys 3) threeKeys eq_refl)).
    unfold threeKeys; simpl; lia.
  - apply (proj2 (rotate_fatal_is_caught_and_logged
                    Sim simHandler cicdUser (onNewCredentials sampleArgs)
                    (storeOf oddKeys 2) (storeOf oddKeys 2) oddKeys eq_refl)
             (sampleKey 0 "Expired" 5) eq_refl eq_refl); simpl; discriminate.
Defined.

(** C5, as the claim has it, fails: with three keys in the store the
    invariant is broken, yet the call of [rotateIAMUserKeys] returns
    normally and no exception reaches its caller. *)
Lemma rotate_fatal_not_surfaced :
  let threeKeys := [sampleKey 0 "Active" 5; sampleKey 1 "Active" 9; sampleKey 2 "Active" 12] in
  let run := exec simHandler (rotateIAMUserKeys cicdUser (onNewCredentials sampleArgs))
               (storeOf threeKeys 3) in
  2 < List.length threeKeys
  /\ outcome run = inr tt
  /\ ~ (exists err, outcome run = inl err).
Proof.
  intros threeKeys run.
  assert (Hrun : outcome run = inr tt) by reflexivity.
  split; [unfold threeKeys; simpl; lia |].
  split; [exact Hrun |].
  intros [err Herr]. rewrite Hrun in Herr. discriminate Herr.
Qed.

(** ** The order the rotation decides on *)

(** Two newest-first lists with the same keys, in the same order, at every
    creation time are the same list: the outcome of a stable sort does not
    depend on how the sort goes about it. *)
Lemma newestFirst_determined (r r' : list AccessKeyMetadata) :
  StronglySorted newestFirst r -> StronglySorted newestFirst r' ->
  (forall t : Z, filter (fun k => (CreateDate k =? t)%Z) r
                 = filter (fun k => (CreateDate k =? t)%Z) r') ->
  r = r'.
Proof.
  revert r'; induction r as [| a r IH]; intros r' Hr Hr' Hsame.
  - destruct r' as [| b r']; [reflexivity |].
    specialize (Hsame (CreateDate b)). cbn [filter] in Hsame.
    rewrite Z.eqb_refl in Hsame. discriminate Hsame.
  - destruct r' as [| b r'].
    + specialize (Hsame (CreateDate a)). cbn [filter] in Hsame.
      rewrite Z.eqb_refl in Hsame. discriminate Hsame.
    + inversion Hr as [| ? ? Hr1 Ha]; subst. inversion Hr' as [| ? ? Hr1' Hb]; subst.
      assert (Hba : (CreateDate b <= CreateDate a)%Z).
      { pose proof (Hsame (CreateDate b)) as H. cbn [filter] in H.
        rewrite (Z.eqb_refl (CreateDate b)) in H.
        assert (Hin : In b (if (CreateDate a =? CreateDate b)%Z
                            then a :: filter (fun k => (CreateDate k =? CreateDate b)%Z) r
                            else filter (fun k => (CreateDate k =? CreateDate b)%Z) r))
          by (rewrite H; left; reflexivity).
        destruct (Z.eqb_spec (CreateDate a) (CreateDate b)) as [E | E]; [lia |].
        apply filter_In in Hin. rewrite Forall_forall in Ha. apply (Ha b), Hin. }
      assert (Hab : (CreateDate a <= CreateDate b)%Z).
      { pose proof (Hsame (CreateDate a)) as H. cbn [filter] in H.
        rewrite (Z.eqb_refl (CreateDate a)) in H.
        assert (Hin : In a (if (CreateDate b =? CreateDate a)%Z
                            then b :: filter (fun k => (CreateDate k =? CreateDate a)%Z) r'
                            else filter (fun k => (CreateDate k =? CreateDate a)%Z) r'))
          by (rewrite <- H; left; reflexivity).
        destruct (Z.eqb_spec (CreateDate b) (CreateDate a)) as [E | E]; [lia |].
        apply filter_In in Hin. rewrite Forall_forall in Hb. apply (Hb a), Hin. }
      assert (Hd : CreateDate a = CreateDate b) by lia.
      pose proof (Hsame (CreateDate a)) as Hhead. cbn [filter] in Hhead.
      rewrite Z.eqb_refl, <- Hd, Z.eqb_refl in Hhead. injection Hhead as Heq Htail.
      subst b. f_equal. apply IH; [exact Hr1 | exact Hr1' |].
      intros t. destruct (Z.eq_dec t (CreateDate a)) as [-> | Hne]; [exact Htail |].
      specialize (Hsame t). cbn [filter] in Hsame.
      destruct (Z.eqb_spec (CreateDate a) t) as [E | E]; [congruence | exact Hsame].
Qed.

(** ** The sort of Node.js 10

    With the comparison function of the rotation, [InnerArraySort] returns
    a permutation of the array in descending order of creation time
    ([InnerArraySort_perm], [InnerArraySort_newestFirst]), and for up to 10
    keys the list the stable [sort] returns ([InnerArraySort_few]).  The
    way there: the cells of an array, the insertion sort on a range, the
    partition loop with its invariant [partitioned], the placing of the
    pivot, and [QuickSort] by induction on its fuel. *)

Section CellFacts.
Context {A : Type} (d : A).

Lemma assign_length (a : list A) (i : nat) (v : A) :
  List.length (assign a i v) = List.length a.
Proof.
  revert i; induction a as [| x a IH]; intros [| i]; simpl; try reflexivity.
  rewrite IH; reflexivity.
Qed.

Lemma elem_assign (a : list A) (i j : nat) (v : A) :
  i < List.length a ->
  elem d (assign a i v) j = if i =? j then v else elem d a j.
Proof.
  unfold elem. revert i j; induction a as [| x a IH]; intros i j Hi; [simpl in Hi; lia |].
  destruct i as [| i], j as [| j]; simpl; try reflexivity.
  apply IH. simpl in Hi; lia.
Qed.

Lemma elem_In (a : list A) (i : nat) : i < List.length a -> In (elem d a i) a.
Proof. intros Hi. apply nth_In, Hi. Qed.

Lemma elem_behind (p : list A) (x : A) (rest : list A) (n : nat) :
  n = List.length p -> elem d (p ++ x :: rest) n = x.
Proof.
  intros ->. unfold elem. induction p as [| y p IH]; simpl; [reflexivity | exact IH].
Qed.

Lemma assign_behind (p : list A) (y v : A) (rest : list A) (n : nat) :
  n = List.length p -> assign (p ++ y :: rest) n v = p ++ v :: rest.
Proof.
  intros ->. induction p as [| z p IH]; simpl; [reflexivity | rewrite IH; reflexivity].
Qed.

(** An array is its front, a range and what is behind the range. *)
Lemma array_parts (a : list A) (from to : nat) :
  from <= to ->
  a = firstn from a ++ firstn (to - from) (skipn from a) ++ skipn to a.
Proof.
  intros Hft.
  rewrite <- (firstn_skipn from a) at 1. f_equal.
  rewrite <- (firstn_skipn (to - from) (skipn from a)) at 1. f_equal.
  rewrite skipn_skipn. f_equal. lia.
Qed.

Lemma elem_in_range (a : list A) (from to k : nat) :
  from + k < to -> 
  nth k (firstn (to - from) (skipn from a)) d = elem d a (from + k).
Proof.
  intros Hk. unfold elem.
  rewrite nth_firstn.
  destruct (Nat.ltb_spec k (to - from)) as [_ | H]; [| lia].
  rewrite nth_skipn. reflexivity.
Qed.
End CellFacts.

Section CountFacts.
Context {A : Type} (dec : forall x y : A, {x = y} + {x <> y}) (d : A).

Lemma count_assign (a : list A) (i : nat) (v x : A) :
  i < List.length a ->
  count_occ dec (assign a i v) x + (if dec (elem d a i) x then 1 else 0)
  = count_occ dec a x + (if dec v x then 1 else 0).
Proof.
  unfold elem. revert i; induction a as [| y a IH]; intros i Hi; [simpl in Hi; lia |].
  destruct i as [| i]; cbn [assign count_occ nth].
  - destruct (dec y x), (dec v x); lia.
  - specialize (IH i ltac:(simpl in Hi; lia)).
    destruct (dec y x); lia.
Qed.

Lemma rearranged_refl (from to : nat) (a : list A) : rearranged dec d from to a a.
Proof. repeat split. Qed.

Lemma rearranged_trans (from to : nat) (a b c : list A) :
  rearranged dec d from to a b -> rearranged dec d from to b c ->
  rearranged dec d from to a c.
Proof.
  intros [Hl1 [Hc1 Hf1]] [Hl2 [Hc2 Hf2]]. split; [congruence |]. split.
  - intros x. rewrite Hc2. apply Hc1.
  - intros k Hk. rewrite Hf2 by exact Hk. apply Hf1, Hk.
Qed.

Lemma rearranged_widen (from to from' to' : nat) (a b : list A) :
  from' <= from -> to <= to' ->
  rearranged dec d from to a b -> rearranged dec d from' to' a b.
Proof.
  intros Hf Ht [Hl [Hc Hfr]]. split; [exact Hl |]. split; [exact Hc |].
  intros k Hk. apply Hfr. lia.
Qed.

(** Two cells of the range change places. *)
Lemma rearranged_swap (from to : nat) (a : list A) (i j : nat) :
  from <= i < to -> from <= j < to -> to <= List.length a ->
  rearranged dec d from to a (assign (assign a i (elem d a j)) j (elem d a i)).
Proof.
  intros Hi Hj Hto. split; [rewrite !assign_length; reflexivity |]. split.
  - intros x.
    pose proof (count_assign a i (elem d a j) x ltac:(lia)) as H1.
    pose proof (count_assign (assign a i (elem d a j)) j (elem d a i) x
                  ltac:(rewrite assign_length; lia)) as H2.
    rewrite elem_assign in H2 by lia.
    destruct (Nat.eqb_spec i j) as [-> | Hne]; lia.
  - intros k Hk. rewrite !elem_assign by (rewrite ?assign_length; lia).
    destruct (Nat.eqb_spec j k); [lia |]. destruct (Nat.eqb_spec i k); [lia |].
    reflexivity.
Qed.

Lemma elem_swap (a : list A) (i j k : nat) :
  i < List.length a -> j < List.length a ->
  elem d (assign (assign a i (elem d a j)) j (elem d a i)) k
  = if j =? k then elem d a i else if i =? k then elem d a j else elem d a k.
Proof.
  intros Hi Hj. rewrite !elem_assign by (rewrite ?assign_length; lia). reflexivity.
Qed.

(** The range holds the same elements before and after. *)
Lemma rearranged_range (from to : nat) (a a' : list A) :
  from <= to -> to <= List.length a ->
  rearranged dec d from to a a' ->
  firstn from a' = firstn from a
  /\ skipn to a' = skipn to a
  /\ Permutation (firstn (to - from) (skipn from a)) (firstn (to - from) (skipn from a')).
Proof.
  intros Hft Hto [Hl [Hc Hfr]].
  assert (Hfront : firstn from a' = firstn from a).
  { apply (nth_ext _ _ d d); [rewrite !length_firstn; lia |].
    intros n Hn. rewrite length_firstn in Hn.
    rewrite !nth_firstn. destruct (n <? from) eqn:E; [| reflexivity].
    apply Nat.ltb_lt in E. apply (Hfr n). lia. }
  assert (Hback : skipn to a' = skipn to a).
  { apply (nth_ext _ _ d d); [rewrite !length_skipn; lia |].
    intros n Hn. rewrite !nth_skipn. apply (Hfr (to + n)). lia. }
  split; [exact Hfront |]. split; [exact Hback |].
  assert (Hp : Permutation a a').
  { apply (Permutation_count_occ dec). intros x. symmetry. apply Hc. }
  rewrite (array_parts a from to Hft) in Hp.
  rewrite (array_parts a' from to Hft) in Hp.
  rewrite Hfront, Hback in Hp.
  apply Permutation_app_inv_l in Hp. apply Permutation_app_inv_r in Hp. exact Hp.
Qed.

(** What holds of every cell of the range holds of every cell of the
    rearranged range. *)
Lemma rearranged_keeps (from to : nat) (a a' : list A) (P : A -> Prop) :
  from <= to -> to <= List.length a ->
  rearranged dec d from to a a' ->
  (forall k, from <= k < to -> P (elem d a k)) ->
  forall k, from <= k < to -> P (elem d a' k).
Proof.
  intros Hft Hto Hr HP k Hk.
  destruct (rearranged_range from to a a' Hft Hto Hr) as [_ [_ Hp]].
  replace k with (from + (k - from)) by lia.
  rewrite <- (elem_in_range d a' from to) by lia.
  assert (Hin : In (nth (k - from) (firstn (to - from) (skipn from a')) d)
                  (firstn (to - from) (skipn from a))).
  { eapply Permutation_in; [symmetry; exact Hp |].
    apply nth_In. rewrite length_firstn, length_skipn.
    destruct Hr as [Hl _]. lia. }
  apply (In_nth _ _ d) in Hin. destruct Hin as [n [Hn Heq]].
  rewrite length_firstn, length_skipn in Hn.
  rewrite <- Heq, elem_in_range by lia. apply HP. lia.
Qed.
End CountFacts.

Section InsertionFacts.
Context {A : Type} (cmp : A -> A -> Z) (d : A).

Lemma passAbove_length (x : A) (q : list A) :
  List.length (passAbove cmp x q) = S (List.length q).
Proof.
  induction q as [| tmp q IH]; simpl; [reflexivity |].
  destruct (cmp tmp x >? 0)%Z; simpl; [rewrite IH |]; reflexivity.
Qed.

Lemma passAbove_perm (x : A) (q : list A) : Permutation (x :: q) (passAbove cmp x q).
Proof.
  induction q as [| tmp q IH]; cbn [passAbove]; [apply Permutation_refl |].
  destruct (cmp tmp x >? 0)%Z; [| apply Permutation_refl].
  eapply perm_trans; [apply perm_swap |]. apply perm_skip, IH.
Qed.

Lemma insertion_rounds_perm (l q : list A) :
  Permutation (q ++ l) (fold_left (fun front x => passAbove cmp x front) l q).
Proof.
  revert q; induction l as [| x l IH]; intros q; cbn [fold_left].
  - rewrite app_nil_r. apply Permutation_refl.
  - eapply perm_trans; [| apply IH].
    eapply perm_trans; [apply Permutation_sym, Permutation_middle |].
    apply (Permutation_app_tail l (passAbove_perm x q)).
Qed.

Lemma insertionInner_range (pre q : list A) (y : A) (rest : list A) (x : A) :
  insertionInner cmp d (List.length q) (pre ++ rev q ++ y :: rest) (List.length pre) x
  = pre ++ rev (passAbove cmp x q) ++ rest.
Proof.
  revert y rest; induction q as [| tmp q IH]; intros y rest.
  - cbn [List.length insertionInner rev passAbove app].
    apply assign_behind. reflexivity.
  - cbn [List.length insertionInner passAbove rev].
    replace (pre ++ (rev q ++ [tmp]) ++ y :: rest)
      with ((pre ++ rev q) ++ tmp :: y :: rest)
      by (rewrite <- !app_assoc; reflexivity).
    rewrite (elem_behind d (pre ++ rev q))
      by (rewrite length_app, length_rev; reflexivity).
    replace ((pre ++ rev q) ++ tmp :: y :: rest)
      with ((pre ++ rev q ++ [tmp]) ++ y :: rest)
      by (rewrite <- !app_assoc; reflexivity).
    rewrite !assign_behind by (rewrite !length_app, length_rev; simpl; lia).
    destruct (cmp tmp x >? 0)%Z.
    + replace ((pre ++ rev q ++ [tmp]) ++ tmp :: rest)
        with (pre ++ rev q ++ tmp :: tmp :: rest)
        by (rewrite <- !app_assoc; reflexivity).
      rewrite IH. cbn [rev]. rewrite <- !app_assoc. reflexivity.
    + cbn [rev]. rewrite <- !app_assoc. reflexivity.
Qed.

Lemma insertionOuter_range (pre mid q suf : list A) :
  insertionOuter cmp d (List.length mid) (pre ++ rev q ++ mid ++ suf)
    (List.length pre) (List.length pre + List.length q)
  = pre ++ rev (fold_left (fun front x => passAbove cmp x front) mid q) ++ suf.
Proof.
  revert q; induction mid as [| x mid IH]; intros q; [reflexivity |].
  cbn [List.length insertionOuter fold_left app].
  replace (pre ++ rev q ++ x :: mid ++ suf) with ((pre ++ rev q) ++ x :: mid ++ suf)
    by (rewrite <- app_assoc; reflexivity).
  rewrite (elem_behind d (pre ++ rev q)) by (rewrite length_app, length_rev; reflexivity).
  rewrite <- app_assoc.
  replace (List.length pre + List.length q - List.length pre) with (List.length q) by lia.
  rewrite insertionInner_range.
  replace (List.length pre + List.length q + 1)
    with (List.length pre + List.length (passAbove cmp x q))
    by (rewrite passAbove_length; lia).
  apply IH.
Qed.

(** [InsertionSort] on a range: the range goes through the rounds, the
    rest of the array stays. *)
Lemma InsertionSort_range (pre mid suf : list A) :
  InsertionSort cmp d (pre ++ mid ++ suf) (List.length pre)
    (List.length pre + List.length mid)
  = pre ++ rev (fold_left (fun front x => passAbove cmp x front) mid []) ++ suf.
Proof.
  destruct mid as [| x mid].
  - unfold InsertionSort.
    replace (List.length pre + List.length (@nil A) - (List.length pre + 1)) with 0
      by (simpl; lia).
    reflexivity.
  - unfold InsertionSort. cbn [List.length fold_left passAbove].
    replace (List.length pre + S (List.length mid) - (List.length pre + 1))
      with (List.length mid) by lia.
    apply (insertionOuter_range pre mid [x] suf).
Qed.

Lemma InsertionSort_parts (a : list A) (from to : nat) :
  from <= to -> to <= List.length a ->
  InsertionSort cmp d a from to
  = firstn from a
    ++ rev (fold_left (fun front x => passAbove cmp x front)
              (firstn (to - from) (skipn from a)) [])
    ++ skipn to a.
Proof.
  intros Hft Hto.
  pose proof (InsertionSort_range (firstn from a) (firstn (to - from) (skipn from a))
                (skipn to a)) as H.
  rewrite <- (array_parts a from to Hft) in H.
  rewrite !length_firstn, length_skipn in H.
  replace (Nat.min from (List.length a)) with from in H by lia.
  replace (from + Nat.min (to - from) (List.length a - from)) with to in H by lia.
  exact H.
Qed.
End InsertionFacts.

Section RangeFacts.
Context {A : Type} (dec : forall x y : A, {x = y} + {x <> y}) (d : A).

Lemma rearranged_parts (pre mid mid' suf : list A) :
  Permutation mid mid' ->
  rearranged dec d (List.length pre) (List.length pre + List.length mid)
    (pre ++ mid ++ suf) (pre ++ mid' ++ suf).
Proof.
  intros Hp. pose proof (Permutation_length Hp) as Hlen.
  split; [rewrite !length_app; lia |]. split.
  - intros x. rewrite !count_occ_app.
    rewrite (proj1 (Permutation_count_occ dec mid mid') Hp x). reflexivity.
  - intros k [Hk | Hk]; unfold elem.
    + rewrite !app_nth1 by lia. reflexivity.
    + rewrite !(app_nth2 pre) by lia. rewrite !app_nth2 by lia.
      rewrite Hlen. reflexivity.
Qed.

Lemma InsertionSort_rearranged (cmp : A -> A -> Z) (a : list A) (from to : nat) :
  from <= to -> to <= List.length a ->
  rearranged dec d from to a (InsertionSort cmp d a from to).
Proof.
  intros Hft Hto. rewrite InsertionSort_parts by assumption.
  pose proof (rearranged_parts (firstn from a) (firstn (to - from) (skipn from a))
                (rev (fold_left (fun front x => passAbove cmp x front)
                        (firstn (to - from) (skipn from a)) []))
                (skipn to a)) as H.
  rewrite <- (array_parts a from to Hft) in H.
  rewrite !length_firstn, length_skipn in H.
  replace (Nat.min from (List.length a)) with from in H by lia.
  replace (from + Nat.min (to - from) (List.length a - from)) with to in H by lia.
  apply H.
  eapply perm_trans; [| apply Permutation_rev].
  apply (insertion_rounds_perm cmp (firstn (to - from) (skipn from a)) []).
Qed.
End RangeFacts.

Lemma compareCreateDate_gt (a b : AccessKeyMetadata) :
  (compareCreateDate a b >? 0)%Z = (CreateDate a <? CreateDate b)%Z.
Proof.
  unfold compareCreateDate; cbv zeta.
  destruct (Z.gtb_spec (CreateDate a) (CreateDate b)) as [Hgt | Hle].
  - symmetry. simpl. apply Z.ltb_ge. lia.
  - destruct (Z.ltb_spec (CreateDate a) (CreateDate b)) as [Hlt | Hge]; reflexivity.
Qed.

Lemma compareCreateDate_lt (a b : AccessKeyMetadata) :
  (compareCreateDate a b <? 0)%Z = (CreateDate b <? CreateDate a)%Z.
Proof.
  unfold compareCreateDate; cbv zeta.
  destruct (Z.gtb_spec (CreateDate a) (CreateDate b)) as [Hgt | Hle].
  - symmetry. simpl. apply Z.ltb_lt. lia.
  - destruct (Z.ltb_spec (CreateDate a) (CreateDate b)) as [Hlt | Hge]; simpl;
      symmetry; apply Z.ltb_ge; lia.
Qed.

Lemma compareCreateDate_ge (a b : AccessKeyMetadata) :
  (compareCreateDate a b >=? 0)%Z = (CreateDate a <=? CreateDate b)%Z.
Proof.
  unfold compareCreateDate; cbv zeta.
  destruct (Z.gtb_spec (CreateDate a) (CreateDate b)) as [Hgt | Hle].
  - symmetry. simpl. apply Z.leb_gt. lia.
  - destruct (Z.ltb_spec (CreateDate a) (CreateDate b)) as [Hlt | Hge]; simpl;
      symmetry; apply Z.leb_le; lia.
Qed.

Lemma passAbove_keys (x : AccessKeyMetadata) (q : list AccessKeyMetadata)
    (P : AccessKeyMetadata -> Prop) :
  P x -> Forall P q -> Forall P (passAbove compareCreateDate x q).
Proof.
  intros Hx Hq. induction Hq as [| tmp q Ht Hq IH]; cbn [passAbove].
  - constructor; [exact Hx | constructor].
  - destruct (compareCreateDate tmp x >? 0)%Z.
    + constructor; [exact Ht | exact IH].
    + constructor; [exact Hx |]. constructor; [exact Ht | exact Hq].
Qed.

Lemma passAbove_oldestFirst (x : AccessKeyMetadata) (q : list AccessKeyMetadata) :
  StronglySorted (fun a b => newestFirst b a) q ->
  StronglySorted (fun a b => newestFirst b a) (passAbove compareCreateDate x q).
Proof.
  induction q as [| tmp q IH]; intros Hs; cbn [passAbove].
  - constructor; constructor.
  - inversion Hs as [| ? ? Hq Ht]; subst.
    rewrite compareCreateDate_gt.
    destruct (Z.ltb_spec (CreateDate tmp) (CreateDate x)) as [Hlt | Hge].
    + constructor; [apply IH, Hq |].
      apply passAbove_keys; [unfold newestFirst; lia | exact Ht].
    + constructor; [exact Hs |].
      constructor; [unfold newestFirst; lia |].
      eapply Forall_impl; [| exact Ht]. unfold newestFirst; intros z Hz; lia.
Qed.

Lemma insertion_rounds_oldestFirst (l q : list AccessKeyMetadata) :
  StronglySorted (fun a b => newestFirst b a) q ->
  StronglySorted (fun a b => newestFirst b a)
    (fold_left (fun front x => passAbove compareCreateDate x front) l q).
Proof.
  revert q; induction l as [| x l IH]; intros q Hq; [exact Hq |].
  cbn [fold_left]. apply IH, passAbove_oldestFirst, Hq.
Qed.

Lemma newestFirst_behind (l : list AccessKeyMetadata) (x : AccessKeyMetadata) :
  StronglySorted newestFirst l -> Forall (fun k => newestFirst k x) l ->
  StronglySorted newestFirst (l ++ [x]).
Proof.
  intros Hs Hx. induction Hs as [| a l Hl IH Ha]; cbn [app].
  - constructor; constructor.
  - inversion Hx as [| ? ? Hax Hlx]; subst.
    constructor; [apply IH, Hlx |].
    apply Forall_app; split; [exact Ha | constructor; [exact Hax | constructor]].
Qed.

Lemma oldestFirst_rev (q : list AccessKeyMetadata) :
  StronglySorted (fun a b => newestFirst b a) q -> StronglySorted newestFirst (rev q).
Proof.
  intros Hs. induction Hs as [| a q Hq IH Ha]; cbn [rev]; [constructor |].
  apply newestFirst_behind; [exact IH |].
  apply Forall_rev. exact Ha.
Qed.

(** A list in descending order, read by index, and back. *)
Lemma newestFirst_by_index (d : AccessKeyMetadata) (l : list AccessKeyMetadata) :
  StronglySorted newestFirst l <-> sortedOn d 0 (List.length l) l.
Proof.
  unfold sortedOn, elem. split.
  - intros Hs. induction Hs as [| a l Hl IH Ha]; intros i j _ Hij Hj; [simpl in Hj; lia |].
    destruct j as [| j]; [replace i with 0 by lia; unfold newestFirst; simpl; lia |].
    destruct i as [| i]; cbn [nth].
    + rewrite Forall_forall in Ha. apply Ha, nth_In. simpl in Hj; lia.
    + apply IH; [lia | lia | simpl in Hj; lia].
  - induction l as [| a l IH]; intros H; [constructor |].
    constructor.
    + apply IH. intros i j _ Hij Hj.
      apply (H (S i) (S j)); [lia | lia | simpl; lia].
    + apply Forall_forall. intros x Hx.
      apply (In_nth _ _ d) in Hx. destruct Hx as [n [Hn <-]].
      apply (H 0 (S n)); [lia | lia | simpl; lia].
Qed.

Lemma InsertionSort_sortedOn (d : AccessKeyMetadata) (a : list AccessKeyMetadata)
    (from to : nat) :
  from <= to -> to <= List.length a ->
  sortedOn d from to (InsertionSort compareCreateDate d a from to).
Proof.
  intros Hft Hto. rewrite InsertionSort_parts by assumption.
  set (mid' := rev (fold_left (fun front x => passAbove compareCreateDate x front)
                      (firstn (to - from) (skipn from a)) [])).
  assert (Hs : StronglySorted newestFirst mid')
    by (apply oldestFirst_rev, insertion_rounds_oldestFirst; constructor).
  assert (Hlen : List.length mid' = to - from).
  { unfold mid'. rewrite length_rev.
    rewrite <- (Permutation_length
                  (insertion_rounds_perm compareCreateDate
                     (firstn (to - from) (skipn from a)) [])).
    cbn [app]. rewrite length_firstn, length_skipn. lia. }
  apply (newestFirst_by_index d) in Hs.
  intros i j Hi Hij Hj. unfold elem.
  rewrite !(app_nth2 (firstn from a)) by (rewrite length_firstn; lia).
  rewrite length_firstn. replace (Nat.min from (List.length a)) with from by lia.
  rewrite !app_nth1 by lia.
  apply Hs; lia.
Qed.

Lemma passAbove_same_date (t : Z) (x : AccessKeyMetadata) (q : list AccessKeyMetadata) :
  filter (fun k => (CreateDate k =? t)%Z) (passAbove compareCreateDate x q)
  = filter (fun k => (CreateDate k =? t)%Z) [x]
    ++ filter (fun k => (CreateDate k =? t)%Z) q.
Proof.
  induction q as [| tmp q IH]; [cbn [passAbove filter]; rewrite app_nil_r; reflexivity |].
  cbn [passAbove]. rewrite compareCreateDate_gt.
  destruct (Z.ltb_spec (CreateDate tmp) (CreateDate x)) as [Hlt | Hge].
  - cbn [filter] in *. rewrite IH.
    destruct (Z.eqb_spec (CreateDate x) t) as [Hx | Hx];
      destruct (Z.eqb_spec (CreateDate tmp) t) as [Ht | Ht]; try reflexivity.
    lia.
  - cbn [filter]. destruct (CreateDate x =? t)%Z; reflexivity.
Qed.

Lemma insertion_rounds_same_date (t : Z) (l q : list AccessKeyMetadata) :
  filter (fun k => (CreateDate k =? t)%Z)
    (fold_left (fun front x => passAbove compareCreateDate x front) l q)
  = rev (filter (fun k => (CreateDate k =? t)%Z) l)
    ++ filter (fun k => (CreateDate k =? t)%Z) q.
Proof.
  revert q; induction l as [| x l IH]; intros q; [reflexivity |].
  cbn [fold_left]. rewrite IH, passAbove_same_date. cbn [filter].
  destruct (CreateDate x =? t)%Z; cbn [rev app]; [| reflexivity].
  rewrite <- app_assoc. reflexivity.
Qed.

Section PartitionFacts.
Context {A : Type} (dec : forall x y : A, {x = y} + {x <> y}).
Context (cmp : A -> A -> Z) (d : A) (pivot : A).
Context (Lo Mid Hi : A -> Prop).
Hypothesis HLo : forall x, (cmp x pivot <? 0)%Z = true -> Lo x.
Hypothesis HMid : forall x, (cmp x pivot <? 0)%Z = false -> (cmp x pivot >? 0)%Z = false ->
                            Mid x.
Hypothesis HHi : forall x, (cmp x pivot >? 0)%Z = true -> Hi x.

Lemma scanDown_spec (count : nat) (a : list A) (i high_start : nat) :
  i < high_start -> high_start - i <= count ->
  i <= fst (scanDown cmp d count a pivot i high_start) < high_start
  /\ (forall k, fst (scanDown cmp d count a pivot i high_start) < k < high_start ->
                Hi (elem d a k))
  /\ match snd (scanDown cmp d count a pivot i high_start) with
     | None => fst (scanDown cmp d count a pivot i high_start) = i
     | Some order =>
         i < fst (scanDown cmp d count a pivot i high_start)
         /\ order = cmp (elem d a (fst (scanDown cmp d count a pivot i high_start))) pivot
         /\ (order >? 0)%Z = false
     end.
Proof.
  revert high_start; induction count as [| count IH]; intros hs Hi' Hc; [lia |].
  cbn [scanDown].
  destruct (Nat.eqb_spec (hs - 1) i) as [He | Hne].
  - cbn [fst snd]. split; [lia |]. split; [intros k Hk; lia | exact He].
  - destruct (cmp (elem d a (hs - 1)) pivot >? 0)%Z eqn:Ho.
    + destruct (IH (hs - 1) ltac:(lia) ltac:(lia)) as [Hb [Hhi Hres]].
      split; [lia |]. split; [| exact Hres].
      intros k Hk. destruct (Nat.eq_dec k (hs - 1)) as [-> | Hk'].
      * apply HHi, Ho.
      * apply Hhi. lia.
    + cbn [fst snd]. split; [lia |]. split; [intros k Hk; lia |].
      split; [lia |]. split; [reflexivity | exact Ho].
Qed.

Ltac cells :=
  repeat first
    [ rewrite elem_swap by lia
    | match goal with
      | |- context [Nat.eqb ?x ?y] => destruct (Nat.eqb_spec x y); subst
      end ].

Lemma partition_spec (from to : nat) (a0 : list A) (count : nat) :
  forall (a : list A) (low_end i high_start : nat),
    high_start - i <= count ->
    partitioned dec d Lo Mid Hi from to a0 a low_end i high_start ->
    exists a' low_end' high_start',
      partition cmp d count a pivot low_end i high_start = (a', low_end', high_start')
      /\ partitioned dec d Lo Mid Hi from to a0 a' low_end' high_start' high_start'.
Proof.
  induction count as [| count IH]; intros a le i hs Hc Hinv.
  - exists a, le, hs. split; [reflexivity |].
    destruct Hinv as [Hr [H1 [H2 [H3 [H4 [H5 [Hlo [Hmid Hhi]]]]]]]].
    replace hs with i by lia.
    repeat split; try assumption; try lia; try apply Hr.
    intros k Hk. apply Hhi. lia.
  - destruct Hinv as [Hr [H1 [H2 [H3 [H4 [H5 [Hlo [Hmid Hhi]]]]]]]].
    assert (Hlen : List.length a = List.length a0) by apply Hr.
    cbn [partition].
    destruct (Nat.ltb_spec i hs) as [Hlt | Hge].
    2:{ exists a, le, hs. split; [reflexivity |].
        replace hs with i in * by lia.
        repeat split; try assumption; try lia; try apply Hr. }
    destruct (cmp (elem d a i) pivot <? 0)%Z eqn:Hneg.
    + (* the element goes to the front part *)
      apply IH; [lia |].
      split.
      { eapply rearranged_trans; [exact Hr |].
        apply rearranged_swap; lia. }
      repeat split; try lia; intros k Hk; cells; try lia;
        first [apply HLo; assumption | apply Hlo; lia | apply Hmid; lia | apply Hhi; lia].
    + destruct (cmp (elem d a i) pivot >? 0)%Z eqn:Hpos.
      * (* the element goes to the back part *)
        destruct (scanDown_spec (hs - i) a i hs Hlt (Nat.le_refl _)) as [Hb [Hscan Hres]].
        destruct (scanDown cmp d (hs - i) a pivot i hs) as [hs' [order |]];
          cbn [fst snd] in *.
        -- destruct Hres as [Hi' [Horder Hnpos]].
           assert (Hr1 : rearranged dec d from to a0
                           (assign (assign a i (elem d a hs')) hs' (elem d a i))).
           { eapply rearranged_trans; [exact Hr |]. apply rearranged_swap; lia. }
           assert (Hlen1 : List.length (assign (assign a i (elem d a hs')) hs' (elem d a i))
                           = List.length a0) by apply Hr1.
           assert (Hback : forall k, hs' <= k < to ->
                             Hi (elem d (assign (assign a i (elem d a hs')) hs'
                                           (elem d a i)) k)).
           { intros k Hk. cells; try lia.
             - apply HHi, Hpos.
             - destruct (Nat.lt_ge_cases k hs) as [Hk' | Hk'];
                 [apply Hscan; lia | apply Hhi; lia]. }
           destruct (order <? 0)%Z eqn:Hneg'; subst order.
           ++ apply IH; [lia |].
              split.
              { eapply rearranged_trans; [exact Hr1 |]. apply rearranged_swap; lia. }
              repeat split; try lia; intros k Hk.
              ** cells; try lia;
                   first [apply HLo; assumption | apply Hlo; lia].
              ** cells; try lia; apply Hmid; lia.
              ** rewrite (elem_swap d _ i le k) by lia.
                 destruct (Nat.eqb_spec le k); [lia |].
                 destruct (Nat.eqb_spec i k); [lia |].
                 apply Hback, Hk.
           ++ apply IH; [lia |].
              split; [exact Hr1 |].
              repeat split; try lia; try exact Hback; intros k Hk; cells; try lia;
                first [apply HMid; assumption | apply Hlo; lia | apply Hmid; lia].
        -- subst hs'. exists a, le, i. split; [reflexivity |].
           split; [exact Hr |]. repeat split; try lia; try assumption.
           intros k Hk. destruct (Nat.eq_dec k i) as [-> | Hki]; [apply HHi, Hpos |].
           destruct (Nat.lt_ge_cases k hs) as [Hk' | Hk'];
             [apply Hscan; lia | apply Hhi; lia].
      * (* the element compares equal to the pivot *)
        apply IH; [lia |].
        split; [exact Hr |]. repeat split; try lia; try assumption.
        intros k Hk. destruct (Nat.eq_dec k i) as [-> | Hki].
        -- apply HMid; assumption.
        -- apply Hmid. lia.
Qed.
End PartitionFacts.

Section PivotFacts.
Context {A : Type} (dec : forall x y : A, {x = y} + {x <> y}).
Context (cmp : A -> A -> Z) (d : A).

(** [orderThree] returns its three arguments. *)
Lemma orderThree_count (x y z v0 v1 v2 t : A) :
  orderThree cmp x y z = (v0, v1, v2) ->
  (if dec v0 t then 1 else 0) + (if dec v1 t then 1 else 0) + (if dec v2 t then 1 else 0)
  = (if dec x t then 1 else 0) + (if dec y t then 1 else 0) + (if dec z t then 1 else 0).
Proof.
  unfold orderThree; cbv zeta.
  destruct (cmp x y >? 0)%Z.
  - destruct (cmp y z >=? 0)%Z; [intros [= <- <- <-]; lia |].
    destruct (cmp x z >? 0)%Z; intros [= <- <- <-]; lia.
  - destruct (cmp x z >=? 0)%Z; [intros [= <- <- <-]; lia |].
    destruct (cmp y z >? 0)%Z; intros [= <- <- <-]; lia.
Qed.

Lemma placePivot_spec (a : list A) (from to third_index : nat) :
  from + 2 < to -> to <= List.length a -> from < third_index < to - 1 ->
  exists v0 v2,
    orderThree cmp (elem d a from) (elem d a (to - 1)) (elem d a third_index)
    = (v0, snd (placePivot cmp d a from to third_index), v2)
    /\ rearranged dec d from to a (fst (placePivot cmp d a from to third_index))
    /\ elem d (fst (placePivot cmp d a from to third_index)) from = v0
    /\ elem d (fst (placePivot cmp d a from to third_index)) (from + 1)
       = snd (placePivot cmp d a from to third_index)
    /\ elem d (fst (placePivot cmp d a from to third_index)) (to - 1) = v2.
Proof.
  intros Hft Hto Hthird. unfold placePivot; cbv zeta.
  destruct (orderThree cmp (elem d a from) (elem d a (to - 1)) (elem d a third_index))
    as [[v0 v1] v2] eqn:Hthree.
  cbn [fst snd]. exists v0, v2. split; [reflexivity |].
  set (a1 := assign a from v0).
  set (a2 := assign a1 (to - 1) v2).
  set (a3 := assign a2 third_index (elem d a2 (from + 1))).
  set (a4 := assign a3 (from + 1) v1).
  assert (L1 : List.length a1 = List.length a) by apply assign_length.
  assert (L2 : List.length a2 = List.length a)
    by (unfold a2; rewrite assign_length; exact L1).
  assert (L3 : List.length a3 = List.length a)
    by (unfold a3; rewrite assign_length; exact L2).
  assert (L4 : List.length a4 = List.length a)
    by (unfold a4; rewrite assign_length; exact L3).
  assert (E1 : forall k, elem d a1 k = if from =? k then v0 else elem d a k)
    by (intros k; apply elem_assign; lia).
  assert (E2 : forall k, elem d a2 k = if to - 1 =? k then v2 else elem d a1 k)
    by (intros k; apply elem_assign; lia).
  assert (E3 : forall k, elem d a3 k
                         = if third_index =? k then elem d a2 (from + 1) else elem d a2 k)
    by (intros k; apply elem_assign; lia).
  assert (E4 : forall k, elem d a4 k = if from + 1 =? k then v1 else elem d a3 k)
    by (intros k; apply elem_assign; lia).
  split; [| split; [| split]].
  - split; [exact L4 |]. split.
    + intros t.
      pose proof (count_assign dec d a from v0 t ltac:(lia)) as C1.
      pose proof (count_assign dec d a1 (to - 1) v2 t ltac:(lia)) as C2.
      pose proof (count_assign dec d a2 third_index (elem d a2 (from + 1)) t ltac:(lia))
        as C3.
      pose proof (count_assign dec d a3 (from + 1) v1 t ltac:(lia)) as C4.
      fold a1 in C1, C2. fold a2 in C2, C3. fold a3 in C3, C4. fold a4 in C4.
      pose proof (orderThree_count _ _ _ _ _ _ t Hthree) as C0.
      assert (X1 : elem d a1 (to - 1) = elem d a (to - 1)).
      { rewrite E1. destruct (Nat.eqb_spec from (to - 1)); [lia | reflexivity]. }
      assert (X2 : elem d a2 third_index = elem d a third_index).
      { rewrite E2, E1.
        destruct (Nat.eqb_spec (to - 1) third_index); [lia |].
        destruct (Nat.eqb_spec from third_index); [lia | reflexivity]. }
      assert (X3 : elem d a3 (from + 1) = elem d a2 (from + 1)).
      { rewrite E3. destruct (Nat.eqb_spec third_index (from + 1)); reflexivity. }
      rewrite X1 in C2. rewrite X2 in C3. rewrite X3 in C4.
      lia.
    + intros k Hk. rewrite E4, E3, !E2, !E1.
      destruct (Nat.eqb_spec (from + 1) k); [lia |].
      destruct (Nat.eqb_spec third_index k); [lia |].
      destruct (Nat.eqb_spec (to - 1) k); [lia |].
      destruct (Nat.eqb_spec from k); [lia | reflexivity].
  - rewrite E4, E3, !E2, !E1.
    destruct (Nat.eqb_spec (from + 1) from); [lia |].
    destruct (Nat.eqb_spec third_index from); [lia |].
    destruct (Nat.eqb_spec (to - 1) from); [lia |].
    rewrite Nat.eqb_refl. reflexivity.
  - rewrite E4, Nat.eqb_refl. reflexivity.
  - rewrite E4, E3, !E2.
    destruct (Nat.eqb_spec (from + 1) (to - 1)); [lia |].
    destruct (Nat.eqb_spec third_index (to - 1)); [lia |].
    rewrite Nat.eqb_refl. reflexivity.
Qed.
End PivotFacts.

(** With [compareCreateDate], the three candidates come out in descending
    order of creation time. *)
Lemma orderThree_newestFirst (x y z v0 v1 v2 : AccessKeyMetadata) :
  orderThree compareCreateDate x y z = (v0, v1, v2) ->
  newestFirst v0 v1 /\ newestFirst v1 v2.
Proof.
  unfold orderThree, newestFirst; cbv zeta.
  rewrite (compareCreateDate_gt x y).
  destruct (Z.ltb_spec (CreateDate x) (CreateDate y)).
  - rewrite (compareCreateDate_ge y z).
    destruct (Z.leb_spec (CreateDate y) (CreateDate z)); [intros [= <- <- <-]; lia |].
    rewrite (compareCreateDate_gt x z).
    destruct (Z.ltb_spec (CreateDate x) (CreateDate z)); intros [= <- <- <-]; lia.
  - rewrite (compareCreateDate_ge x z).
    destruct (Z.leb_spec (CreateDate x) (CreateDate z)); [intros [= <- <- <-]; lia |].
    rewrite (compareCreateDate_gt y z).
    destruct (Z.ltb_spec (CreateDate y) (CreateDate z)); intros [= <- <- <-]; lia.
Qed.

Section ThirdIndexFacts.
Context {A : Type} (d : A).

Lemma candidates_in (count : nat) (a : list A) (i to increment : nat) (c : nat * A) :
  In c (candidates d count a i to increment) -> i <= fst c < to.
Proof.
  revert i; induction count as [| count IH]; intros i; cbn [candidates]; [intros [] |].
  destruct (Nat.ltb_spec i to) as [Hlt | Hge]; [| intros []].
  intros [<- | Hin]; [cbn [fst]; lia |].
  specialize (IH _ Hin). lia.
Qed.

Lemma candidates_some (count : nat) (a : list A) (i to increment : nat) :
  0 < count -> i < to -> 0 < List.length (candidates d count a i to increment).
Proof.
  intros Hc Hi. destruct count as [| count]; [lia |]. cbn [candidates].
  destruct (Nat.ltb_spec i to); [simpl; lia | lia].
Qed.

(** The third index lies inside the range, off its two ends. *)
Lemma GetThirdIndex_range (sortSample : list (nat * A) -> list (nat * A))
    (a : list A) (from to : nat) :
  (forall t, Permutation t (sortSample t)) ->
  from + 2 < to ->
  from < GetThirdIndex d sortSample a from to < to - 1.
Proof.
  intros Hsort Hft. unfold GetThirdIndex; cbv zeta.
  set (t := candidates d (to - from) a (from + 1) (to - 1)
              (200 + Nat.land (to - from) 15)).
  assert (Hlen : 0 < List.length (sortSample t)).
  { rewrite <- (Permutation_length (Hsort t)). apply candidates_some; lia. }
  assert (Hin : In (elem (0, d) (sortSample t) (Nat.shiftr (List.length (sortSample t)) 1))
                  t).
  { eapply Permutation_in; [symmetry; apply Hsort |].
    apply elem_In. rewrite Nat.shiftr_div_pow2. change (2 ^ 1) with 2.
    apply Nat.div_lt; lia. }
  apply candidates_in in Hin. lia.
Qed.
End ThirdIndexFacts.

Lemma shiftr_half (n : nat) : 10 < n -> 0 < Nat.shiftr n 1 < n - 1.
Proof.
  intros Hn. rewrite Nat.shiftr_div_pow2. change (2 ^ 1) with 2.
  pose proof (Nat.div_mod_eq n 2) as H.
  pose proof (Nat.mod_upper_bound n 2 ltac:(lia)) as H2.
  lia.
Qed.

(** [QuickSort] moves the elements of the array about inside its range. *)
Lemma QuickSort_rearranged (fuel : nat) :
  forall (A : Type) (dec : forall x y : A, {x = y} + {x <> y})
         (cmp : A -> A -> Z) (d : A) (a : list A) (from to : nat),
    from <= to -> to <= List.length a ->
    rearranged dec d from to a (QuickSort fuel A cmp d a from to).
Proof.
  induction fuel as [| fuel IH]; intros A dec cmp d a from to Hft Hto;
    [apply rearranged_refl |].
  cbn [QuickSort].
  destruct (Nat.leb_spec (to - from) 10) as [Hshort | Hlong];
    [apply InsertionSort_rearranged; assumption |].
  match goal with
  | |- context [placePivot cmp d a from to ?t] => set (third_index := t)
  end.
  assert (Hthird : from < third_index < to - 1).
  { unfold third_index. destruct (1000 <? to - from).
    - apply GetThirdIndex_range; [| lia].
      intros t.
      assert (dec' : forall x y : nat * A, {x = y} + {x <> y})
        by (decide equality; apply Nat.eq_dec).
      apply (Permutation_count_occ dec'). intros x. symmetry.
      apply (IH _ dec' _ (0, d) t 0 (List.length t)); lia.
    - pose proof (shiftr_half (to - from) Hlong). lia. }
  destruct (placePivot_spec dec cmp d a from to third_index ltac:(lia) Hto Hthird)
    as [v0 [v2 [_ [Hr1 [_ [_ _]]]]]].
  destruct (placePivot cmp d a from to third_index) as [a1 pivot]. cbn [fst snd] in Hr1.
  cbv zeta.
  destruct (partition_spec dec cmp d pivot (fun _ => True) (fun _ => True) (fun _ => True)
              (fun _ _ => I) (fun _ _ _ => I) (fun _ _ => I)
              from to a (to - from) a1 (from + 1) (from + 1 + 1) (to - 1) ltac:(lia))
    as [a2 [le [hs [Hpart [Hr2 [H1 [H2 [_ [H4 _]]]]]]]]].
  { split; [exact Hr1 |]. repeat split; try lia; auto. }
  rewrite Hpart.
  assert (Hlen2 : List.length a2 = List.length a) by apply Hr2.
  destruct (to - hs <? le - from).
  - eapply rearranged_trans; [exact Hr2 |].
    eapply rearranged_trans.
    + apply (rearranged_widen dec d hs to from to); [lia | lia |].
      apply IH; lia.
    + apply (rearranged_widen dec d from le from to); [lia | lia |].
      apply IH; [lia |].
      destruct (IH A dec cmp d a2 hs to ltac:(lia) ltac:(lia)) as [Hl _]. lia.
  - eapply rearranged_trans; [exact Hr2 |].
    eapply rearranged_trans.
    + apply (rearranged_widen dec d from le from to); [lia | lia |].
      apply IH; lia.
    + apply (rearranged_widen dec d hs to from to); [lia | lia |].
      apply IH; [lia |].
      destruct (IH A dec cmp d a2 from le ltac:(lia) ltac:(lia)) as [Hl _]. lia.
Qed.

Lemma AccessKeyMetadata_eq_dec (x y : AccessKeyMetadata) : {x = y} + {x <> y}.
Proof. decide equality; first [apply string_dec | apply Z.eq_dec]. Qed.

(** A range whose front part and back part are in order, around cells of
    the creation time of the pivot, is in order. *)
Lemma sortedOn_parts (d : AccessKeyMetadata) (from low_end high_start to : nat)
    (a : list AccessKeyMetadata) (pivot : AccessKeyMetadata) :
  sortedOn d from low_end a -> sortedOn d high_start to a ->
  (forall k, from <= k < low_end -> newestFirst (elem d a k) pivot) ->
  (forall k, low_end <= k < high_start -> CreateDate (elem d a k) = CreateDate pivot) ->
  (forall k, high_start <= k < to -> newestFirst pivot (elem d a k)) ->
  sortedOn d from to a.
Proof.
  unfold sortedOn, newestFirst. intros Hfront Hback Hlo Hmid Hhi i j Hi Hij Hj.
  destruct (Nat.lt_ge_cases j low_end) as [Hj1 | Hj1]; [apply Hfront; lia |].
  destruct (Nat.le_gt_cases high_start i) as [Hi1 | Hi1]; [apply Hback; lia |].
  assert (Hjp : (CreateDate (elem d a j) <= CreateDate pivot)%Z).
  { destruct (Nat.lt_ge_cases j high_start) as [Hj2 | Hj2].
    - rewrite (Hmid j) by lia. lia.
    - apply Hhi. lia. }
  assert (Hip : (CreateDate pivot <= CreateDate (elem d a i))%Z).
  { destruct (Nat.lt_ge_cases i low_end) as [Hi2 | Hi2].
    - apply Hlo. lia.
    - rewrite (Hmid i) by lia. lia. }
  lia.
Qed.

(** [QuickSort] with [compareCreateDate] leaves its range in descending
    order of creation time, given more fuel than the range has cells. *)
Lemma QuickSort_sortedOn (fuel : nat) :
  forall (d : AccessKeyMetadata) (a : list AccessKeyMetadata) (from to : nat),
    from <= to -> to <= List.length a -> to - from < fuel ->
    sortedOn d from to (QuickSort fuel AccessKeyMetadata compareCreateDate d a from to).
Proof.
  induction fuel as [| fuel IH]; intros d a from to Hft Hto Hfuel; [lia |].
  cbn [QuickSort].
  destruct (Nat.leb_spec (to - from) 10) as [Hshort | Hlong];
    [apply InsertionSort_sortedOn; assumption |].
  match goal with
  | |- context [placePivot compareCreateDate d a from to ?t] => set (third_index := t)
  end.
  assert (Hthird : from < third_index < to - 1).
  { unfold third_index. destruct (1000 <? to - from).
    - apply GetThirdIndex_range; [| lia].
      intros t.
      assert (dec' : forall x y : nat * AccessKeyMetadata, {x = y} + {x <> y})
        by (decide equality; [apply AccessKeyMetadata_eq_dec | apply Nat.eq_dec]).
      apply (Permutation_count_occ dec'). intros x. symmetry.
      apply (QuickSort_rearranged fuel _ dec' _ (0, d) t 0 (List.length t)); lia.
    - pose proof (shiftr_half (to - from) Hlong). lia. }
  destruct (placePivot_spec AccessKeyMetadata_eq_dec compareCreateDate d a from to
              third_index ltac:(lia) Hto Hthird)
    as [v0 [v2 [Hthree [Hr1 [E0 [E1 E2]]]]]].
  destruct (placePivot compareCreateDate d a from to third_index) as [a1 pivot].
  cbn [fst snd] in *.
  destruct (orderThree_newestFirst _ _ _ _ _ _ Hthree) as [Hv0 Hv2].
  cbv zeta.
  destruct (partition_spec AccessKeyMetadata_eq_dec compareCreateDate d pivot
              (fun x => newestFirst x pivot)
              (fun x => CreateDate x = CreateDate pivot)
              (fun x => newestFirst pivot x))
    with (from := from) (to := to) (a0 := a) (count := to - from) (a := a1)
         (low_end := from + 1) (i := from + 1 + 1) (high_start := to - 1)
    as [a2 [le [hs [Hpart [Hr2 [H1 [H2 [_ [H4 [_ [Hlo [Hmid Hhi]]]]]]]]]]]].
  { intros x Hx. rewrite compareCreateDate_lt in Hx. apply Z.ltb_lt in Hx.
    unfold newestFirst; lia. }
  { intros x Hx Hy. rewrite compareCreateDate_lt in Hx. rewrite compareCreateDate_gt in Hy.
    apply Z.ltb_ge in Hx, Hy. lia. }
  { intros x Hx. rewrite compareCreateDate_gt in Hx. apply Z.ltb_lt in Hx.
    unfold newestFirst; lia. }
  { lia. }
  { split; [exact Hr1 |]. repeat split; try lia.
    - intros k Hk. replace k with from by lia. rewrite E0. exact Hv0.
    - intros k Hk. replace k with (from + 1) by lia. rewrite E1. reflexivity.
    - intros k Hk. replace k with (to - 1) by lia. rewrite E2. exact Hv2. }
  rewrite Hpart.
  assert (Hlen2 : List.length a2 = List.length a) by apply Hr2.
  destruct (to - hs <? le - from).
  - pose proof (QuickSort_rearranged fuel _ AccessKeyMetadata_eq_dec compareCreateDate d
                  a2 hs to ltac:(lia) ltac:(lia)) as Rb.
    pose proof (IH d a2 hs to ltac:(lia) ltac:(lia) ltac:(lia)) as Sb.
    set (b := QuickSort fuel AccessKeyMetadata compareCreateDate d a2 hs to) in *.
    assert (Hlenb : List.length b = List.length a) by (destruct Rb as [Hl _]; lia).
    pose proof (QuickSort_rearranged fuel _ AccessKeyMetadata_eq_dec compareCreateDate d
                  b from le ltac:(lia) ltac:(lia)) as Rc.
    pose proof (IH d b from le ltac:(lia) ltac:(lia) ltac:(lia)) as Sc.
    set (c := QuickSort fuel AccessKeyMetadata compareCreateDate d b from le) in *.
    destruct Rb as [_ [_ Fb]]. pose proof Rc as [_ [_ Fc]].
    apply (sortedOn_parts d from le hs to c pivot).
    + exact Sc.
    + intros i j Hi Hij Hj. rewrite !Fc by lia. apply Sb; lia.
    + apply (rearranged_keeps AccessKeyMetadata_eq_dec d from le b c
               (fun x => newestFirst x pivot)); [lia | lia | exact Rc |].
      intros k Hk. rewrite Fb by lia. apply Hlo. lia.
    + intros k Hk. rewrite Fc, Fb by lia. apply Hmid. lia.
    + intros k Hk. rewrite Fc by lia.
      apply (rearranged_keeps AccessKeyMetadata_eq_dec d hs to a2 b
               (fun x => newestFirst pivot x)); [lia | lia | | exact Hhi | lia].
      apply (QuickSort_rearranged fuel _ AccessKeyMetadata_eq_dec compareCreateDate d
               a2 hs to); lia.
  - pose proof (QuickSort_rearranged fuel _ AccessKeyMetadata_eq_dec compareCreateDate d
                  a2 from le ltac:(lia) ltac:(lia)) as Rb.
    pose proof (IH d a2 from le ltac:(lia) ltac:(lia) ltac:(lia)) as Sb.
    set (b := QuickSort fuel AccessKeyMetadata compareCreateDate d a2 from le) in *.
    assert (Hlenb : List.length b = List.length a) by (destruct Rb as [Hl _]; lia).
    pose proof (QuickSort_rearranged fuel _ AccessKeyMetadata_eq_dec compareCreateDate d
                  b hs to ltac:(lia) ltac:(lia)) as Rc.
    pose proof (IH d b hs to ltac:(lia) ltac:(lia) ltac:(lia)) as Sc.
    set (c := QuickSort fuel AccessKeyMetadata compareCreateDate d b hs to) in *.
    destruct Rb as [_ [_ Fb]]. pose proof Rc as [_ [_ Fc]].
    apply (sortedOn_parts d from le hs to c pivot).
    + intros i j Hi Hij Hj. rewrite !Fc by lia. apply Sb; lia.
    + exact Sc.
    + intros k Hk. rewrite Fc by lia.
      apply (rearranged_keeps AccessKeyMetadata_eq_dec d from le a2 b
               (fun x => newestFirst x pivot)); [lia | lia | | exact Hlo | lia].
      apply (QuickSort_rearranged fuel _ AccessKeyMetadata_eq_dec compareCreateDate d
               a2 from le); lia.
    + intros k Hk. rewrite Fc, Fb by lia. apply Hmid. lia.
    + apply (rearranged_keeps AccessKeyMetadata_eq_dec d hs to b c
               (fun x => newestFirst pivot x)); [lia | lia | exact Rc |].
      intros k Hk. rewrite Fb by lia. apply Hhi. lia.
Qed.

(** The sort of Node.js 10 returns the keys it was given, in descending
    order of creation time. *)
Lemma InnerArraySort_perm (l : list AccessKeyMetadata) :
  Permutation l (InnerArraySort compareCreateDate l).
Proof.
  destruct l as [| x l]; [constructor |]. unfold InnerArraySort.
  destruct (List.length (x :: l) <? 2); [apply Permutation_refl |].
  apply (Permutation_count_occ AccessKeyMetadata_eq_dec). intros k. symmetry.
  apply (QuickSort_rearranged _ _ AccessKeyMetadata_eq_dec compareCreateDate x (x :: l)
           0 (List.length (x :: l))); lia.
Qed.

Lemma InnerArraySort_newestFirst (l : list AccessKeyMetadata) :
  StronglySorted newestFirst (InnerArraySort compareCreateDate l).
Proof.
  destruct l as [| x l]; [constructor |]. unfold InnerArraySort.
  destruct (Nat.ltb_spec (List.length (x :: l)) 2) as [Hlt | Hge].
  - destruct l as [| y l]; [repeat constructor | simpl in Hlt; lia].
  - apply (newestFirst_by_index x).
    pose proof (QuickSort_rearranged (S (List.length (x :: l))) _ AccessKeyMetadata_eq_dec
                  compareCreateDate x (x :: l) 0 (List.length (x :: l))
                  ltac:(lia) ltac:(lia)) as [Hl _].
    rewrite Hl.
    apply QuickSort_sortedOn; lia.
Qed.

(** Up to 10 elements the sort is the insertion sort. *)
Lemma InnerArraySort_short {A : Type} (cmp : A -> A -> Z) (l : list A) :
  List.length l <= 10 ->
  InnerArraySort cmp l = rev (fold_left (fun front x => passAbove cmp x front) l []).
Proof.
  intros Hlen. destruct l as [| x l]; [reflexivity |].
  unfold InnerArraySort.
  destruct (Nat.ltb_spec (List.length (x :: l)) 2) as [Hlt | Hge].
  - destruct l as [| y l]; [reflexivity | simpl in Hlt; lia].
  - cbn [QuickSort]. rewrite Nat.sub_0_r.
    destruct (Nat.leb_spec (List.length (x :: l)) 10) as [_ | Hgt]; [| lia].
    pose proof (InsertionSort_range cmp x [] (x :: l) []) as H.
    rewrite !app_nil_r in H. exact H.
Qed.

(** Up to 10 keys, Node.js 10 sorts as the stable sort does. *)
Lemma InnerArraySort_few (l : list AccessKeyMetadata) :
  List.length l <= 10 ->
  InnerArraySort compareCreateDate l = sort compareCreateDate l.
Proof.
  intros Hlen. rewrite InnerArraySort_short by exact Hlen.
  apply newestFirst_determined.
  - apply oldestFirst_rev, insertion_rounds_oldestFirst. constructor.
  - apply sort_newestFirst.
  - intros t. rewrite sort_stable, filter_rev, insertion_rounds_same_date.
    rewrite app_nil_r. apply rev_involutive.
Qed.

Lemma InnerArraySort_length (l : list AccessKeyMetadata) :
  List.length (InnerArraySort compareCreateDate l) = List.length l.
Proof. symmetry. apply Permutation_length, InnerArraySort_perm. Qed.

(** ** The rotation on Node.js 10 *)

Section Node10Runs.
Context {S : Type} (h : Handler S) (u : User.t).
Context (cb : string -> string -> Prog unit).

(** The run of [rotateIAMUserKeys] once the store has answered the fetch. *)
Lemma exec_rotateIAMUserKeys_fetched (s s1 : S) (fetched : list AccessKeyMetadata) :
  h (listAccessKeys (User.name u)) s = (s1, inr fetched) ->
  exec h (rotateIAMUserKeys u cb) s =
  match exec h (rotateSorted u cb (sort compareCreateDate fetched)) s1 with
  | (s2, tr, inl err) =>
      (s2, EvCall (listAccessKeys (User.name u)) (inr fetched) :: tr ++ [unhandled err],
       inr tt)
  | (s2, tr, inr a) =>
      (s2, EvCall (listAccessKeys (User.name u)) (inr fetched) :: tr, inr a)
  end.
Proof.
  intros Hlist. rewrite exec_rotateIAMUserKeys, exec_rotateSteps, Hlist; cbn [fst snd].
  destruct (exec h (rotateSorted u cb (sort compareCreateDate fetched)) s1)
    as [[s2 tr] [err | a]]; reflexivity.
Qed.

Lemma exec_rotateIAMUserKeysOnNode10 (s s1 : S) (fetched : list AccessKeyMetadata) :
  h (listAccessKeys (User.name u)) s = (s1, inr fetched) ->
  exec h (rotateIAMUserKeysOnNode10 u cb) s =
  match exec h (rotateSorted u cb (InnerArraySort compareCreateDate fetched)) s1 with
  | (s2, tr, inl err) =>
      (s2, EvCall (listAccessKeys (User.name u)) (inr fetched) :: tr ++ [unhandled err],
       inr tt)
  | (s2, tr, inr a) =>
      (s2, EvCall (listAccessKeys (User.name u)) (inr fetched) :: tr, inr a)
  end.
Proof.
  intros Hlist. unfold rotateIAMUserKeysOnNode10. rewrite exec_try_catch.
  unfold rotateStepsOnNode10, listIAMAccessKeys; cbv zeta. rewrite exec_bind.
  rewrite (exec_call h (listAccessKeys (User.name u))), Hlist; cbn [fst snd].
  destruct (exec h (rotateSorted u cb (InnerArraySort compareCreateDate fetched)) s1)
    as [[s2 tr] [err | a]]; reflexivity.
Qed.

(** [rotateSorted] prints the keys before anything else. *)
Lemma rotateSorted_lists_first (l : list AccessKeyMetadata) (s : S) :
  exists rest, trace (exec h (rotateSorted u cb l) s) = keyListing l ++ rest.
Proof.
  unfold rotateSorted; cbv zeta.
  rewrite exec_bind, exec_log, exec_bind, exec_for_of_logKey.
  match goal with
  | |- context [exec h ?q s] => destruct (exec h q s) as [[s2 tr] [e | a]]
  end; eexists; unfold trace, keyListing; cbn [fst snd app]; reflexivity.
Qed.
End Node10Runs.

(** The changes of a run are the change the sorted keys ask for. *)
Lemma rotateSorted_change {S : Type} (h : Handler S) (u : User.t) (rate : string)
    (validate : ServiceConfiguration -> option string) (cfg : ServiceConfiguration)
    (l : list AccessKeyMetadata) (s : S) :
  callsWhere isMutation
    (trace (exec h (rotateSorted u (onNewCredentials (externalArgs u rate validate cfg)) l) s))
  = changeAsked u l.
Proof.
  destruct l as [| a [| b [| c l]]].
  - rewrite exec_rotateSorted_few by (simpl; lia).
    destruct (h (createAccessKey (User.name u)) s) as [s1 [e | newKey]];
      [read_trace; reflexivity |].
    rewrite exec_onNewCredentials.
    destruct (h (servicePush cfg _ _) s1) as [s2 [e | x]]; read_trace; reflexivity.
  - rewrite exec_rotateSorted_few by (simpl; lia).
    destruct (h (createAccessKey (User.name u)) s) as [s1 [e | newKey]];
      [read_trace; reflexivity |].
    rewrite exec_onNewCredentials.
    destruct (h (servicePush cfg _ _) s1) as [s2 [e | x]]; read_trace; reflexivity.
  - rewrite (exec_rotateSorted_two h u _ [a; b] b s eq_refl eq_refl).
    cbn [changeAsked].
    destruct (String.eqb (Status b) "Active");
      [| destruct (String.eqb (Status b) "Inactive")].
    + destruct (h (updateAccessKey (User.name u) (AccessKeyId b) "Inactive") s)
        as [s1 [e | x]]; read_trace; reflexivity.
    + destruct (h (deleteAccessKey (User.name u) (AccessKeyId b)) s)
        as [s1 [e | x]]; read_trace; reflexivity.
    + read_trace; reflexivity.
  - rewrite exec_rotateSorted_many by (simpl; lia). read_trace; reflexivity.
Qed.

Lemma changeAsked_many (u : User.t) (l : list AccessKeyMetadata) :
  2 < List.length l -> changeAsked u l = [].
Proof.
  destruct l as [| a [| b [| c l]]]; simpl; intros H; try lia. reflexivity.
Qed.

(** The change asked for is the same under both sorts. *)
Lemma changeAsked_on_Node10 (u : User.t) (fetched : list AccessKeyMetadata) :
  changeAsked u (InnerArraySort compareCreateDate fetched)
  = changeAsked u (sort compareCreateDate fetched).
Proof.
  destruct (le_lt_dec (List.length fetched) 10) as [Hle | Hgt].
  - rewrite InnerArraySort_few by exact Hle. reflexivity.
  - rewrite !changeAsked_many; [reflexivity | |].
    + rewrite sort_length; lia.
    + rewrite InnerArraySort_length; lia.
Qed.

Lemma mutations_of_run {S : Type} (c : Call) (r : result (Resp c)) (s2 : S)
    (tr : list Event) (o : result unit) (run : S * list Event * result unit) :
  isMutation c = false ->
  run = match o with
        | inl err => (s2, EvCall c r :: tr ++ [unhandled err], inr tt)
        | inr a => (s2, EvCall c r :: tr, inr a)
        end ->
  callsWhere isMutation (trace run) = callsWhere isMutation tr.
Proof.
  intros Hc ->. destruct o as [err | a]; unfold trace; cbn [fst snd callsWhere];
    rewrite Hc; [| reflexivity].
  rewrite callsWhere_app. cbn [callsWhere unhandled]. apply app_nil_r.
Qed.

(** C7, as the code has it.  The list that [rotateIAMUserKeys] sorts on
    Node.js 10 is, for every fetched list, a permutation of the fetched
    list in descending order of creation time.  For a fetched list of up to
    10 keys it is the list a stable sort returns: keys created at the same
    time keep the order they were fetched in, and it is the only list in
    descending order that does so.  Every run starts with the fetch and the
    listing of the keys in the sorted order, and on up to 10 keys the run
    on Node.js 10 is the run of [rotateIAMUserKeys] with the stable sort.
    For a fetched list of any length, the change a run asks the store for
    is the change read off the sorted list, so it is the same in any two
    runs that fetch the same list, whatever else the store and the
    distributor do. *)
Theorem rotate_decides_on_stable_newest_first_order :
  (forall fetched : list AccessKeyMetadata,
      let sorted := InnerArraySort compareCreateDate fetched in
      Permutation fetched sorted
      /\ StronglySorted newestFirst sorted
      /\ (List.length fetched <= 10 ->
          sorted = sort compareCreateDate fetched
          /\ (forall t : Z,
                filter (fun k => (CreateDate k =? t)%Z) sorted
                = filter (fun k => (CreateDate k =? t)%Z) fetched)
          /\ forall r : list AccessKeyMetadata,
               StronglySorted newestFirst r ->
               (forall t : Z, filter (fun k => (CreateDate k =? t)%Z) r
                              = filter (fun k => (CreateDate k =? t)%Z) fetched) ->
               r = sorted))
  /\ (forall (S : Type) (h : Handler S) u cb (s s1 : S) fetched,
        h (listAccessKeys (User.name u)) s = (s1, inr fetched) ->
        (exists rest,
            trace (exec h (rotateIAMUserKeysOnNode10 u cb) s)
            = EvCall (listAccessKeys (User.name u)) (inr fetched)
              :: keyListing (InnerArraySort compareCreateDate fetched) ++ rest)
        /\ (List.length fetched <= 10 ->
            exec h (rotateIAMUserKeysOnNode10 u cb) s = exec h (rotateIAMUserKeys u cb) s))
  /\ (forall (S : Type) (h : Handler S) u rate validate cfg (s s1 : S) fetched,
        h (listAccessKeys (User.name u)) s = (s1, inr fetched) ->
        let cb := onNewCredentials (externalArgs u rate validate cfg) in
        callsWhere isMutation (trace (exec h (rotateIAMUserKeysOnNode10 u cb) s))
        = changeAsked u (InnerArraySort compareCreateDate fetched)
        /\ callsWhere isMutation (trace (exec h (rotateIAMUserKeys u cb) s))
           = changeAsked u (sort compareCreateDate fetched)
        /\ changeAsked u (InnerArraySort compareCreateDate fetched)
           = changeAsked u (sort compareCreateDate fetched))
  /\ (forall (S S' : Type) (h : Handler S) (h' : Handler S') u rate validate cfg
             (s s1 : S) (s' s1' : S') fetched,
        h (listAccessKeys (User.name u)) s = (s1, inr fetched) ->
        h' (listAccessKeys (User.name u)) s' = (s1', inr fetched) ->
        let cb := onNewCredentials (externalArgs u rate validate cfg) in
        callsWhere isMutation (trace (exec h (rotateIAMUserKeysOnNode10 u cb) s))
        = callsWhere isMutation (trace (exec h' (rotateIAMUserKeysOnNode10 u cb) s'))).
Proof.
  assert (Hchange : forall (S : Type) (h : Handler S) u rate validate cfg (s s1 : S) fetched,
             h (listAccessKeys (User.name u)) s = (s1, inr fetched) ->
             callsWhere isMutation
               (trace (exec h (rotateIAMUserKeysOnNode10 u
                                 (onNewCredentials (externalArgs u rate validate cfg))) s))
             = changeAsked u (InnerArraySort compareCreateDate fetched)).
  { intros S h u rate validate cfg s s1 fetched Hlist.
    rewrite <- (rotateSorted_change h u rate validate cfg _ s1).
    pose proof (exec_rotateIAMUserKeysOnNode10 h u
                  (onNewCredentials (externalArgs u rate validate cfg)) s s1 fetched Hlist)
      as Hrun.
    destruct (exec h (rotateSorted u (onNewCredentials (externalArgs u rate validate cfg))
                        (InnerArraySort compareCreateDate fetched)) s1) as [[s2 tr] o].
    eapply mutations_of_run; [| exact Hrun]. reflexivity. }
  split; [| split; [| split]].
  - intros fetched sorted. subst sorted.
    split; [apply InnerArraySort_perm |]. split; [apply InnerArraySort_newestFirst |].
    intros Hlen. rewrite InnerArraySort_few by exact Hlen.
    split; [reflexivity |]. split; [intros t; apply sort_stable |].
    intros r Hr Hsame. apply newestFirst_determined; [exact Hr | apply sort_newestFirst |].
    intros t. rewrite sort_stable. apply Hsame.
  - intros S h u cb s s1 fetched Hlist. split.
    + rewrite (exec_rotateIAMUserKeysOnNode10 h u cb s s1 fetched Hlist).
      destruct (rotateSorted_lists_first h u cb (InnerArraySort compareCreateDate fetched) s1)
        as [rest Hrest].
      destruct (exec h (rotateSorted u cb (InnerArraySort compareCreateDate fetched)) s1)
        as [[s2 tr] [err | a]]; unfold trace in *; cbn [fst snd] in *; subst tr.
      * exists (rest ++ [unhandled err]). rewrite <- app_assoc. reflexivity.
      * exists rest. reflexivity.
    + intros Hlen.
      rewrite (exec_rotateIAMUserKeysOnNode10 h u cb s s1 fetched Hlist).
      rewrite (exec_rotateIAMUserKeys_fetched h u cb s s1 fetched Hlist).
      rewrite InnerArraySort_few by exact Hlen. reflexivity.
  - intros S h u rate validate cfg s s1 fetched Hlist cb. subst cb.
    split; [apply (Hchange S h u rate validate cfg s s1 fetched Hlist) |].
    split; [| apply changeAsked_on_Node10].
    rewrite <- (rotateSorted_change h u rate validate cfg _ s1).
    pose proof (exec_rotateIAMUserKeys_fetched h u
                  (onNewCredentials (externalArgs u rate validate cfg)) s s1 fetched Hlist)
      as Hrun.
    destruct (exec h (rotateSorted u (onNewCredentials (externalArgs u rate validate cfg))
                        (sort compareCreateDate fetched)) s1) as [[s2 tr] o].
    eapply mutations_of_run; [| exact Hrun]. reflexivity.
  - intros S S' h h' u rate validate cfg s s1 s' s1' fetched Hlist Hlist' cb. subst cb.
    rewrite (Hchange S h u rate validate cfg s s1 fetched Hlist).
    rewrite (Hchange S' h' u rate validate cfg s' s1' fetched Hlist').
    reflexivity.
Qed.

Lemma rotate_decides_on_stable_newest_first_order_witness :
  let fetched := [sampleKey 1 "Active" 10; sampleKey 2 "Active" 20; sampleKey 3 "Active" 10] in
  let r := [sampleKey 2 "Active" 20; sampleKey 1 "Active" 10; sampleKey 3 "Active" 10] in
  r = InnerArraySort compareCreateDate fetched
  /\ callsWhere isMutation
       (trace (exec simHandler (rotateIAMUserKeysOnNode10 cicdUser
                                  (onNewCredentials
                                     (externalArgs cicdUser "rate(1 hour)"
                                        TravisCIPusher.validateConfiguration
                                        (demoConfiguration "travis-token"))))
                 (storeOf [sampleKey 0 "Inactive" 5; sampleKey 1 "Active" 5] 2)))
     = [updateAccessKey "cicd-bot" "AKIA1" "Inactive"].
Proof.
  intros fetched r. split.
  - apply (proj2 (proj2 (proj2 (proj2
             (proj1 rotate_decides_on_stable_newest_first_order fetched))
             ltac:(simpl; lia)))).
    + repeat constructor; unfold newestFirst; simpl; lia.
    + intros t. unfold r, fetched; cbn [filter sampleKey CreateDate].
      destruct (Z.eqb_spec 10 t), (Z.eqb_spec 20 t); try reflexivity. lia.
  - rewrite (proj1 (proj1 (proj2 (proj2 rotate_decides_on_stable_newest_first_order))
                      Sim simHandler cicdUser "rate(1 hour)"%string
                      TravisCIPusher.validateConfiguration (demoConfiguration "travis-token")
                      (storeOf [sampleKey 0 "Inactive" 5; sampleKey 1 "Active" 5] 2)
                      (storeOf [sampleKey 0 "Inactive" 5; sampleKey 1 "Active" 5] 2)
                      [sampleKey 0 "Inactive" 5; sampleKey 1 "Active" 5] eq_refl)).
    reflexivity.
Defined.

(** C7, as the claim has it, fails on Node.js 10 for more than 10 keys:
    eleven keys created at the same time are fetched in the order of their
    identifiers, and the list [rotateIAMUserKeys] goes on with, which it
    prints before it reports the broken invariant, has the sixth key in
    front and the second key in the sixth place. *)
Lemma node10_sort_moves_keys_of_equal_age :
  let fetched := elevenKeys in
  let sorted := map (fun n => sampleKey n "Active" 5) [5; 0; 2; 3; 4; 1; 6; 7; 8; 9; 10] in
  let run := exec simHandler
               (rotateIAMUserKeysOnNode10 cicdUser (onNewCredentials sampleArgs))
               (storeOf fetched 11) in
  InnerArraySort compareCreateDate fetched = sorted
  /\ trace run = EvCall (listAccessKeys "cicd-bot") (inr fetched)
                 :: keyListing sorted ++ [unhandled (tooManyKeys 11)]
  /\ filter (fun k => (CreateDate k =? 5)%Z) sorted
     <> filter (fun k => (CreateDate k =? 5)%Z) fetched.
Proof.
  intros fetched sorted run.
  assert (Hsorted : InnerArraySort compareCreateDate fetched = sorted)
    by (vm_compute; reflexivity).
  split; [exact Hsorted |]. split.
  - subst run.
    rewrite (exec_rotateIAMUserKeysOnNode10 simHandler cicdUser _ (storeOf fetched 11)
               (storeOf fetched 11) fetched eq_refl).
    rewrite Hsorted, exec_rotateSorted_many by (vm_compute; lia).
    reflexivity.
  - vm_compute. discriminate.
Qed.

(** Twelve keys, the first the newest and the fifth, the eighth and the
    twelfth created together after it: Node.js 10 lists the three in the
    reverse of the order they were fetched in, the stable sort in that
    order. *)
Lemma node10_sort_reverses_three_of_twelve :
  let created := [100; 9; 8; 7; 50; 6; 5; 50; 4; 3; 2; 50]%Z in
  let fetched := map (fun p => sampleKey (fst p) "Active" (snd p))
                   (combine (seq 0 12) created) in
  map AccessKeyId (InnerArraySort compareCreateDate fetched)
  = ["AKIA0"; "AKIA11"; "AKIA7"; "AKIA4"; "AKIA1"; "AKIA2"; "AKIA3"; "AKIA5"; "AKIA6";
     "AKIA8"; "AKIA9"; "AKIA10"]%string
  /\ map AccessKeyId (sort compareCreateDate fetched)
     = ["AKIA0"; "AKIA4"; "AKIA7"; "AKIA11"; "AKIA1"; "AKIA2"; "AKIA3"; "AKIA5"; "AKIA6";
        "AKIA8"; "AKIA9"; "AKIA10"]%string.
Proof. vm_compute. split; reflexivity. Qed.

(** ** Repeated invocations on the simulated store *)

Lemma of_nat_inj (n m : nat) : of_nat n = of_nat m -> n = m.
Proof.
  unfold of_nat. intros H. apply DecimalNat.Unsigned.to_uint_inj.
  assert (Hn : forall k, Nat.to_uint k <> Decimal.Nil).
  { intros k Hk. pose proof (DecimalNat.Unsigned.of_to k) as E. rewrite Hk in E.
    destruct k; [discriminate Hk | discriminate E]. }
  pose proof (NilZero.usu _ (Hn n)) as E1.
  pose proof (NilZero.usu _ (Hn m)) as E2.
  rewrite H in E1. congruence.
Qed.

Lemma keyIdOf_inj (n m : nat) : keyIdOf n = keyIdOf m -> n = m.
Proof.
  unfold keyIdOf. intros H. apply of_nat_inj.
  unfold String.append in H; fold String.append in H.
  injection H as H. exact H.
Qed.

Lemma map_AccessKeyId_setStatus (accessKeyId status : string) (l : list AccessKeyMetadata) :
  map AccessKeyId (map (setStatus accessKeyId status) l) = map AccessKeyId l.
Proof.
  induction l as [| k l IH]; [reflexivity |].
  simpl. rewrite IH. unfold setStatus.
  destruct (String.eqb (AccessKeyId k) accessKeyId); reflexivity.
Qed.

(** Dropping keys from a store keeps the identifiers distinct. *)
Lemma filter_keeps_ids_distinct (keep : AccessKeyMetadata -> bool)
    (store : list AccessKeyMetadata) :
  NoDup (map AccessKeyId store) -> NoDup (map AccessKeyId (filter keep store)).
Proof.
  intros Hnd. induction store as [| k store IH]; simpl in *; [constructor |].
  apply NoDup_cons_iff in Hnd. destruct Hnd as [Hfresh Hnd].
  destruct (keep k); simpl; [| exact (IH Hnd)].
  apply NoDup_cons_iff. split; [| exact (IH Hnd)].
  rewrite in_map_iff in *. intros [k' [Hid Hin]].
  apply Hfresh. exists k'. apply filter_In in Hin. tauto.
Qed.

Lemma NoDup_map_inj {A B : Type} (f : A -> B) (l : list A) (a b : A) :
  NoDup (map f l) -> In a l -> In b l -> f a = f b -> a = b.
Proof.
  induction l as [| x l IH]; simpl; intros Hnd Ha Hb Hf; [contradiction |].
  inversion Hnd as [| ? ? Hin Hnd']; subst.
  destruct Ha as [Ha | Ha], Hb as [Hb | Hb]; subst.
  - reflexivity.
  - exfalso. apply Hin. rewrite Hf. apply in_map, Hb.
  - exfalso. apply Hin. rewrite <- Hf. apply in_map, Ha.
  - apply IH; assumption.
Qed.

Lemma holdsKey_In (l : list AccessKeyMetadata) (k : AccessKeyMetadata) :
  In k l -> holdsKey l (AccessKeyId k) = true.
Proof.
  intros H. unfold holdsKey. apply existsb_exists. exists k.
  split; [exact H | apply String.eqb_refl].
Qed.

Lemma holdsKey_ids (l l' : list AccessKeyMetadata) (accessKeyId : string) :
  map AccessKeyId l = map AccessKeyId l' ->
  holdsKey l accessKeyId = holdsKey l' accessKeyId.
Proof.
  revert l'; induction l as [| k l IH]; intros [| k' l'] H; simpl in *;
    try discriminate; [reflexivity |].
  injection H as Hk Hl. rewrite Hk, (IH l' Hl). reflexivity.
Qed.

Section SimulatedRuns.
Context (u : User.t) (rate : string).
Context (validate : ServiceConfiguration -> option string) (cfg : ServiceConfiguration).

Let args := externalArgs u rate validate cfg.

(** An invocation that finds at most one key: the whole run. *)
Lemma invocation_few (s : Sim) (t : Z) (down : bool) :
  List.length (keys s) <= 1 ->
  invocation args s t down =
  ({| keys := keys s ++ [createdKey u s t]; issued := Datatypes.S (issued s);
      now := t; pushFails := down |},
   EvCall (listAccessKeys (User.name u)) (inr (keys s))
   :: keyListing (sort compareCreateDate (keys s))
   ++ [EvCall (createAccessKey (User.name u))
         (inr (AccessKey.Build_t (User.name u) (keyIdOf (issued s)) "Active"
                 (secretOf (issued s)) t));
       EvLog [Txt ("Created new key key " +++ keyIdOf (issued s))];
       EvSleep 1000]
   ++ (if down
       then pushingOut
            :: EvCall (servicePush cfg (keyIdOf (issued s)) (secretOf (issued s)))
                 (inl (Error "push rejected"))
            :: pushFailed (Error "push rejected")
       else [pushingOut;
             EvCall (servicePush cfg (keyIdOf (issued s)) (secretOf (issued s))) (inr tt)])
   ++ [stepComplete],
   inr tt).
Proof.
  intros Hlen. unfold invocation, args.
  rewrite (lambda_run_few simHandler u rate validate cfg
             (Build_Sim (keys s) (issued s) t down) (Build_Sim (keys s) (issued s) t down) (keys s) eq_refl Hlen).
  cbn [simHandler keys issued now pushFails].
  rewrite exec_onNewCredentials.
  cbn [simHandler pushFails AccessKey.AccessKeyId AccessKey.SecretAccessKey].
  destruct down; reflexivity.
Qed.

(** An invocation that finds two keys: the store afterwards. *)
Lemma invocation_two (s : Sim) (t : Z) (down : bool) (older : AccessKeyMetadata) :
  List.length (keys s) = 2 ->
  nth_error (sort compareCreateDate (keys s)) 1 = Some older ->
  issued (final (invocation args s t down)) = issued s
  /\ keys (final (invocation args s t down)) =
     (if String.eqb (Status older) "Active" then
        map (setStatus (AccessKeyId older) "Inactive") (keys s)
      else if String.eqb (Status older) "Inactive" then
        filter (fun k => negb (String.eqb (AccessKeyId k) (AccessKeyId older))) (keys s)
      else keys s)
  /\ callsWhere isDelete (trace (invocation args s t down)) =
     (if String.eqb (Status older) "Active" then []
      else if String.eqb (Status older) "Inactive" then
        [deleteAccessKey (User.name u) (AccessKeyId older)]
      else [])
  /\ callsWhere isDistribution (trace (invocation args s t down)) = [].
Proof.
  intros Hlen Hn. unfold invocation, args.
  rewrite (lambda_run_two simHandler u rate validate cfg
             (Build_Sim (keys s) (issued s) t down) (Build_Sim (keys s) (issued s) t down) (keys s) older eq_refl Hlen Hn).
  rewrite (exec_rotateSorted_two simHandler u _ _ older) by
    (rewrite ?sort_length; assumption).
  destruct (String.eqb (Status older) "Active");
    [| destruct (String.eqb (Status older) "Inactive")];
    cbn [simHandler keys issued now pushFails]; read_trace;
    repeat split; reflexivity.
Qed.

(** An invocation that finds more than two keys: nothing changes. *)
Lemma invocation_many (s : Sim) (t : Z) (down : bool) :
  2 < List.length (keys s) ->
  keys (final (invocation args s t down)) = keys s
  /\ issued (final (invocation args s t down)) = issued s.
Proof.
  intros Hlen. unfold invocation, args.
  rewrite (lambda_run_many simHandler u rate validate cfg
             (Build_Sim (keys s) (issued s) t down) (Build_Sim (keys s) (issued s) t down) (keys s) eq_refl Hlen).
  split; reflexivity.
Qed.

(** The older key of the sorted pair is a key of the store. *)
Lemma older_in_store (l : list AccessKeyMetadata) (older : AccessKeyMetadata) :
  nth_error (sort compareCreateDate l) 1 = Some older -> In older l.
Proof.
  intros Hn. apply nth_error_In in Hn.
  eapply Permutation_in; [apply Permutation_sym, sort_perm | exact Hn].
Qed.

(** Every invocation keeps the store well formed. *)
Lemma invocation_wellFormed (s : Sim) (t : Z) (down : bool) :
  wellFormed s -> wellFormed (final (invocation args s t down)).
Proof.
  intros [Hlen [Hnd Hids]].
  destruct (le_lt_dec (List.length (keys s)) 1) as [Hle | Hgt].
  - rewrite (invocation_few s t down Hle). unfold final, wellFormed; cbn [fst keys issued].
    split; [rewrite length_app; simpl; lia |]. split.
    + rewrite map_app. cbn [map createdKey AccessKeyId].
      apply NoDup_app; [exact Hnd | constructor; [intros [] | constructor] |].
      intros x Hx [Hx' | []]. subst x.
      apply in_map_iff in Hx. destruct Hx as [k [Hk Hkin]].
      rewrite Forall_forall in Hids. destruct (Hids k Hkin) as [n [Hn Hkn]].
      rewrite Hkn in Hk. apply keyIdOf_inj in Hk. lia.
    + apply Forall_app. split.
      * eapply Forall_impl; [| exact Hids].
        intros k [n [Hn Hk]]. exists n. split; [lia | exact Hk].
      * constructor; [| constructor]. exists (issued s). split; [lia | reflexivity].
  - assert (Hlen2 : List.length (keys s) = 2) by lia.
    destruct (nth_error_second (sort compareCreateDate (keys s))) as [older Hn];
      [rewrite sort_length; exact Hlen2 |].
    destruct (invocation_two s t down older Hlen2 Hn) as [Hiss [Hkeys _]].
    unfold wellFormed. rewrite Hiss, Hkeys.
    destruct (String.eqb (Status older) "Active");
      [| destruct (String.eqb (Status older) "Inactive")].
    + rewrite length_map, map_AccessKeyId_setStatus.
      split; [exact Hlen |]. split; [exact Hnd |].
      rewrite Forall_forall in *. intros k Hk.
      apply in_map_iff in Hk. destruct Hk as [k0 [Hk0 Hin]].
      destruct (Hids k0 Hin) as [n [Hlt Hid]]. exists n. split; [exact Hlt |].
      subst k. unfold setStatus.
      destruct (String.eqb (AccessKeyId k0) (AccessKeyId older)); exact Hid.
    + split; [etransitivity; [apply filter_length_le | exact Hlen] |].
      split; [apply filter_keeps_ids_distinct, Hnd |].
      rewrite Forall_forall in *. intros k Hk. apply filter_In in Hk. apply Hids, Hk.
    + split; [exact Hlen |]. split; [exact Hnd | exact Hids].
Qed.

Lemma reachable_wellFormed (s : Sim) : reachable args s -> wellFormed s.
Proof.
  induction 1 as [| s t down Hr IH].
  - unfold wellFormed, emptyStore; simpl. split; [lia |]. split; constructor.
  - apply invocation_wellFormed, IH.
Qed.

(** In a well-formed store an Active key is still there after the
    invocation: the only deletion is that of an Inactive key. *)
Lemma active_key_survives (s : Sim) (t : Z) (down : bool) (k : AccessKeyMetadata) :
  wellFormed s -> In k (keys s) -> isActive k = true ->
  holdsKey (keys (final (invocation args s t down))) (AccessKeyId k) = true.
Proof.
  intros [Hlen [Hnd Hids]] Hk Hact.
  destruct (le_lt_dec (List.length (keys s)) 1) as [Hle | Hgt].
  - rewrite (invocation_few s t down Hle). unfold final; cbn [fst keys].
    apply holdsKey_In, in_or_app. left; exact Hk.
  - assert (Hlen2 : List.length (keys s) = 2) by lia.
    destruct (nth_error_second (sort compareCreateDate (keys s))) as [older Hn];
      [rewrite sort_length; exact Hlen2 |].
    destruct (invocation_two s t down older Hlen2 Hn) as [_ [Hkeys _]].
    rewrite Hkeys.
    destruct (String.eqb (Status older) "Active");
      [| destruct (String.eqb_spec (Status older) "Inactive") as [Hst | Hst]].
    + rewrite (holdsKey_ids _ (keys s)) by apply map_AccessKeyId_setStatus.
      apply holdsKey_In, Hk.
    + apply holdsKey_In, filter_In. split; [exact Hk |].
      apply negb_true_iff, String.eqb_neq. intros Hid.
      assert (Heq : k = older).
      { apply (NoDup_map_inj AccessKeyId (keys s)); auto.
        apply older_in_store, Hn. }
      subst k. unfold isActive in Hact. rewrite Hst in Hact. discriminate Hact.
    + apply holdsKey_In, Hk.
Qed.

(** In a well-formed store a deletion is that of an Inactive key. *)
Lemma deleted_key_inactive (s : Sim) (t : Z) (down : bool) (accessKeyId : string)
    (k : AccessKeyMetadata) :
  wellFormed s ->
  In (deleteAccessKey (User.name u) accessKeyId)
     (callsWhere isDelete (trace (invocation args s t down))) ->
  In k (keys s) -> AccessKeyId k = accessKeyId -> isActive k = false.
Proof.
  intros [Hlen [Hnd Hids]] Hdel Hk Hid.
  destruct (le_lt_dec (List.length (keys s)) 1) as [Hle | Hgt].
  - rewrite (invocation_few s t down Hle) in Hdel. exfalso. revert Hdel.
    destruct down; read_trace; intros [].
  - assert (Hlen2 : List.length (keys s) = 2) by lia.
    destruct (nth_error_second (sort compareCreateDate (keys s))) as [older Hn];
      [rewrite sort_length; exact Hlen2 |].
    destruct (invocation_two s t down older Hlen2 Hn) as [_ [_ [Hcalls _]]].
    rewrite Hcalls in Hdel.
    destruct (String.eqb (Status older) "Active"); [destruct Hdel |].
    destruct (String.eqb_spec (Status older) "Inactive") as [Hst | Hst]; [| destruct Hdel].
    destruct Hdel as [Hdel | []]. injection Hdel as Hdel.
    assert (Heq : k = older).
    { apply (NoDup_map_inj AccessKeyId (keys s)); auto.
      - apply older_in_store, Hn.
      - congruence. }
    subst k. unfold isActive. rewrite Hst. reflexivity.
Qed.
End SimulatedRuns.

(** C1.  Every store that repeated invocations reach from the empty store
    holds at most two keys.  In such a store the newest Active key is not
    deleted by the next invocation: no deletion is requested for its
    identifier and the store still holds it afterwards. *)
Theorem rotation_keeps_two_keys_and_newest_active :
  forall u rate validate cfg (s : Sim),
    reachable (externalArgs u rate validate cfg) s ->
    List.length (keys s) <= 2
    /\ forall (t : Z) (down : bool) (k : AccessKeyMetadata),
         In k (keys s) -> newestActive (keys s) k = true ->
         let run := invocation (externalArgs u rate validate cfg) s t down in
         holdsKey (keys (final run)) (AccessKeyId k) = true
         /\ ~ In (deleteAccessKey (User.name u) (AccessKeyId k))
                 (callsWhere isDelete (trace run)).
Proof.
  intros u rate validate cfg s Hr.
  pose proof (reachable_wellFormed u rate validate cfg s Hr) as Hwf.
  split; [apply Hwf |].
  intros t down k Hk Hnew run. subst run.
  unfold newestActive in Hnew. apply andb_true_iff in Hnew. destruct Hnew as [Hact _].
  split.
  - apply active_key_survives; assumption.
  - intros Hdel.
    pose proof (deleted_key_inactive u rate validate cfg s t down (AccessKeyId k) k
                  Hwf Hdel Hk eq_refl) as Hina.
    rewrite Hact in Hina. discriminate Hina.
Qed.

Lemma rotation_keeps_two_keys_and_newest_active_witness :
  let s := final (invocation sampleArgs (final (invocation sampleArgs emptyStore 1 false)) 5 true) in
  let k := sampleKey 1 "Active" 5 in
  List.length (keys s) <= 2
  /\ holdsKey (keys (final (invocation sampleArgs s 9 false))) (AccessKeyId k) = true
  /\ ~ In (deleteAccessKey "cicd-bot" (AccessKeyId k))
          (callsWhere isDelete (trace (invocation sampleArgs s 9 false))).
Proof.
  intros s k.
  pose proof (rotation_keeps_two_keys_and_newest_active
                cicdUser "rate(1 hour)"%string TravisCIPusher.validateConfiguration
                (demoConfiguration "travis-token") s
                (reach_invoke _ _ 5 true (reach_invoke _ _ 1 false (reach_empty _)))) as H.
  split; [apply H |].
  apply (proj2 H 9%Z false k).
  - right; left; reflexivity.
  - reflexivity.
Defined.

(** A snapshot of two keys never leads to a distribution. *)
Lemma two_keys_no_distribution {S : Type} (h : Handler S) u rate validate cfg
    (s s1 : S) (fetched : list AccessKeyMetadata) :
  h (listAccessKeys (User.name u)) s = (s1, inr fetched) ->
  List.length fetched = 2 ->
  callsWhere isDistribution
    (trace (exec h (keyRotatorLambda (externalArgs u rate validate cfg)) s)) = [].
Proof.
  intros Hlist Hlen.
  destruct (nth_error_second (sort compareCreateDate fetched)) as [older Hn];
    [rewrite sort_length; exact Hlen |].
  rewrite (lambda_run_two h u rate validate cfg s s1 fetched older Hlist Hlen Hn).
  rewrite (exec_rotateSorted_two h u _ _ older s1) by (rewrite ?sort_length; assumption).
  destruct (String.eqb (Status older) "Active");
    [| destruct (String.eqb (Status older) "Inactive")].
  - destruct (h (updateAccessKey (User.name u) (AccessKeyId older) "Inactive") s1)
      as [s2 [e | x]]; read_trace; reflexivity.
  - destruct (h (deleteAccessKey (User.name u) (AccessKeyId older)) s1)
      as [s2 [e | x]]; read_trace; reflexivity.
  - read_trace; reflexivity.
Qed.

(** C6.  When the distributor rejects the key that an invocation on at most
    one key has just created, the Lambda catches the exception and prints
    it, and the invocation completes normally having requested nothing of
    the store but the creation: on the simulated store the new key is there
    afterwards, Active.  No invocation whose snapshot holds two keys calls
    the distributor, so the push is not attempted again for that key. *)
Theorem failed_distribution_is_logged_and_not_retried :
  (forall (S : Type) (h : Handler S) u rate validate cfg (s s1 s2 s3 : S)
          fetched newKey e,
      h (listAccessKeys (User.name u)) s = (s1, inr fetched) ->
      List.length fetched <= 1 ->
      h (createAccessKey (User.name u)) s1 = (s2, inr newKey) ->
      h (servicePush cfg (AccessKey.AccessKeyId newKey) (AccessKey.SecretAccessKey newKey)) s2
        = (s3, inl e) ->
      let run := exec h (keyRotatorLambda (externalArgs u rate validate cfg)) s in
      outcome run = inr tt
      /\ final run = s3
      /\ In [Txt "Unhandled exception pushing out credentials:"] (logged (trace run))
      /\ In [ErrObj e] (logged (trace run))
      /\ callsWhere isMutation (trace run) = [createAccessKey (User.name u)])
  /\ (forall u rate validate cfg (s : Sim) (t : Z),
        List.length (keys s) <= 1 ->
        let run := invocation (externalArgs u rate validate cfg) s t true in
        outcome run = inr tt
        /\ keys (final run) = keys s ++ [createdKey u s t]
        /\ Status (createdKey u s t) = "Active"%string)
  /\ (forall (S : Type) (h : Handler S) u rate validate cfg (s s1 : S) fetched,
        h (listAccessKeys (User.name u)) s = (s1, inr fetched) ->
        List.length fetched = 2 ->
        callsWhere isDistribution
          (trace (exec h (keyRotatorLambda (externalArgs u rate validate cfg)) s)) = []).
Proof.
  split; [| split].
  - intros S h u rate validate cfg s s1 s2 s3 fetched newKey e Hlist Hlen Hcreate Hpush run.
    subst run.
    rewrite (lambda_run_few h u rate validate cfg s s1 fetched Hlist Hlen), Hcreate.
    rewrite exec_onNewCredentials, Hpush. read_trace.
    split; [reflexivity |]. split; [reflexivity |].
    split; [apply in_or_app; right; right; right; left; reflexivity |].
    split; [apply in_or_app; right; right; right; right; left; reflexivity |].
    reflexivity.
  - intros u rate validate cfg s t Hlen run. subst run.
    rewrite (invocation_few u rate validate cfg s t true Hlen).
    repeat split; reflexivity.
  - intros S h u rate validate cfg s s1 fetched Hlist Hlen.
    apply (two_keys_no_distribution h u rate validate cfg s s1 fetched Hlist Hlen).
Qed.

Lemma failed_distribution_is_logged_and_not_retried_witness :
  let down := Build_Sim [] 0 7 true in
  let run := exec simHandler (keyRotatorLambda sampleArgs) down in
  (outcome run = inr tt
   /\ final run = Build_Sim [sampleKey 0 "Active" 7] 1 7 true
   /\ In [Txt "Unhandled exception pushing out credentials:"] (logged (trace run))
   /\ In [ErrObj (Error "push rejected")] (logged (trace run))
   /\ callsWhere isMutation (trace run) = [createAccessKey "cicd-bot"])
  /\ (let run := invocation sampleArgs emptyStore 7 true in
      outcome run = inr tt
      /\ keys (final run) = [sampleKey 0 "Active" 7]
      /\ Status (sampleKey 0 "Active" 7) = "Active"%string)
  /\ callsWhere isDistribution
       (trace (exec simHandler (keyRotatorLambda sampleArgs)
                 (storeOf [sampleKey 0 "Active" 7; sampleKey 1 "Active" 9] 2))) = [].
Proof.
  intros down run. split; [| split].
  - apply (proj1 failed_distribution_is_logged_and_not_retried
             Sim simHandler cicdUser "rate(1 hour)"%string
             TravisCIPusher.validateConfiguration (demoConfiguration "travis-token")
             down down (Build_Sim [sampleKey 0 "Active" 7] 1 7 true)
             (Build_Sim [sampleKey 0 "Active" 7] 1 7 true) []
             (AccessKey.Build_t "cicd-bot" "AKIA0" "Active" "secret0" 7)
             (Error "push rejected") eq_refl (Nat.le_0_l 1) eq_refl eq_refl).
  - apply (proj1 (proj2 failed_distribution_is_logged_and_not_retried)
             cicdUser "rate(1 hour)"%string
             TravisCIPusher.validateConfiguration (demoConfiguration "travis-token")
             emptyStore 7%Z (Nat.le_0_l 1)).
  - apply (proj2 (proj2 failed_distribution_is_logged_and_not_retried)
             Sim simHandler cicdUser "rate(1 hour)"%string
             TravisCIPusher.validateConfiguration (demoConfiguration "travis-token")
             (storeOf [sampleKey 0 "Active" 7; sampleKey 1 "Active" 9] 2)
             (storeOf [sampleKey 0 "Active" 7; sampleKey 1 "Active" 9] 2)
             [sampleKey 0 "Active" 7; sampleKey 1 "Active" 9] eq_refl eq_refl).
Defined.

(** ** Validation of the configuration *)

(** C8.  [validateConfiguration] of the Travis pusher reports an error
    exactly when the access key is missing or empty or the list of projects
    is missing or empty.  The constructor of [CredentialPusher] throws
    exactly when the service reports an error, so for the Travis pusher
    exactly on such a configuration; an instance that has been constructed
    carries the service and the configuration it was given, and that
    configuration has an access key and at least one project.  The rotator
    of [index.ts] is built from the instance, so with an empty token there
    is neither a pusher nor a rotator. *)
Theorem configuration_is_validated_before_use :
  (forall cfg,
      TravisCIPusher.validateConfiguration cfg <> None
      <-> (falsy_opt (accessKey cfg) = true
           \/ projects cfg = None \/ projects cfg = Some []))
  /\ (forall svc cfg,
        (exists e, newCredentialPusher svc cfg = inl e)
        <-> falsy_opt (validateConfiguration svc cfg) = false)
  /\ (forall cfg,
        (exists e, newCredentialPusher TravisCIPusher.new cfg = inl e)
        <-> TravisCIPusher.validateConfiguration cfg <> None)
  /\ (forall cfg cp,
        newCredentialPusher TravisCIPusher.new cfg = inr cp ->
        service cp = TravisCIPusher.new /\ config cp = cfg
        /\ falsy_opt (accessKey cfg) = false
        /\ exists p ps, projects cfg = Some (p :: ps))
  /\ (forall token rate u,
        falsy token = true ->
        (exists e, demoTravisCIPusher token = inl e)
        /\ exists e, rotator token rate u = inl e).
Proof.
  assert (Hval : forall cfg,
             TravisCIPusher.validateConfiguration cfg <> None
             <-> (falsy_opt (accessKey cfg) = true
                  \/ projects cfg = None \/ projects cfg = Some [])).
  { intros cfg. unfold TravisCIPusher.validateConfiguration.
    destruct (falsy_opt (accessKey cfg)); [split; [auto | discriminate] |].
    destruct (projects cfg) as [[| p ps] |]; simpl.
    - split; [auto | discriminate].
    - split; [intros H; contradiction |].
      intros [H | [H | H]]; discriminate H.
    - split; [auto | discriminate]. }
  assert (Hnew : forall svc cfg,
             (exists e, newCredentialPusher svc cfg = inl e)
             <-> falsy_opt (validateConfiguration svc cfg) = false).
  { intros svc cfg. unfold newCredentialPusher; cbv zeta.
    destruct (falsy_opt (validateConfiguration svc cfg)); simpl.
    - split; [intros [e H]; discriminate H | discriminate].
    - split; [reflexivity | intros _; eexists; reflexivity]. }
  assert (Htravis : forall cfg,
             falsy_opt (TravisCIPusher.validateConfiguration cfg) = false
             <-> TravisCIPusher.validateConfiguration cfg <> None).
  { intros cfg. unfold TravisCIPusher.validateConfiguration.
    destruct (falsy_opt (accessKey cfg)); [split; [discriminate | reflexivity] |].
    destruct (projects cfg) as [[| p ps] |]; simpl;
      split; try discriminate; try reflexivity; intros H; contradiction. }
  split; [exact Hval |]. split; [exact Hnew |]. split; [| split].
  - intros cfg. rewrite Hnew. apply Htravis.
  - intros cfg cp H.
    assert (Hok : ~ (TravisCIPusher.validateConfiguration cfg <> None)).
    { intros Hbad. apply Htravis in Hbad.
      apply (Hnew TravisCIPusher.new cfg) in Hbad. destruct Hbad as [e He].
      rewrite He in H. discriminate H. }
    unfold newCredentialPusher in H; cbv zeta in H.
    destruct (negb (falsy_opt (validateConfiguration TravisCIPusher.new cfg)));
      [discriminate H |].
    injection H as H; subst cp. split; [reflexivity |]. split; [reflexivity |].
    rewrite Hval in Hok.
    destruct (falsy_opt (accessKey cfg)); [exfalso; apply Hok; auto |].
    split; [reflexivity |].
    destruct (projects cfg) as [[| p ps] |]; [exfalso; apply Hok; auto | | exfalso; apply Hok; auto].
    exists p, ps; reflexivity.
  - intros token rate u Htok.
    assert (H : exists e, demoTravisCIPusher token = inl e).
    { unfold demoTravisCIPusher. apply Hnew. apply Htravis, Hval. left. exact Htok. }
    split; [exact H |]. destruct H as [e He]. exists e. unfold rotator. rewrite He. reflexivity.
Qed.

Lemma configuration_is_validated_before_use_witness :
  (exists e, newCredentialPusher TravisCIPusher.new
               {| accessKey := Some "travis-token"%string; projects := Some [] |} = inl e)
  /\ (exists cp, demoTravisCIPusher "travis-token" = inr cp
                 /\ config cp = demoConfiguration "travis-token"
                 /\ falsy_opt (accessKey (demoConfiguration "travis-token")) = false)
  /\ exists e, rotator "" "rate(1 hour)" cicdUser = inl e.
Proof.
  split; [| split].
  - apply (proj2 (proj1 (proj2 (proj2 configuration_is_validated_before_use)) _)).
    apply (proj2 (proj1 configuration_is_validated_before_use _)).
    right; right; reflexivity.
  - eexists. split; [reflexivity |].
    pose proof (proj1 (proj2 (proj2 (proj2 configuration_is_validated_before_use)))
                  (demoConfiguration "travis-token") _ eq_refl) as H.
    split; [apply H | apply H].
  - apply (proj2 (proj2 (proj2 (proj2 configuration_is_validated_before_use)))
             ""%string "rate(1 hour)"%string cicdUser eq_refl).
Defined.

(** ** Resolving the locations of a project *)

Section Resolve.
Context (p : Project).

Let step := TravisCIPusher.resolveEnvVar p.

(** A variable that is picked has an identifier, and that identifier is
    not empty. *)
Lemma picked_id_not_falsy (v : TravisEnvVar.t) :
  falsy_opt (TravisEnvVar.id v) = false -> falsy (of_opt (TravisEnvVar.id v)) = false.
Proof. destruct (TravisEnvVar.id v); simpl; [auto | discriminate]. Qed.

(** The key-id handle is empty after the loop exactly when it was empty
    before and no variable with an identifier has the key-id name. *)
Lemma resolved_accessKey_falsy (envVars : list TravisEnvVar.t) (ids : string * string) :
  falsy (fst (fold_left step envVars ids)) =
  if resolvable envVars (accessKeyIDLocation p) then false else falsy (fst ids).
Proof.
  revert ids; induction envVars as [| v vs IH]; intros [a b]; [reflexivity |].
  cbn [fold_left]. rewrite IH. unfold step, TravisCIPusher.resolveEnvVar.
  unfold resolvable; cbn [existsb].
  fold (resolvable vs (accessKeyIDLocation p)).
  destruct (resolvable vs (accessKeyIDLocation p)); [rewrite orb_true_r; reflexivity |].
  rewrite orb_false_r.
  destruct (falsy_opt (TravisEnvVar.id v)) eqn:Hid; cbn [negb];
    [rewrite andb_false_r; reflexivity |].
  rewrite andb_true_r.
  destruct (TravisCIPusher.nameIs v (accessKeyIDLocation p)); cbn [fst snd].
  - apply picked_id_not_falsy, Hid.
  - destruct (TravisCIPusher.nameIs v (secretAccessKeyLocation p)); reflexivity.
Qed.

Lemma resolved_secret_falsy (envVars : list TravisEnvVar.t) (ids : string * string) :
  falsy (snd (fold_left step envVars ids)) =
  if secretPicked p envVars then false else falsy (snd ids).
Proof.
  revert ids; induction envVars as [| v vs IH]; intros [a b]; [reflexivity |].
  cbn [fold_left]. rewrite IH. unfold step, TravisCIPusher.resolveEnvVar.
  unfold secretPicked; cbn [existsb]. fold (secretPicked p vs).
  destruct (secretPicked p vs); [rewrite orb_true_r; reflexivity |].
  rewrite orb_false_r.
  destruct (falsy_opt (TravisEnvVar.id v)) eqn:Hid; cbn [negb andb]; [reflexivity |].
  destruct (TravisCIPusher.nameIs v (accessKeyIDLocation p)); cbn [fst snd negb andb];
    [reflexivity |].
  destruct (TravisCIPusher.nameIs v (secretAccessKeyLocation p)); cbn [fst snd];
    [apply picked_id_not_falsy, Hid | reflexivity].
Qed.

Lemma nameIs_both (v : TravisEnvVar.t) (a b : string) :
  TravisCIPusher.nameIs v a = true -> TravisCIPusher.nameIs v b = true -> a = b.
Proof.
  unfold TravisCIPusher.nameIs. destruct (TravisEnvVar.name v) as [n |]; [| discriminate].
  intros Ha Hb. apply String.eqb_eq in Ha, Hb. congruence.
Qed.

(** With two different names the secret is picked exactly when it is
    resolvable; with one name for both it never is. *)
Lemma secretPicked_distinct (envVars : list TravisEnvVar.t) :
  accessKeyIDLocation p <> secretAccessKeyLocation p ->
  secretPicked p envVars = resolvable envVars (secretAccessKeyLocation p).
Proof.
  intros Hne. unfold secretPicked, resolvable.
  induction envVars as [| v vs IH]; [reflexivity |].
  cbn [existsb]. rewrite IH. f_equal.
  destruct (TravisCIPusher.nameIs v (secretAccessKeyLocation p)) eqn:Hs;
    [| rewrite andb_false_r; reflexivity].
  destruct (TravisCIPusher.nameIs v (accessKeyIDLocation p)) eqn:Ha.
  - exfalso. apply Hne. eapply nameIs_both; eassumption.
  - cbn [negb]. rewrite andb_true_r, andb_true_r. reflexivity.
Qed.

Lemma secretPicked_same (envVars : list TravisEnvVar.t) :
  accessKeyIDLocation p = secretAccessKeyLocation p -> secretPicked p envVars = false.
Proof.
  intros Heq. unfold secretPicked. rewrite <- Heq.
  induction envVars as [| v vs IH]; [reflexivity |].
  cbn [existsb]. rewrite IH.
  destruct (TravisCIPusher.nameIs v (accessKeyIDLocation p));
    cbn [negb]; rewrite ?andb_false_r; reflexivity.
Qed.

(** A handle the loop has set is the identifier of a variable of that
    name. *)
Lemma resolved_handles (envVars : list TravisEnvVar.t) (ids : string * string) :
  (fst (fold_left step envVars ids) = fst ids
   \/ handleOf envVars (accessKeyIDLocation p) (fst (fold_left step envVars ids)) = true)
  /\ (snd (fold_left step envVars ids) = snd ids
      \/ handleOf envVars (secretAccessKeyLocation p) (snd (fold_left step envVars ids)) = true).
Proof.
  revert ids; induction envVars as [| v vs IH]; intros [a b]; [split; left; reflexivity |].
  cbn [fold_left]. specialize (IH (step (a, b) v)).
  assert (Hcons : forall loc x,
             handleOf (v :: vs) loc x =
             (TravisCIPusher.nameIs v loc && negb (falsy_opt (TravisEnvVar.id v))
              && String.eqb (of_opt (TravisEnvVar.id v)) x) || handleOf vs loc x)
    by reflexivity.
  rewrite !Hcons. clear Hcons.
  destruct IH as [IH1 IH2].
  unfold step in IH1, IH2 |- *. unfold TravisCIPusher.resolveEnvVar in IH1, IH2 |- *.
  destruct (falsy_opt (TravisEnvVar.id v)) eqn:Hid; cbn [negb fst snd] in *.
  - split; [destruct IH1 as [H | H]; [left; exact H | right; rewrite H; apply orb_true_r]
           | destruct IH2 as [H | H]; [left; exact H | right; rewrite H; apply orb_true_r]].
  - destruct (TravisCIPusher.nameIs v (accessKeyIDLocation p)) eqn:Ha; cbn [fst snd andb] in *.
    + split.
      * right. destruct IH1 as [H | H]; [| rewrite H; apply orb_true_r].
        rewrite H, String.eqb_refl. reflexivity.
      * destruct IH2 as [H | H]; [left; exact H | right; rewrite H; apply orb_true_r].
    + destruct (TravisCIPusher.nameIs v (secretAccessKeyLocation p)) eqn:Hs;
        cbn [fst snd andb] in *.
      * split.
        -- destruct IH1 as [H | H]; [left; exact H | right; rewrite H; reflexivity].
        -- right. destruct IH2 as [H | H]; [| rewrite H; apply orb_true_r].
           rewrite H, String.eqb_refl. reflexivity.
      * split; [destruct IH1 as [H | H]; [left; exact H | right; rewrite H; reflexivity]
               | destruct IH2 as [H | H]; [left; exact H | right; rewrite H; reflexivity]].
Qed.
End Resolve.

(** ** Runs of the Travis pusher *)

Section PushRuns.
Context {S : Type} (h : Handler S) (client : AxiosInstance).
Context (newId newSecret : string) (p : Project).

Let repoSlug := TravisCIPusher.encodeURIComponent (project p).
Let listing := httpGet client (TravisCIPusher.envVarsUrl repoSlug).
Let announce := EvLog [Txt ("Pushing new credentials to Travis CI project '"
                            +++ project p +++ "'")].

(** A location is left unresolved: the project is given up after the
    listing. *)
Lemma pushProject_unresolved (s s1 : S) resp d envVars :
  h listing s = (s1, inr resp) -> data resp = Some d -> env_vars d = Some envVars ->
  falsy (fst (TravisCIPusher.resolveEnvVars p envVars))
  || falsy (snd (TravisCIPusher.resolveEnvVars p envVars)) = true ->
  exec h (TravisCIPusher.pushProject client newId newSecret p) s =
  (s1, [announce; EvCall listing (inr resp)],
   inl (if falsy (fst (TravisCIPusher.resolveEnvVars p envVars))
        then unableToFind (accessKeyIDLocation p)
        else unableToFind (secretAccessKeyLocation p))).
Proof.
  intros Hget Hdata Hvars Hun. unfold TravisCIPusher.pushProject.
  rewrite exec_bind, exec_log. cbv zeta. fold repoSlug. rewrite exec_bind.
  rewrite (exec_call h listing). fold listing. rewrite Hget; cbn [fst snd].
  rewrite Hdata, Hvars.
  destruct (TravisCIPusher.resolveEnvVars p envVars) as [a b]; cbn [fst snd] in *.
  destruct (falsy a); [reflexivity |].
  simpl in Hun. rewrite Hun. reflexivity.
Qed.

(** Both locations are resolved and the target accepts both updates. *)
Lemma pushProject_resolved (s s1 s2 s3 : S) resp d envVars r1 r2 :
  h listing s = (s1, inr resp) -> data resp = Some d -> env_vars d = Some envVars ->
  falsy (fst (TravisCIPusher.resolveEnvVars p envVars)) = false ->
  falsy (snd (TravisCIPusher.resolveEnvVars p envVars)) = false ->
  h (httpPatch client
       (TravisCIPusher.envVarUrl repoSlug (fst (TravisCIPusher.resolveEnvVars p envVars)))
       {| env_var_value := newId; env_var_public := true |}) s1 = (s2, inr r1) ->
  h (httpPatch client
       (TravisCIPusher.envVarUrl repoSlug (snd (TravisCIPusher.resolveEnvVars p envVars)))
       {| env_var_value := newSecret; env_var_public := false |}) s2 = (s3, inr r2) ->
  final (exec h (TravisCIPusher.pushProject client newId newSecret p) s) = s3
  /\ outcome (exec h (TravisCIPusher.pushProject client newId newSecret p) s) = inr tt
  /\ steps (trace (exec h (TravisCIPusher.pushProject client newId newSecret p) s)) =
     [Called listing;
      Called (httpPatch client
                (TravisCIPusher.envVarUrl repoSlug
                   (fst (TravisCIPusher.resolveEnvVars p envVars)))
                {| env_var_value := newId; env_var_public := true |});
      Called (httpPatch client
                (TravisCIPusher.envVarUrl repoSlug
                   (snd (TravisCIPusher.resolveEnvVars p envVars)))
                {| env_var_value := newSecret; env_var_public := false |})].
Proof.
  intros Hget Hdata Hvars Ha Hb Hp1 Hp2. unfold TravisCIPusher.pushProject.
  rewrite exec_bind, exec_log. cbv zeta. fold repoSlug. rewrite exec_bind.
  rewrite (exec_call h listing). fold listing. rewrite Hget; cbn [fst snd].
  rewrite Hdata, Hvars.
  destruct (TravisCIPusher.resolveEnvVars p envVars) as [a b]; cbn [fst snd] in *.
  rewrite Ha, Hb.
  rewrite exec_bind, exec_log, exec_bind.
  rewrite (exec_call h (httpPatch client (TravisCIPusher.envVarUrl repoSlug a)
                          {| env_var_value := newId; env_var_public := true |})).
  rewrite Hp1; cbn [fst snd].
  rewrite exec_bind, exec_log, exec_bind, exec_log, exec_bind.
  rewrite (exec_call h (httpPatch client (TravisCIPusher.envVarUrl repoSlug b)
                          {| env_var_value := newSecret; env_var_public := false |})).
  rewrite Hp2; cbn [fst snd]. rewrite exec_log.
  repeat split.
Qed.
End PushRuns.

Lemma resolveEnvVars_accessKey_falsy (p : Project) (envVars : list TravisEnvVar.t) :
  falsy (fst (TravisCIPusher.resolveEnvVars p envVars))
  = negb (resolvable envVars (accessKeyIDLocation p)).
Proof.
  unfold TravisCIPusher.resolveEnvVars. rewrite resolved_accessKey_falsy.
  destruct (resolvable envVars (accessKeyIDLocation p)); reflexivity.
Qed.

Lemma resolveEnvVars_secret_falsy (p : Project) (envVars : list TravisEnvVar.t) :
  falsy (snd (TravisCIPusher.resolveEnvVars p envVars)) = negb (secretPicked p envVars).
Proof.
  unfold TravisCIPusher.resolveEnvVars. rewrite resolved_secret_falsy.
  destruct (secretPicked p envVars); reflexivity.
Qed.

Lemma resolveEnvVars_handles (p : Project) (envVars : list TravisEnvVar.t) :
  (falsy (fst (TravisCIPusher.resolveEnvVars p envVars)) = false ->
   handleOf envVars (accessKeyIDLocation p)
     (fst (TravisCIPusher.resolveEnvVars p envVars)) = true)
  /\ (falsy (snd (TravisCIPusher.resolveEnvVars p envVars)) = false ->
      handleOf envVars (secretAccessKeyLocation p)
        (snd (TravisCIPusher.resolveEnvVars p envVars)) = true).
Proof.
  unfold TravisCIPusher.resolveEnvVars.
  destruct (resolved_handles p envVars (EmptyString, EmptyString)) as [[H1 | H1] [H2 | H2]];
    cbn [fst snd] in *; split; intros Hf;
    try (rewrite H1 in Hf; discriminate Hf);
    try (rewrite H2 in Hf; discriminate Hf); assumption.
Qed.

(** X18.  The push of one project, once the target has answered the
    listing with a body that carries the variables [envVars]: the pusher
    resolves the two location names among the variables that carry an
    identifier.  If the key-id name is not resolvable, the push of the
    project ends with the exception that names it and no update is sent.
    For a project whose two names differ: if the key-id name is resolvable
    and the secret name is not, the push ends with the exception that names
    the secret location and no update is sent; if both are resolvable, the
    handles are identifiers of variables of those names, and if the target
    accepts both updates the pusher has sent exactly two of them: the new
    key id to the key-id location, marked public, then the new secret to
    the secret location, marked not public. *)
Theorem pusher_overwrites_resolved_locations :
  forall (S : Type) (h : Handler S) client newId newSecret p (s s1 : S) resp d envVars,
    let repoSlug := TravisCIPusher.encodeURIComponent (project p) in
    h (httpGet client (TravisCIPusher.envVarsUrl repoSlug)) s = (s1, inr resp) ->
    data resp = Some d -> env_vars d = Some envVars ->
    let run := exec h (TravisCIPusher.pushProject client newId newSecret p) s in
    (resolvable envVars (accessKeyIDLocation p) = false ->
       outcome run = inl (unableToFind (accessKeyIDLocation p))
       /\ callsWhere isPatch (trace run) = [])
    /\ (accessKeyIDLocation p <> secretAccessKeyLocation p ->
        (resolvable envVars (accessKeyIDLocation p) = true ->
         resolvable envVars (secretAccessKeyLocation p) = false ->
         outcome run = inl (unableToFind (secretAccessKeyLocation p))
         /\ callsWhere isPatch (trace run) = [])
        /\ (resolvable envVars (accessKeyIDLocation p) = true ->
            resolvable envVars (secretAccessKeyLocation p) = true ->
            exists accessKeyEnvVarId secretAccessKeyEnvVarId,
              handleOf envVars (accessKeyIDLocation p) accessKeyEnvVarId = true
              /\ handleOf envVars (secretAccessKeyLocation p) secretAccessKeyEnvVarId = true
              /\ forall (s2 s3 : S) r1 r2,
                   h (httpPatch client (TravisCIPusher.envVarUrl repoSlug accessKeyEnvVarId)
                        {| env_var_value := newId; env_var_public := true |}) s1
                     = (s2, inr r1) ->
                   h (httpPatch client
                        (TravisCIPusher.envVarUrl repoSlug secretAccessKeyEnvVarId)
                        {| env_var_value := newSecret; env_var_public := false |}) s2
                     = (s3, inr r2) ->
                   outcome run = inr tt
                   /\ final run = s3
                   /\ steps (trace run) =
                      [Called (httpGet client (TravisCIPusher.envVarsUrl repoSlug));
                       Called (httpPatch client
                                 (TravisCIPusher.envVarUrl repoSlug accessKeyEnvVarId)
                                 {| env_var_value := newId; env_var_public := true |});
                       Called (httpPatch client
                                 (TravisCIPusher.envVarUrl repoSlug secretAccessKeyEnvVarId)
                                 {| env_var_value := newSecret;
                                    env_var_public := false |})])).
Proof.
  intros S h client newId newSecret p s s1 resp d envVars repoSlug Hget Hdata Hvars run.
  subst run repoSlug.
  pose proof (resolveEnvVars_accessKey_falsy p envVars) as Hfa.
  pose proof (resolveEnvVars_secret_falsy p envVars) as Hfs.
  split; [| intros Hne; split].
  - intros Hak. rewrite Hak in Hfa; cbn [negb] in Hfa.
    rewrite (pushProject_unresolved h client newId newSecret p s s1 resp d envVars
               Hget Hdata Hvars) by (rewrite Hfa; reflexivity).
    rewrite Hfa. split; reflexivity.
  - intros Hak Hsk. rewrite Hak in Hfa; cbn [negb] in Hfa.
    rewrite (secretPicked_distinct p envVars Hne), Hsk in Hfs; cbn [negb] in Hfs.
    rewrite (pushProject_unresolved h client newId newSecret p s s1 resp d envVars
               Hget Hdata Hvars) by (rewrite Hfa, Hfs; reflexivity).
    rewrite Hfa. split; reflexivity.
  - intros Hak Hsk. rewrite Hak in Hfa; cbn [negb] in Hfa.
    rewrite (secretPicked_distinct p envVars Hne), Hsk in Hfs; cbn [negb] in Hfs.
    destruct (resolveEnvVars_handles p envVars) as [Hh1 Hh2].
    exists (fst (TravisCIPusher.resolveEnvVars p envVars)),
           (snd (TravisCIPusher.resolveEnvVars p envVars)).
    split; [apply Hh1, Hfa |]. split; [apply Hh2, Hfs |].
    intros s2 s3 r1 r2 Hp1 Hp2.
    destruct (pushProject_resolved h client newId newSecret p s s1 s2 s3 resp d envVars r1 r2
                Hget Hdata Hvars Hfa Hfs Hp1 Hp2) as [Hfin [Hout Hsteps]].
    split; [exact Hout |]. split; [exact Hfin | exact Hsteps].
Qed.

Lemma pusher_overwrites_resolved_locations_witness :
  let client := TravisCIPusher.getTravisClient (Some "travis-token"%string) in
  let target := travisWith demoEnvVars in
  (outcome (exec target (TravisCIPusher.pushProject client "AKIA1" "secret1" strayProject) [])
     = inl (unableToFind "KEY_ID")
   /\ callsWhere isPatch
        (trace (exec target (TravisCIPusher.pushProject client "AKIA1" "secret1" strayProject) []))
      = [])
  /\ exists accessKeyEnvVarId secretAccessKeyEnvVarId,
       handleOf demoEnvVars "AWS_ACCESS_KEY_ID" accessKeyEnvVarId = true
       /\ handleOf demoEnvVars "AWS_SECRET_ACCESS_KEY" secretAccessKeyEnvVarId = true
       /\ outcome (exec target (TravisCIPusher.pushProject client "AKIA1" "secret1" demoProject) [])
          = inr tt
       /\ final (exec target (TravisCIPusher.pushProject client "AKIA1" "secret1" demoProject) [])
          = [(TravisCIPusher.envVarUrl "chrsmith%2Fpulumi-aws-travis-cicd-demo" accessKeyEnvVarId,
              {| env_var_value := "AKIA1"; env_var_public := true |});
             (TravisCIPusher.envVarUrl "chrsmith%2Fpulumi-aws-travis-cicd-demo"
                secretAccessKeyEnvVarId,
              {| env_var_value := "secret1"; env_var_public := false |})].
Proof.
  intros client target.
  assert (H : forall p,
             target (httpGet client (TravisCIPusher.envVarsUrl
                                       (TravisCIPusher.encodeURIComponent (project p)))) []
             = ([], inr {| data := Some {| env_vars := Some demoEnvVars |}; status := 200 |}))
    by reflexivity.
  split.
  - apply (proj1 (pusher_overwrites_resolved_locations _ target client "AKIA1"%string
                    "secret1"%string strayProject [] [] _ _ demoEnvVars
                    (H strayProject) eq_refl eq_refl)).
    reflexivity.
  - destruct (proj2 (proj2 (pusher_overwrites_resolved_locations _ target client
                              "AKIA1"%string "secret1"%string demoProject [] [] _ _ demoEnvVars
                              (H demoProject) eq_refl eq_refl)
                       ltac:(discriminate))
                eq_refl eq_refl)
      as [akId [skId [Hak [Hsk Hrun]]]].
    exists akId, skId. split; [exact Hak |]. split; [exact Hsk |].
    destruct (Hrun _ _ _ _ eq_refl eq_refl) as [Hout [Hfin _]].
    split; [exact Hout | exact Hfin].
Defined.

(** C9.  The pusher misses a project that names one variable for both
    locations.  The target lists a variable with an identifier under that
    name, so each of the two configured names resolves to a handle; the
    resolution loop looks for the secret name only at a variable that does
    not have the key-id name, the secret handle stays empty, and the push
    ends with the location reported as not found: nothing is overwritten. *)
Lemma same_location_names_fail_though_resolvable :
  let client := TravisCIPusher.getTravisClient (Some "travis-token"%string) in
  let run := exec (travisWith demoEnvVars)
               (TravisCIPusher.pushProject client "AKIA1" "secret1" sameNameProject) [] in
  resolvable demoEnvVars (accessKeyIDLocation sameNameProject) = true
  /\ resolvable demoEnvVars (secretAccessKeyLocation sameNameProject) = true
  /\ handleOf demoEnvVars (accessKeyIDLocation sameNameProject) "id-1" = true
  /\ handleOf demoEnvVars (secretAccessKeyLocation sameNameProject) "id-1" = true
  /\ outcome run = inl (unableToFind "AWS_ACCESS_KEY_ID")
  /\ outcome run
     = inl (Error "Unable to find Travis CI environment variable with name AWS_ACCESS_KEY_ID")
  /\ steps (trace run)
     = [Called (httpGet client "/repo/chrsmith%2Fpulumi-aws-travis-cicd-demo/env_vars")]
  /\ callsWhere isPatch (trace run) = []
  /\ final run = [].
Proof. vm_compute. repeat split. Qed.

(** ** Partial pushes *)

(** A loop whose turn for [x] throws after the turns before it completed
    ends there: the turns after [x] are not run. *)
Lemma for_of_stops {S X : Type} (h : Handler S) (body : X -> Prog unit)
    (done : list X) (x : X) (rest : list X) (s s1 s2 : S) (tr1 tr2 : list Event) (e : Exn) :
  exec h (for_of done body) s = (s1, tr1, inr tt) ->
  exec h (body x) s1 = (s2, tr2, inl e) ->
  exec h (for_of (done ++ x :: rest) body) s = (s2, tr1 ++ tr2, inl e).
Proof.
  revert s tr1; induction done as [| y done IH]; intros s tr1 Hdone Hx.
  - simpl in Hdone. injection Hdone as Hs Ht; subst s1 tr1.
    cbn [app]. rewrite exec_for_of_cons, Hx. reflexivity.
  - cbn [app]. rewrite exec_for_of_cons in Hdone |- *.
    destruct (exec h (body y) s) as [[sy try_] [ey | []]]; [discriminate Hdone |].
    destruct (exec h (for_of done body) sy) as [[s' tr'] r'] eqn:Hrest.
    injection Hdone as Hs Ht Hr; subst s' tr1 r'.
    rewrite (IH sy tr' Hrest Hx), app_assoc. reflexivity.
Qed.

(** Against a target that has the variables of every project of [done], the
    loop over [done] completes and leaves the two updates of each project
    applied. *)
Lemma travisWith_pushes_all (envVars : list TravisEnvVar.t) (client : AxiosInstance)
    (newId newSecret : string) (done : list Project) (applied : list (string * EnvVarPatch)) :
  forallb (resolves envVars) done = true ->
  final (exec (travisWith envVars)
           (for_of done (TravisCIPusher.pushProject client newId newSecret)) applied)
  = applied ++ flat_map (updatesFor envVars newId newSecret) done
  /\ outcome (exec (travisWith envVars)
                (for_of done (TravisCIPusher.pushProject client newId newSecret)) applied)
     = inr tt.
Proof.
  revert applied; induction done as [| q done IH]; intros applied Hall.
  - simpl. rewrite app_nil_r. split; reflexivity.
  - cbn [forallb] in Hall. apply andb_true_iff in Hall. destruct Hall as [Hq Hall].
    unfold resolves in Hq. apply andb_true_iff in Hq. destruct Hq as [Hqa Hqs].
    rewrite exec_for_of_cons.
    destruct (pushProject_resolved (travisWith envVars) client newId newSecret q
                applied applied _ _ _ _ envVars _ _ eq_refl eq_refl eq_refl
                ltac:(rewrite resolveEnvVars_accessKey_falsy, Hqa; reflexivity)
                ltac:(rewrite resolveEnvVars_secret_falsy, Hqs; reflexivity)
                eq_refl eq_refl) as [Hfin [Hout _]].
    destruct (exec (travisWith envVars)
                (TravisCIPusher.pushProject client newId newSecret q) applied)
      as [[sq trq] rq].
    unfold final, outcome in Hfin, Hout; cbn [fst snd] in Hfin, Hout. subst sq rq.
    destruct (IH ((applied ++ [(TravisCIPusher.envVarUrl
                                  (TravisCIPusher.encodeURIComponent (project q))
                                  (fst (TravisCIPusher.resolveEnvVars q envVars)),
                                {| env_var_value := newId; env_var_public := true |})])
                  ++ [(TravisCIPusher.envVarUrl
                         (TravisCIPusher.encodeURIComponent (project q))
                         (snd (TravisCIPusher.resolveEnvVars q envVars)),
                       {| env_var_value := newSecret; env_var_public := false |})]) Hall)
      as [IHf IHo].
    destruct (exec (travisWith envVars)
                (for_of done (TravisCIPusher.pushProject client newId newSecret)) _)
      as [[sd trd] rd].
    unfold final, outcome in *; cbn [fst snd] in *. subst sd rd.
    split; [| reflexivity].
    cbn [flat_map]. unfold updatesFor at 2; cbv zeta.
    rewrite <- !app_assoc. reflexivity.
Qed.

Lemma unresolved_is_falsy (p : Project) (envVars : list TravisEnvVar.t) :
  resolvable envVars (accessKeyIDLocation p) = false
  \/ resolvable envVars (secretAccessKeyLocation p) = false ->
  falsy (fst (TravisCIPusher.resolveEnvVars p envVars))
  || falsy (snd (TravisCIPusher.resolveEnvVars p envVars)) = true.
Proof.
  rewrite resolveEnvVars_accessKey_falsy, resolveEnvVars_secret_falsy.
  intros [H | H]; [rewrite H; reflexivity |].
  destruct (string_dec (accessKeyIDLocation p) (secretAccessKeyLocation p)) as [He | Hne].
  - rewrite (secretPicked_same p envVars He). apply orb_true_r.
  - rewrite (secretPicked_distinct p envVars Hne), H. apply orb_true_r.
Qed.

(** C10.  A project one of whose locations is not resolvable is given up
    right after its variables have been listed: the push ends with the
    exception that names a location not found, no update has been sent for
    the project and the target is as the listing left it.  The loop over
    the projects ends at the first project that throws: the run is the run
    over the projects before it followed by the failed attempt, and nothing
    of what those projects received is undone.  Against a target that keeps
    the updates it accepts, the projects before the failing one hold the new
    key id and the new secret when the push has failed. *)
Theorem unresolved_project_untouched_earlier_projects_updated :
  (forall (S : Type) (h : Handler S) client newId newSecret p (s s1 : S) resp d envVars,
      h (httpGet client (TravisCIPusher.envVarsUrl
                           (TravisCIPusher.encodeURIComponent (project p)))) s
        = (s1, inr resp) ->
      data resp = Some d -> env_vars d = Some envVars ->
      resolvable envVars (accessKeyIDLocation p) = false
      \/ resolvable envVars (secretAccessKeyLocation p) = false ->
      let run := exec h (TravisCIPusher.pushProject client newId newSecret p) s in
      (exists location, outcome run = inl (unableToFind location))
      /\ callsWhere isPatch (trace run) = []
      /\ final run = s1)
  /\ (forall (S : Type) (h : Handler S) cfg newId newSecret done p rest
             (s s1 s2 : S) tr1 tr2 e,
        projects cfg = Some (done ++ p :: rest) ->
        let client := TravisCIPusher.getTravisClient (accessKey cfg) in
        exec h (for_of done (TravisCIPusher.pushProject client newId newSecret)) s
          = (s1, tr1, inr tt) ->
        exec h (TravisCIPusher.pushProject client newId newSecret p) s1 = (s2, tr2, inl e) ->
        exec h (TravisCIPusher.pushNewCredentials cfg newId newSecret) s
          = (s2, tr1 ++ tr2, inl e))
  /\ (forall envVars cfg newId newSecret done p rest applied,
        projects cfg = Some (done ++ p :: rest) ->
        forallb (resolves envVars) done = true ->
        resolvable envVars (accessKeyIDLocation p) = false
        \/ resolvable envVars (secretAccessKeyLocation p) = false ->
        let run := exec (travisWith envVars)
                     (TravisCIPusher.pushNewCredentials cfg newId newSecret) applied in
        (exists location, outcome run = inl (unableToFind location))
        /\ final run = applied ++ flat_map (updatesFor envVars newId newSecret) done).
Proof.
  split; [| split].
  - intros S h client newId newSecret p s s1 resp d envVars Hget Hdata Hvars Hun run.
    subst run.
    rewrite (pushProject_unresolved h client newId newSecret p s s1 resp d envVars
               Hget Hdata Hvars (unresolved_is_falsy p envVars Hun)).
    split; [| split; reflexivity].
    unfold outcome; cbn [snd].
    destruct (falsy (fst (TravisCIPusher.resolveEnvVars p envVars))); eexists; reflexivity.
  - intros S h cfg newId newSecret done p rest s s1 s2 tr1 tr2 e Hps client Hdone Hp.
    unfold TravisCIPusher.pushNewCredentials; cbv zeta. rewrite Hps.
    apply (for_of_stops h _ done p rest s s1 s2 tr1 tr2 e Hdone Hp).
  - intros envVars cfg newId newSecret done p rest applied Hps Hall Hun run. subst run.
    unfold TravisCIPusher.pushNewCredentials; cbv zeta. rewrite Hps.
    destruct (travisWith_pushes_all envVars (TravisCIPusher.getTravisClient (accessKey cfg))
                newId newSecret done applied Hall) as [Hfin Hout].
    destruct (exec (travisWith envVars)
                (for_of done (TravisCIPusher.pushProject
                                (TravisCIPusher.getTravisClient (accessKey cfg))
                                newId newSecret)) applied) as [[s1 tr1] r1] eqn:Hdone.
    unfold final, outcome in Hfin, Hout; cbn [fst snd] in Hfin, Hout. subst s1 r1.
    rewrite (for_of_stops (travisWith envVars) _ done p rest applied _ _ tr1 _ _ Hdone
               (pushProject_unresolved (travisWith envVars) _ newId newSecret p _ _ _ _ envVars
                  eq_refl eq_refl eq_refl (unresolved_is_falsy p envVars Hun))).
    unfold final, outcome; cbn [fst snd]. split; [| reflexivity].
    destruct (falsy (fst (TravisCIPusher.resolveEnvVars p envVars))); eexists; reflexivity.
Qed.

Lemma unresolved_project_untouched_earlier_projects_updated_witness :
  let cfg := {| accessKey := Some "travis-token"%string;
                projects := Some [demoProject; strayProject; demoProject] |} in
  let client := TravisCIPusher.getTravisClient (Some "travis-token"%string) in
  let target := travisWith demoEnvVars in
  ((exists location,
       outcome (exec target (TravisCIPusher.pushProject client "AKIA1" "secret1" strayProject) [])
       = inl (unableToFind location))
   /\ callsWhere isPatch
        (trace (exec target (TravisCIPusher.pushProject client "AKIA1" "secret1" strayProject) []))
      = []
   /\ final (exec target (TravisCIPusher.pushProject client "AKIA1" "secret1" strayProject) [])
      = [])
  /\ (exists tr, exec target (TravisCIPusher.pushNewCredentials cfg "AKIA1" "secret1") []
                 = (updatesFor demoEnvVars "AKIA1" "secret1" demoProject, tr,
                    inl (unableToFind "KEY_ID")))
  /\ ((exists location,
         outcome (exec target (TravisCIPusher.pushNewCredentials cfg "AKIA1" "secret1") [])
         = inl (unableToFind location))
      /\ final (exec target (TravisCIPusher.pushNewCredentials cfg "AKIA1" "secret1") [])
         = [("/repo/chrsmith%2Fpulumi-aws-travis-cicd-demo/env_var/id-1"%string,
             {| env_var_value := "AKIA1"; env_var_public := true |});
            ("/repo/chrsmith%2Fpulumi-aws-travis-cicd-demo/env_var/id-2"%string,
             {| env_var_value := "secret1"; env_var_public := false |})]).
Proof.
  intros cfg client target. split; [| split].
  - apply (proj1 unresolved_project_untouched_earlier_projects_updated
             _ target client "AKIA1"%string "secret1"%string strayProject [] []
             {| data := Some {| env_vars := Some demoEnvVars |}; status := 200 |}
             {| env_vars := Some demoEnvVars |} demoEnvVars eq_refl eq_refl eq_refl).
    left; reflexivity.
  - eexists.
    eapply (proj1 (proj2 unresolved_project_untouched_earlier_projects_updated)
             _ target cfg "AKIA1"%string "secret1"%string [demoProject] strayProject
             [demoProject] [] (updatesFor demoEnvVars "AKIA1" "secret1" demoProject)
             (updatesFor demoEnvVars "AKIA1" "secret1" demoProject) _ _ _ eq_refl);
      reflexivity.
  - apply (proj2 (proj2 unresolved_project_untouched_earlier_projects_updated)
             demoEnvVars cfg "AKIA1"%string "secret1"%string [demoProject] strayProject
             [demoProject] [] eq_refl eq_refl).
    left; reflexivity.
Defined.

(** ** The scenarios of the specification, run on the simulated store *)

(** Scenario A: no key yet; a key is created and handed on. *)
Example scenario_no_keys :
  steps (trace (invocation sampleArgs emptyStore 3 false)) =
    [Called (listAccessKeys "cicd-bot"); Called (createAccessKey "cicd-bot"); Slept 1000;
     Called (servicePush (demoConfiguration "travis-token") "AKIA0" "secret0")]
  /\ keys (final (invocation sampleArgs emptyStore 3 false)) = [sampleKey 0 "Active" 3].
Proof. split; reflexivity. Qed.

(** Scenario B: two Active keys, fetched oldest first; the older one is
    invalidated. *)
Example scenario_two_active :
  let s := storeOf [sampleKey 1 "Active" 10; sampleKey 2 "Active" 20] 3 in
  steps (trace (invocation sampleArgs s 30 false)) =
    [Called (listAccessKeys "cicd-bot");
     Called (updateAccessKey "cicd-bot" "AKIA1" "Inactive")]
  /\ keys (final (invocation sampleArgs s 30 false)) =
     [sampleKey 1 "Inactive" 10; sampleKey 2 "Active" 20].
Proof. split; reflexivity. Qed.

(** Scenario C: the older key is Inactive; it is deleted. *)
Example scenario_older_inactive :
  let s := storeOf [sampleKey 1 "Inactive" 10; sampleKey 2 "Active" 20] 3 in
  steps (trace (invocation sampleArgs s 30 false)) =
    [Called (listAccessKeys "cicd-bot"); Called (deleteAccessKey "cicd-bot" "AKIA1")]
  /\ keys (final (invocation sampleArgs s 30 false)) = [sampleKey 2 "Active" 20].
Proof. split; reflexivity. Qed.

(** Scenario D: three keys; nothing is changed and the exception is
    printed. *)
Example scenario_three_keys :
  let l := [sampleKey 1 "Active" 10; sampleKey 2 "Active" 20; sampleKey 3 "Active" 30] in
  steps (trace (invocation sampleArgs (storeOf l 4) 40 false)) =
    [Called (listAccessKeys "cicd-bot")]
  /\ keys (final (invocation sampleArgs (storeOf l 4) 40 false)) = l
  /\ In [Txt ("Unhandled exception:" +++ nl);
         ErrObj (Error "Unexpected number of access keys (3)")]
        (logged (trace (invocation sampleArgs (storeOf l 4) 40 false))).
Proof. split; [reflexivity |]. split; [reflexivity |]. vm_compute. tauto. Qed.

(** Keys created at the same time stay in the order they were fetched in. *)
Example sort_keeps_ties_in_order :
  sort compareCreateDate
    [sampleKey 1 "Active" 10; sampleKey 2 "Active" 20; sampleKey 3 "Active" 10;
     sampleKey 4 "Active" 20]
  = [sampleKey 2 "Active" 20; sampleKey 4 "Active" 20; sampleKey 1 "Active" 10;
     sampleKey 3 "Active" 10].
Proof. reflexivity. Qed.

Example encodeURIComponent_slug :
  TravisCIPusher.encodeURIComponent "chrsmith/pulumi-aws-travis-cicd-demo"
  = "chrsmith%2Fpulumi-aws-travis-cicd-demo"%string.
Proof. reflexivity. Qed.

Example validateConfiguration_cases :
  TravisCIPusher.validateConfiguration (demoConfiguration "travis-token") = None
  /\ TravisCIPusher.validateConfiguration (demoConfiguration "")
     = Some "No Travis CI access key provided."%string
  /\ TravisCIPusher.validateConfiguration
       {| accessKey := Some "travis-token"%string; projects := Some [] |}
     = Some "No projects to push credentials to."%string
  /\ TravisCIPusher.validateConfiguration
       {| accessKey := None; projects := None |}
     = Some "No Travis CI access key provided."%string.
Proof. repeat split. Qed.

(** The demo project against the demo variables: both updates arrive. *)
Example push_demo_project :
  final (exec (travisWith demoEnvVars)
           (TravisCIPusher.pushNewCredentials (demoConfiguration "travis-token")
              "AKIA1" "secret1") [])
  = [("/repo/chrsmith%2Fpulumi-aws-travis-cicd-demo/env_var/id-1"%string,
      {| env_var_value := "AKIA1"; env_var_public := true |});
     ("/repo/chrsmith%2Fpulumi-aws-travis-cicd-demo/env_var/id-2"%string,
      {| env_var_value := "secret1"; env_var_public := false |})].
Proof. reflexivity. Qed.

(** * Further properties of the rotation *)

Ltac read_calls :=
  unfold trace, final, outcome; cbn [fst snd];
  repeat progress
    (cbn [steps stepOf callsWhere logged app isMutation isCreate isUpdate isDelete
          isDistribution isList orb pushFailed pushingOut stepComplete unhandled
          List.length];
     rewrite ?steps_app, ?callsWhere_app, ?logged_app,
             ?steps_keyListing, ?callsWhere_keyListing).

(** ** What an invocation never does *)

(** X1.  [rotateIAMUserKeys] never throws: whatever the store answers and
    whatever the callback does, the call returns normally. *)
Theorem rotateIAMUserKeys_never_throws :
  forall (S : Type) (h : Handler S) u cb (s : S),
    outcome (exec h (rotateIAMUserKeys u cb) s) = inr tt.
Proof.
  intros S h u cb s. rewrite exec_rotateIAMUserKeys.
  destruct (exec h (rotateSteps u cb) s) as [[s1 tr] [err | []]]; reflexivity.
Qed.

(** The callback of the Lambda never throws, whatever service the pusher
    wraps. *)
Lemma onNewCredentials_never_throws {S : Type} (h : Handler S)
    (args : AccessKeyRotatorArgs) (newKey newSecret : string) (s : S) :
  outcome (exec h (onNewCredentials args newKey newSecret) s) = inr tt.
Proof.
  unfold onNewCredentials. rewrite exec_try_catch.
  destruct (exec h (log [Txt "Pushing out the new key to 3rd party services..."] ;;
                    push (credentialPusher args) newKey newSecret) s)
    as [[s1 tr] [err | []]]; reflexivity.
Qed.

(** X2.  With any pusher, over any service: once the store has created the
    key, the run of the Lambda is the fetch, the listing, the creation, the
    sleep, then the run of the callback on the identifier and the secret of
    the new key, then the completion line.  Whatever happens to the push,
    the callback returns normally and the step is reported complete. *)
Theorem lambda_completes_whatever_the_push :
  forall (S : Type) (h : Handler S) args (s s1 s2 : S) fetched newKey,
    h (listAccessKeys (User.name (user args))) s = (s1, inr fetched) ->
    List.length fetched <= 1 ->
    h (createAccessKey (User.name (user args))) s1 = (s2, inr newKey) ->
    let callback := exec h (onNewCredentials args (AccessKey.AccessKeyId newKey)
                              (AccessKey.SecretAccessKey newKey)) s2 in
    outcome callback = inr tt
    /\ exec h (keyRotatorLambda args) s =
       (final callback,
        EvCall (listAccessKeys (User.name (user args))) (inr fetched)
        :: keyListing (sort compareCreateDate fetched)
        ++ [EvCall (createAccessKey (User.name (user args))) (inr newKey);
            EvLog [Txt ("Created new key key " +++ AccessKey.AccessKeyId newKey)];
            EvSleep 1000]
        ++ trace callback ++ [stepComplete],
        inr tt).
Proof.
  intros S h args s s1 s2 fetched newKey Hlist Hlen Hcreate callback. subst callback.
  pose proof (onNewCredentials_never_throws h args (AccessKey.AccessKeyId newKey)
                (AccessKey.SecretAccessKey newKey) s2) as Hc.
  split; [exact Hc |].
  unfold keyRotatorLambda; cbv zeta.
  rewrite exec_rotateIAMUserKeys, exec_rotateSteps, Hlist; cbn [fst snd].
  rewrite exec_rotateSorted_few by (rewrite sort_length; exact Hlen).
  rewrite Hcreate.
  destruct (exec h (onNewCredentials args (AccessKey.AccessKeyId newKey)
                      (AccessKey.SecretAccessKey newKey)) s2) as [[s3 tr] r].
  unfold outcome in Hc; cbn [snd] in Hc. subst r. reflexivity.
Qed.

Lemma lambda_completes_whatever_the_push_witness :
  let args := {| user := cicdUser; interval := "rate(1 hour)";
                 credentialPusher := {| service := TravisCIPusher.new;
                                        config := demoConfiguration "travis-token" |} |} in
  outcome (exec simHandler (keyRotatorLambda args) emptyStore) = inr tt
  /\ exists tr, trace (exec simHandler (keyRotatorLambda args) emptyStore)
                = tr ++ [stepComplete].
Proof.
  intros args.
  destruct (lambda_completes_whatever_the_push Sim simHandler args emptyStore emptyStore
              (fst (simHandler (createAccessKey "cicd-bot") emptyStore)) []
              (AccessKey.Build_t "cicd-bot" "AKIA0" "Active" "secret0" 0)
              eq_refl (Nat.le_0_l 1) eq_refl) as [_ Hrun].
  rewrite Hrun. split; [reflexivity |].
  eexists. unfold trace; cbn [fst snd].
  rewrite app_comm_cons, !app_assoc. reflexivity.
Defined.

(** X3.  One invocation of the Lambda fetches the keys exactly once, asks
    the store for at most one change and calls the distributor at most
    once; the distributor is called only in an invocation whose one change
    is the creation of a key. *)
Theorem lambda_at_most_one_change :
  forall (S : Type) (h : Handler S) u rate validate cfg (s : S),
    let run := exec h (keyRotatorLambda (externalArgs u rate validate cfg)) s in
    callsWhere isList (trace run) = [listAccessKeys (User.name u)]
    /\ List.length (callsWhere isMutation (trace run)) <= 1
    /\ List.length (callsWhere isDistribution (trace run)) <= 1
    /\ (callsWhere isDistribution (trace run) <> [] ->
        callsWhere isMutation (trace run) = [createAccessKey (User.name u)]).
Proof.
  intros S h u rate validate cfg s run. subst run.
  destruct (h (listAccessKeys (User.name u)) s) as [s1 [e | fetched]] eqn:Hlist.
  - unfold keyRotatorLambda; cbv zeta.
    rewrite exec_rotateIAMUserKeys, exec_rotateSteps.
    replace (user (externalArgs u rate validate cfg)) with u by reflexivity.
    rewrite Hlist. read_calls.
    repeat split; auto. intros H; exfalso; apply H; reflexivity.
  - destruct (le_lt_dec (List.length fetched) 1) as [Hle | Hgt].
    + rewrite (lambda_run_few h u rate validate cfg s s1 fetched Hlist Hle).
      destruct (h (createAccessKey (User.name u)) s1) as [s2 [e | newKey]].
      * read_calls. repeat split; auto.
      * rewrite exec_onNewCredentials.
        destruct (h (servicePush cfg (AccessKey.AccessKeyId newKey)
                       (AccessKey.SecretAccessKey newKey)) s2) as [s3 [e | x]];
          read_calls; repeat split; auto.
    + destruct (le_lt_dec (List.length fetched) 2) as [Hle2 | Hgt2].
      * assert (Hlen : List.length fetched = 2) by lia.
        destruct (nth_error_second (sort compareCreateDate fetched)) as [older Hn];
          [rewrite sort_length; exact Hlen |].
        rewrite (lambda_run_two h u rate validate cfg s s1 fetched older Hlist Hlen Hn).
        rewrite (exec_rotateSorted_two h u _ _ older s1) by
          (rewrite ?sort_length; assumption).
        destruct (String.eqb (Status older) "Active");
          [| destruct (String.eqb (Status older) "Inactive")].
        -- destruct (h (updateAccessKey (User.name u) (AccessKeyId older) "Inactive") s1)
             as [s2 [e | x]]; read_calls; repeat split; auto;
             intros H; exfalso; apply H; reflexivity.
        -- destruct (h (deleteAccessKey (User.name u) (AccessKeyId older)) s1)
             as [s2 [e | x]]; read_calls; repeat split; auto;
             intros H; exfalso; apply H; reflexivity.
        -- read_calls; repeat split; auto. intros H; exfalso; apply H; reflexivity.
      * rewrite (lambda_run_many h u rate validate cfg s s1 fetched Hlist Hgt2).
        read_calls. repeat split; auto. intros H; exfalso; apply H; reflexivity.
Qed.

Lemma lambda_at_most_one_change_witness :
  callsWhere isMutation (trace (invocation sampleArgs emptyStore 3 false))
  = [createAccessKey "cicd-bot"].
Proof.
  apply (proj2 (proj2 (proj2 (lambda_at_most_one_change Sim simHandler cicdUser
                                "rate(1 hour)"%string TravisCIPusher.validateConfiguration
                                (demoConfiguration "travis-token")
                                (Build_Sim [] 0 3 false))))).
  vm_compute. discriminate.
Defined.

(** ** Store calls that are rejected *)

(** X4.  A store call that is rejected ends the step, whatever the callback:
    nothing is called after it, the exception is printed as unhandled, the
    completion line is not printed and the call returns normally.  A
    rejected fetch is all the run consists of; a rejected creation is
    followed neither by the sleep nor by the callback. *)
Theorem rejected_store_call_ends_the_step :
  forall (S : Type) (h : Handler S) u cb (s s1 : S),
    (forall e,
        h (listAccessKeys (User.name u)) s = (s1, inl e) ->
        exec h (rotateIAMUserKeys u cb) s =
        (s1, [EvCall (listAccessKeys (User.name u)) (inl e); unhandled e], inr tt))
    /\ (forall fetched (s2 : S) e,
          h (listAccessKeys (User.name u)) s = (s1, inr fetched) ->
          List.length fetched <= 1 ->
          h (createAccessKey (User.name u)) s1 = (s2, inl e) ->
          exec h (rotateIAMUserKeys u cb) s =
          (s2, EvCall (listAccessKeys (User.name u)) (inr fetched)
               :: keyListing (sort compareCreateDate fetched)
               ++ [EvCall (createAccessKey (User.name u)) (inl e); unhandled e],
           inr tt))
    /\ (forall fetched older (s2 : S) e,
          h (listAccessKeys (User.name u)) s = (s1, inr fetched) ->
          List.length fetched = 2 ->
          nth_error (sort compareCreateDate fetched) 1 = Some older ->
          Status older = "Active"%string ->
          h (updateAccessKey (User.name u) (AccessKeyId older) "Inactive") s1 = (s2, inl e) ->
          exec h (rotateIAMUserKeys u cb) s =
          (s2, EvCall (listAccessKeys (User.name u)) (inr fetched)
               :: keyListing (sort compareCreateDate fetched)
               ++ [EvLog [Txt ("Invalidating older access key " +++ AccessKeyId older)];
                   EvCall (updateAccessKey (User.name u) (AccessKeyId older) "Inactive")
                     (inl e);
                   unhandled e],
           inr tt))
    /\ (forall fetched older (s2 : S) e,
          h (listAccessKeys (User.name u)) s = (s1, inr fetched) ->
          List.length fetched = 2 ->
          nth_error (sort compareCreateDate fetched) 1 = Some older ->
          Status older = "Inactive"%string ->
          h (deleteAccessKey (User.name u) (AccessKeyId older)) s1 = (s2, inl e) ->
          exec h (rotateIAMUserKeys u cb) s =
          (s2, EvCall (listAccessKeys (User.name u)) (inr fetched)
               :: keyListing (sort compareCreateDate fetched)
               ++ [EvLog [Txt ("Deleting older, inactive access key " +++ AccessKeyId older
                               +++ " [" +++ Status older +++ "]")];
                   EvCall (deleteAccessKey (User.name u) (AccessKeyId older)) (inl e);
                   unhandled e],
           inr tt)).
Proof.
  intros S h u cb s s1. split; [| split; [| split]].
  - intros e Hlist. rewrite exec_rotateIAMUserKeys, exec_rotateSteps, Hlist. reflexivity.
  - intros fetched s2 e Hlist Hlen Hcreate.
    rewrite exec_rotateIAMUserKeys, exec_rotateSteps, Hlist; cbn [fst snd].
    rewrite exec_rotateSorted_few by (rewrite sort_length; exact Hlen).
    rewrite Hcreate. cbn [app]. rewrite <- app_assoc. reflexivity.
  - intros fetched older s2 e Hlist Hlen Hn Hst Hupd.
    rewrite exec_rotateIAMUserKeys, exec_rotateSteps, Hlist; cbn [fst snd].
    rewrite (exec_rotateSorted_two h u _ _ older s1) by (rewrite ?sort_length; assumption).
    rewrite Hst, Hupd. cbn [String.eqb Ascii.eqb Bool.eqb andb app].
    rewrite <- app_assoc. reflexivity.
  - intros fetched older s2 e Hlist Hlen Hn Hst Hdel.
    rewrite exec_rotateIAMUserKeys, exec_rotateSteps, Hlist; cbn [fst snd].
    rewrite (exec_rotateSorted_two h u _ _ older s1) by (rewrite ?sort_length; assumption).
    rewrite Hst in *. rewrite Hdel. cbn [String.eqb Ascii.eqb Bool.eqb andb app].
    rewrite <- app_assoc. reflexivity.
Qed.

Lemma rejected_store_call_ends_the_step_witness :
  let cb := onNewCredentials sampleArgs in
  let two := [sampleKey 0 "Active" 5; sampleKey 1 "Active" 9] in
  let two' := [sampleKey 0 "Inactive" 5; sampleKey 1 "Active" 9] in
  exec (travisWith []) (rotateIAMUserKeys cicdUser cb) []
  = ([], [EvCall (listAccessKeys "cicd-bot") (inl (Error "not an IAM endpoint"));
          unhandled (Error "not an IAM endpoint")], inr tt)
  /\ steps (trace (exec readOnlyStore (rotateIAMUserKeys cicdUser cb) emptyStore))
     = [Called (listAccessKeys "cicd-bot"); Called (createAccessKey "cicd-bot")]
  /\ steps (trace (exec readOnlyStore (rotateIAMUserKeys cicdUser cb) (storeOf two 2)))
     = [Called (listAccessKeys "cicd-bot");
        Called (updateAccessKey "cicd-bot" "AKIA0" "Inactive")]
  /\ steps (trace (exec readOnlyStore (rotateIAMUserKeys cicdUser cb) (storeOf two' 2)))
     = [Called (listAccessKeys "cicd-bot"); Called (deleteAccessKey "cicd-bot" "AKIA0")].
Proof.
  intros cb two two'.
  pose proof (rejected_store_call_ends_the_step _ (travisWith []) cicdUser cb [] [])
    as [H1 _].
  pose proof (rejected_store_call_ends_the_step _ readOnlyStore cicdUser cb
                emptyStore emptyStore) as [_ [H2 _]].
  pose proof (rejected_store_call_ends_the_step _ readOnlyStore cicdUser cb
                (storeOf two 2) (storeOf two 2)) as [_ [_ [H3 _]]].
  pose proof (rejected_store_call_ends_the_step _ readOnlyStore cicdUser cb
                (storeOf two' 2) (storeOf two' 2)) as [_ [_ [_ H4]]].
  split; [apply (H1 (Error "not an IAM endpoint") eq_refl) |].
  split; [rewrite (H2 [] emptyStore (Error "AccessDenied") eq_refl (Nat.le_0_l 1) eq_refl);
          reflexivity |].
  split; [rewrite (H3 two (sampleKey 0 "Active" 5) (storeOf two 2) (Error "AccessDenied")
                     eq_refl eq_refl eq_refl eq_refl eq_refl); reflexivity |].
  rewrite (H4 two' (sampleKey 0 "Inactive" 5) (storeOf two' 2) (Error "AccessDenied")
             eq_refl eq_refl eq_refl eq_refl eq_refl); reflexivity.
Defined.

(** ** Which of two keys is the older one *)

Lemma sort_two (a b : AccessKeyMetadata) :
  sort compareCreateDate [a; b] =
  if (CreateDate b <=? CreateDate a)%Z then [a; b] else [b; a].
Proof. cbn [sort insert]. rewrite compareCreateDate_le. reflexivity. Qed.

(** X5.  Of two fetched keys the rotation acts on the first one only when
    it was created strictly before the second; otherwise it acts on the
    second.  So when both carry the same creation time the key that the
    store lists second is the one invalidated or deleted. *)
Theorem tie_acts_on_second_listed :
  forall (S : Type) (h : Handler S) u cb (s s1 : S) a b,
    h (listAccessKeys (User.name u)) s = (s1, inr [a; b]) ->
    let run := exec h (rotateIAMUserKeys u cb) s in
    let older := if (CreateDate a <? CreateDate b)%Z then a else b in
    nth_error (sort compareCreateDate [a; b]) 1 = Some older
    /\ (Status older = "Active"%string ->
        callsWhere isMutation (trace run)
        = [updateAccessKey (User.name u) (AccessKeyId older) "Inactive"])
    /\ (Status older = "Inactive"%string ->
        callsWhere isMutation (trace run)
        = [deleteAccessKey (User.name u) (AccessKeyId older)])
    /\ (CreateDate a = CreateDate b -> older = b).
Proof.
  intros S h u cb s s1 a b Hlist run older. subst run.
  assert (Hn : nth_error (sort compareCreateDate [a; b]) 1 = Some older).
  { rewrite sort_two. subst older.
    destruct (Z.leb_spec (CreateDate b) (CreateDate a)) as [Hle | Hlt];
      destruct (Z.ltb_spec (CreateDate a) (CreateDate b)) as [Hlt' | Hge];
      try reflexivity; lia. }
  split; [exact Hn |].
  rewrite exec_rotateIAMUserKeys, exec_rotateSteps, Hlist; cbn [fst snd].
  rewrite (exec_rotateSorted_two h u _ (sort compareCreateDate [a; b]) older s1)
    by (rewrite ?sort_length; auto).
  split; [| split].
  - intros Hst. rewrite Hst. cbn [String.eqb Ascii.eqb Bool.eqb andb].
    destruct (h (updateAccessKey (User.name u) (AccessKeyId older) "Inactive") s1)
      as [s2 [e | x]]; read_calls; reflexivity.
  - intros Hst. rewrite Hst. cbn [String.eqb Ascii.eqb Bool.eqb andb].
    destruct (h (deleteAccessKey (User.name u) (AccessKeyId older)) s1)
      as [s2 [e | x]]; read_calls; reflexivity.
  - intros Heq. subst older. rewrite Heq, Z.ltb_irrefl. reflexivity.
Qed.

Lemma tie_acts_on_second_listed_witness :
  let a := sampleKey 0 "Active" 5 in
  let b := sampleKey 1 "Active" 5 in
  callsWhere isMutation
    (trace (exec simHandler (rotateIAMUserKeys cicdUser (onNewCredentials sampleArgs))
              (storeOf [a; b] 2)))
  = [updateAccessKey "cicd-bot" "AKIA1" "Inactive"].
Proof.
  intros a b.
  apply (proj1 (proj2 (tie_acts_on_second_listed Sim simHandler cicdUser
                         (onNewCredentials sampleArgs) (storeOf [a; b] 2) (storeOf [a; b] 2)
                         a b eq_refl))).
  reflexivity.
Defined.

(** ** The life of a key on the simulated store *)

Lemma setStatus_self (status : string) (k : AccessKeyMetadata) :
  setStatus (AccessKeyId k) status k =
  {| UserName := UserName k; AccessKeyId := AccessKeyId k;
     Status := status; CreateDate := CreateDate k |}.
Proof. unfold setStatus. rewrite String.eqb_refl. reflexivity. Qed.

Lemma setStatus_other (accessKeyId status : string) (k : AccessKeyMetadata) :
  AccessKeyId k <> accessKeyId -> setStatus accessKeyId status k = k.
Proof.
  intros H. unfold setStatus. apply String.eqb_neq in H. rewrite H. reflexivity.
Qed.

(** X6.  From a store that holds one Active key [k], three invocations in a
    row, the first at a time after the creation of [k], run the whole cycle:
    the first creates a successor beside [k], the second sets [k] to
    Inactive, the third deletes [k] and leaves the successor alone.  So a
    key stays usable for exactly one invocation after its successor was
    created, and is gone one invocation later, whether or not the pushes
    went through. *)
Theorem rotation_cycle_takes_three_invocations :
  forall u rate validate cfg (s : Sim) k (t1 t2 t3 : Z) (d1 d2 d3 : bool),
    keys s = [k] -> Status k = "Active"%string ->
    AccessKeyId k <> keyIdOf (issued s) ->
    (CreateDate k < t1)%Z ->
    let args := externalArgs u rate validate cfg in
    let s1 := final (invocation args s t1 d1) in
    let s2 := final (invocation args s1 t2 d2) in
    let s3 := final (invocation args s2 t3 d3) in
    keys s1 = [k; createdKey u s t1]
    /\ keys s2 = [setStatus (AccessKeyId k) "Inactive" k; createdKey u s t1]
    /\ keys s3 = [createdKey u s t1]
    /\ issued s3 = Datatypes.S (issued s).
Proof.
  intros u rate validate cfg s k t1 t2 t3 d1 d2 d3 Hkeys Hact Hfresh Hclock args s1 s2 s3.
  assert (H1 : keys s1 = [k; createdKey u s t1] /\ issued s1 = Datatypes.S (issued s)).
  { subst s1 args. rewrite invocation_few by (rewrite Hkeys; simpl; lia).
    unfold final; cbn [fst keys issued]. rewrite Hkeys. split; reflexivity. }
  destruct H1 as [Hk1 Hi1].
  assert (Hn1 : nth_error (sort compareCreateDate (keys s1)) 1 = Some k).
  { rewrite Hk1, sort_two. cbn [createdKey CreateDate].
    destruct (Z.leb_spec t1 (CreateDate k)); [lia | reflexivity]. }
  assert (H2 : keys s2 = [setStatus (AccessKeyId k) "Inactive" k; createdKey u s t1]
               /\ issued s2 = Datatypes.S (issued s)).
  { subst s2 args.
    destruct (invocation_two u rate validate cfg s1 t2 d2 k
                ltac:(rewrite Hk1; reflexivity) Hn1) as [Hi [Hk _]].
    rewrite Hi, Hk, Hact, Hk1, Hi1. cbn [String.eqb Ascii.eqb Bool.eqb andb map].
    rewrite (setStatus_other (AccessKeyId k) "Inactive" (createdKey u s t1))
      by (cbn [createdKey AccessKeyId]; congruence).
    split; reflexivity. }
  destruct H2 as [Hk2 Hi2].
  assert (Hn2 : nth_error (sort compareCreateDate (keys s2)) 1
                = Some (setStatus (AccessKeyId k) "Inactive" k)).
  { rewrite Hk2, sort_two, setStatus_self. cbn [createdKey CreateDate].
    destruct (Z.leb_spec t1 (CreateDate k)); [lia | reflexivity]. }
  split; [exact Hk1 |]. split; [exact Hk2 |].
  subst s3 args.
  destruct (invocation_two u rate validate cfg s2 t3 d3 _
              ltac:(rewrite Hk2; reflexivity) Hn2) as [Hi [Hk _]].
  rewrite Hi, Hk, Hk2, Hi2. rewrite !setStatus_self.
  cbn [Status AccessKeyId String.eqb Ascii.eqb Bool.eqb andb filter createdKey].
  rewrite String.eqb_refl. cbn [negb].
  apply not_eq_sym, String.eqb_neq in Hfresh. rewrite Hfresh. cbn [negb].
  split; reflexivity.
Qed.

Lemma rotation_cycle_takes_three_invocations_witness :
  let s := storeOf [sampleKey 0 "Active" 5] 1 in
  let s1 := final (invocation sampleArgs s 10 false) in
  let s2 := final (invocation sampleArgs s1 20 true) in
  let s3 := final (invocation sampleArgs s2 30 false) in
  keys s1 = [sampleKey 0 "Active" 5; sampleKey 1 "Active" 10]
  /\ keys s2 = [sampleKey 0 "Inactive" 5; sampleKey 1 "Active" 10]
  /\ keys s3 = [sampleKey 1 "Active" 10]
  /\ issued s3 = 2.
Proof.
  apply (rotation_cycle_takes_three_invocations cicdUser "rate(1 hour)"%string
           TravisCIPusher.validateConfiguration (demoConfiguration "travis-token")
           (storeOf [sampleKey 0 "Active" 5] 1) (sampleKey 0 "Active" 5)
           10%Z 20%Z 30%Z false true false eq_refl eq_refl).
  - vm_compute. discriminate.
  - reflexivity.
Defined.

(** ** The key sets the rotation keeps to *)

Lemma fresh_id_not_held (s : Sim) :
  wellFormed s -> holdsKey (keys s) (keyIdOf (issued s)) = false.
Proof.
  intros [_ [_ Hids]]. unfold holdsKey.
  destruct (existsb (fun k => String.eqb (AccessKeyId k) (keyIdOf (issued s))) (keys s))
    eqn:He; [| reflexivity].
  apply existsb_exists in He. destruct He as [k [Hk Hid]].
  apply String.eqb_eq in Hid. rewrite Forall_forall in Hids.
  destruct (Hids k Hk) as [n [Hn Hkn]]. rewrite Hkn in Hid.
  apply keyIdOf_inj in Hid. lia.
Qed.

Lemma healthy_length (l : list AccessKeyMetadata) :
  healthy l = true -> List.length l <= 2.
Proof.
  unfold healthy. intros H. rewrite <- (sort_length compareCreateDate l).
  destruct (sort compareCreateDate l) as [| a [| b [| c r]]]; simpl;
    [lia | lia | lia | discriminate H].
Qed.

(** What a healthy key set looks like to its users. *)
Lemma healthy_shape (l : list AccessKeyMetadata) :
  healthy l = true ->
  forallb (fun k => isActive k || isInactive k) l = true
  /\ (l <> [] -> existsb isActive l = true)
  /\ List.length (filter isInactive l) <= 1.
Proof.
  intros H. pose proof (healthy_length l H) as Hlen.
  destruct l as [| a [| b [| c r]]]; [| | | simpl in Hlen; lia].
  - split; [reflexivity |]. split; [intros Hc; contradiction | simpl; lia].
  - unfold healthy in H. cbn [sort insert] in H.
    cbn [forallb existsb filter]. rewrite H. cbn [orb andb].
    split; [reflexivity |]. split; [reflexivity |].
    destruct (isInactive a); simpl; lia.
  - unfold healthy in H. rewrite sort_two in H.
    assert (Hex : isActive a = true -> isInactive a = false).
    { unfold isActive, isInactive. intros Ha. apply String.eqb_eq in Ha. rewrite Ha.
      reflexivity. }
    assert (Hex' : isActive b = true -> isInactive b = false).
    { unfold isActive, isInactive. intros Hb. apply String.eqb_eq in Hb. rewrite Hb.
      reflexivity. }
    cbn [forallb existsb filter].
    destruct (CreateDate b <=? CreateDate a)%Z;
      apply andb_true_iff in H; destruct H as [Hnew Hold];
      [rewrite (Hex Hnew) | rewrite (Hex' Hnew)];
      rewrite Hnew, Hold; cbn [orb andb];
      (split; [reflexivity |]); (split; [intros _; rewrite ?orb_true_r; reflexivity |]).
    + destruct (isInactive b); simpl; lia.
    + destruct (isInactive a); simpl; lia.
Qed.

Section HealthyRuns.
Context (u : User.t) (rate : string).
Context (validate : ServiceConfiguration -> option string) (cfg : ServiceConfiguration).

Let args := externalArgs u rate validate cfg.

(** On two keys of which the older is Active or Inactive the simulated
    store is asked for one change and the step completes. *)
Lemma invocation_two_completes (s : Sim) (t : Z) (down : bool) (older : AccessKeyMetadata) :
  List.length (keys s) = 2 ->
  nth_error (sort compareCreateDate (keys s)) 1 = Some older ->
  isActive older || isInactive older = true ->
  exists tr, trace (invocation args s t down) = tr ++ [stepComplete].
Proof.
  intros Hlen Hn Hst. unfold invocation, args.
  rewrite (lambda_run_two simHandler u rate validate cfg
             (Build_Sim (keys s) (issued s) t down) (Build_Sim (keys s) (issued s) t down)
             (keys s) older eq_refl Hlen Hn).
  rewrite (exec_rotateSorted_two simHandler u _ _ older) by
    (rewrite ?sort_length; assumption).
  unfold isActive, isInactive in Hst.
  destruct (String.eqb (Status older) "Active");
    [| destruct (String.eqb (Status older) "Inactive"); [| discriminate Hst]];
    cbn [simHandler]; unfold trace; cbn [fst snd];
    eexists; rewrite app_comm_cons;
    match goal with
    | |- (?a ++ [?x; ?y; ?z]) = _ =>
        change (a ++ [x; y; z]) with (a ++ ([x; y] ++ [z])); rewrite app_assoc; reflexivity
    end.
Qed.

Lemma invocation_healthy (s : Sim) (t : Z) (down : bool) :
  wellFormed s -> healthy (keys s) = true ->
  healthy (keys (final (invocation args s t down))) = true.
Proof.
  intros Hwf Hh. pose proof Hwf as [_ [Hnd _]].
  destruct (keys s) as [| a [| b [| c r]]] eqn:Hkeys;
    [| | | apply healthy_length in Hh; simpl in Hh; lia].
  - unfold args. rewrite invocation_few by (rewrite Hkeys; simpl; lia).
    unfold final; cbn [fst keys]. rewrite Hkeys. reflexivity.
  - unfold args. rewrite invocation_few by (rewrite Hkeys; simpl; lia).
    unfold final; cbn [fst keys]. rewrite Hkeys. cbn [app].
    unfold healthy in *. cbn [sort insert] in Hh. rewrite sort_two.
    destruct (CreateDate (createdKey u s t) <=? CreateDate a)%Z;
      rewrite Hh; reflexivity.
  - assert (Hab : AccessKeyId a <> AccessKeyId b).
    { cbn [map] in Hnd. inversion Hnd as [| ? ? Hin _]; subst.
      intros Heq. apply Hin. left. symmetry. exact Heq. }
    unfold healthy in Hh. rewrite sort_two in Hh.
    destruct (CreateDate b <=? CreateDate a)%Z eqn:Hord;
      apply andb_true_iff in Hh; destruct Hh as [Hnew Hold].
    + destruct (invocation_two u rate validate cfg s t down b
                  ltac:(rewrite Hkeys; reflexivity)
                  ltac:(rewrite Hkeys, sort_two, Hord; reflexivity)) as [_ [Hk _]].
      fold args in Hk. rewrite Hk, Hkeys. unfold isActive, isInactive in Hold.
      destruct (String.eqb (Status b) "Active");
        [| destruct (String.eqb (Status b) "Inactive"); [| discriminate Hold]].
      * cbn [map]. rewrite (setStatus_other _ _ a Hab), setStatus_self.
        unfold healthy. rewrite sort_two. cbn [CreateDate]. rewrite Hord, Hnew.
        reflexivity.
      * cbn [filter]. rewrite String.eqb_refl. cbn [negb].
        apply String.eqb_neq in Hab. rewrite Hab. cbn [negb].
        unfold healthy. cbn [sort insert]. exact Hnew.
    + destruct (invocation_two u rate validate cfg s t down a
                  ltac:(rewrite Hkeys; reflexivity)
                  ltac:(rewrite Hkeys, sort_two, Hord; reflexivity)) as [_ [Hk _]].
      fold args in Hk. rewrite Hk, Hkeys. unfold isActive, isInactive in Hold.
      destruct (String.eqb (Status a) "Active");
        [| destruct (String.eqb (Status a) "Inactive"); [| discriminate Hold]].
      * cbn [map]. rewrite (setStatus_other _ _ b (not_eq_sym Hab)), setStatus_self.
        unfold healthy. rewrite sort_two. cbn [CreateDate]. rewrite Hord, Hnew.
        reflexivity.
      * cbn [filter]. rewrite String.eqb_refl. cbn [negb].
        apply not_eq_sym, String.eqb_neq in Hab. rewrite Hab. cbn [negb].
        unfold healthy. cbn [sort insert]. exact Hnew.
Qed.

Lemma reachable_healthy (s : Sim) : reachable args s -> healthy (keys s) = true.
Proof.
  induction 1 as [| s t down Hr IH]; [reflexivity |].
  apply invocation_healthy; [apply (reachable_wellFormed u rate validate cfg), Hr | exact IH].
Qed.

(** On a healthy key set every invocation completes its step. *)
Lemma healthy_invocation_completes (s : Sim) (t : Z) (down : bool) :
  healthy (keys s) = true ->
  exists tr, trace (invocation args s t down) = tr ++ [stepComplete].
Proof.
  intros Hh. pose proof (healthy_length _ Hh) as Hlen.
  destruct (le_lt_dec (List.length (keys s)) 1) as [Hle | Hgt].
  - unfold args. rewrite (invocation_few u rate validate cfg s t down Hle).
    unfold trace; cbn [fst snd]. eexists.
    rewrite app_comm_cons, !app_assoc. reflexivity.
  - assert (Hlen2 : List.length (keys s) = 2) by lia.
    destruct (nth_error_second (sort compareCreateDate (keys s))) as [older Hn];
      [rewrite sort_length; exact Hlen2 |].
    apply (invocation_two_completes s t down older Hlen2 Hn).
    unfold healthy in Hh.
    destruct (sort compareCreateDate (keys s)) as [| x [| y [| z r]]];
      try discriminate Hn.
    + cbn [nth_error] in Hn. injection Hn as Hn; subst y.
      apply andb_true_iff in Hh. apply Hh.
    + discriminate Hh.
Qed.
End HealthyRuns.

(** X7.  A store reached from the empty one by rotation alone holds only
    Active and Inactive keys, at most one of them Inactive, and once it
    holds a key it holds an Active one: the principal is never left without
    a usable key.  On such a store no invocation meets the broken
    invariant: every invocation ends with the completion line. *)
Theorem rotation_always_leaves_an_active_key :
  forall u rate validate cfg (s : Sim),
    reachable (externalArgs u rate validate cfg) s ->
    forallb (fun k => isActive k || isInactive k) (keys s) = true
    /\ (keys s <> [] -> existsb isActive (keys s) = true)
    /\ List.length (filter isInactive (keys s)) <= 1
    /\ forall (t : Z) (down : bool),
         exists tr,
           trace (invocation (externalArgs u rate validate cfg) s t down)
           = tr ++ [stepComplete].
Proof.
  intros u rate validate cfg s Hr.
  pose proof (reachable_healthy u rate validate cfg s Hr) as Hh.
  destruct (healthy_shape (keys s) Hh) as [H1 [H2 H3]].
  split; [exact H1 |]. split; [exact H2 |]. split; [exact H3 |].
  intros t down. apply healthy_invocation_completes, Hh.
Qed.

Lemma rotation_always_leaves_an_active_key_witness :
  let s := final (invocation sampleArgs
                    (final (invocation sampleArgs
                              (final (invocation sampleArgs emptyStore 1 false)) 5 true))
                    9 false) in
  keys s = [sampleKey 0 "Inactive" 1; sampleKey 1 "Active" 5]
  /\ existsb isActive (keys s) = true
  /\ List.length (filter isInactive (keys s)) <= 1.
Proof.
  intros s. split; [reflexivity |].
  pose proof (rotation_always_leaves_an_active_key
                cicdUser "rate(1 hour)"%string TravisCIPusher.validateConfiguration
                (demoConfiguration "travis-token") s
                (reach_invoke _ _ 9 false
                   (reach_invoke _ _ 5 true (reach_invoke _ _ 1 false (reach_empty _)))))
    as [_ [H2 [H3 _]]].
  split; [apply H2; discriminate | exact H3].
Defined.

(** X8.  On a store reached by rotation, whatever an invocation hands to
    the distributor is the identifier of a key that was not in the store
    before the invocation and is in it afterwards: only the key just
    created is ever distributed, and each key at most in the one invocation
    that creates it. *)
Theorem only_the_new_key_is_distributed :
  forall u rate validate cfg (s : Sim) (t : Z) (down : bool) (c : Call),
    reachable (externalArgs u rate validate cfg) s ->
    let run := invocation (externalArgs u rate validate cfg) s t down in
    In c (callsWhere isDistribution (trace run)) ->
    exists newKey,
      pushedId c = Some newKey
      /\ holdsKey (keys s) newKey = false
      /\ holdsKey (keys (final run)) newKey = true
      /\ callsWhere isDistribution (trace run) = [c].
Proof.
  intros u rate validate cfg s t down c Hr run Hin. subst run.
  pose proof (reachable_wellFormed u rate validate cfg s Hr) as Hwf.
  destruct (le_lt_dec (List.length (keys s)) 1) as [Hle | Hgt].
  - rewrite (invocation_few u rate validate cfg s t down Hle) in Hin |- *.
    assert (Hcalls : callsWhere isDistribution
                       (trace ({| keys := keys s ++ [createdKey u s t];
                                  issued := Datatypes.S (issued s);
                                  now := t; pushFails := down |},
                               EvCall (listAccessKeys (User.name u)) (inr (keys s))
                               :: keyListing (sort compareCreateDate (keys s))
                               ++ [EvCall (createAccessKey (User.name u))
                                     (inr (AccessKey.Build_t (User.name u)
                                             (keyIdOf (issued s)) "Active"
                                             (secretOf (issued s)) t));
                                   EvLog [Txt ("Created new key key " +++ keyIdOf (issued s))];
                                   EvSleep 1000]
                               ++ (if down
                                   then pushingOut
                                        :: EvCall (servicePush cfg (keyIdOf (issued s))
                                                     (secretOf (issued s)))
                                             (inl (Error "push rejected"))
                                        :: pushFailed (Error "push rejected")
                                   else [pushingOut;
                                         EvCall (servicePush cfg (keyIdOf (issued s))
                                                   (secretOf (issued s))) (inr tt)])
                               ++ [stepComplete],
                               @inr Exn unit tt))
                     = [servicePush cfg (keyIdOf (issued s)) (secretOf (issued s))])
      by (destruct down; read_calls; reflexivity).
    rewrite Hcalls in Hin |- *. destruct Hin as [Hc | []]. subst c.
    exists (keyIdOf (issued s)). split; [reflexivity |].
    split; [apply fresh_id_not_held, Hwf |]. split; [| reflexivity].
    unfold final; cbn [fst keys]. unfold holdsKey. rewrite existsb_app.
    cbn [existsb createdKey AccessKeyId]. rewrite String.eqb_refl.
    cbn [orb]. apply orb_true_r.
  - exfalso. destruct Hwf as [Hlen _].
    assert (Hlen2 : List.length (keys s) = 2) by lia.
    destruct (nth_error_second (sort compareCreateDate (keys s))) as [older Hn];
      [rewrite sort_length; exact Hlen2 |].
    destruct (invocation_two u rate validate cfg s t down older Hlen2 Hn)
      as [_ [_ [_ Hnone]]].
    rewrite Hnone in Hin. destruct Hin.
Qed.

Lemma only_the_new_key_is_distributed_witness :
  let s := final (invocation sampleArgs emptyStore 1 true) in
  exists newKey,
    pushedId (servicePush (demoConfiguration "travis-token") "AKIA1" "secret1") = Some newKey
    /\ holdsKey (keys s) newKey = false
    /\ holdsKey (keys (final (invocation sampleArgs s 5 false))) newKey = true
    /\ callsWhere isDistribution (trace (invocation sampleArgs s 5 false))
       = [servicePush (demoConfiguration "travis-token") "AKIA1" "secret1"].
Proof.
  intros s.
  apply (only_the_new_key_is_distributed cicdUser "rate(1 hour)"%string
           TravisCIPusher.validateConfiguration (demoConfiguration "travis-token")
           s 5%Z false _ (reach_invoke _ _ 1 true (reach_empty _))).
  left; reflexivity.
Defined.

(** * Further properties of the Travis pusher *)

(** ** Which variable a location resolves to *)

Lemma resolve_accessKey_kept (p : Project) (post : list TravisEnvVar.t)
    (ids : string * string) :
  resolvable post (accessKeyIDLocation p) = false ->
  fst (fold_left (TravisCIPusher.resolveEnvVar p) post ids) = fst ids.
Proof.
  revert ids; induction post as [| v post IH]; intros ids Hno; [reflexivity |].
  unfold resolvable in Hno; cbn [existsb] in Hno.
  apply orb_false_iff in Hno. destruct Hno as [Hv Hpost].
  cbn [fold_left]. rewrite (IH _ Hpost).
  unfold TravisCIPusher.resolveEnvVar.
  destruct (falsy_opt (TravisEnvVar.id v)); [reflexivity |].
  cbn [negb] in Hv. rewrite andb_true_r in Hv. rewrite Hv.
  destruct (TravisCIPusher.nameIs v (secretAccessKeyLocation p)); reflexivity.
Qed.

Lemma resolve_secret_kept (p : Project) (post : list TravisEnvVar.t)
    (ids : string * string) :
  secretPicked p post = false ->
  snd (fold_left (TravisCIPusher.resolveEnvVar p) post ids) = snd ids.
Proof.
  revert ids; induction post as [| v post IH]; intros ids Hno; [reflexivity |].
  unfold secretPicked in Hno; cbn [existsb] in Hno.
  apply orb_false_iff in Hno. destruct Hno as [Hv Hpost].
  cbn [fold_left]. rewrite (IH _ Hpost).
  unfold TravisCIPusher.resolveEnvVar.
  destruct (falsy_opt (TravisEnvVar.id v)); [reflexivity |].
  cbn [negb andb] in Hv.
  destruct (TravisCIPusher.nameIs v (accessKeyIDLocation p)); [reflexivity |].
  cbn [negb andb] in Hv. rewrite Hv. reflexivity.
Qed.

(** X9.  When several variables of the target carry the name of a location,
    the handle used is the identifier of the last of them in the listing
    that has an identifier; a variable without an identifier takes no part
    in the resolution, whatever its name. *)
Theorem last_named_variable_wins :
  forall (p : Project) (pre post : list TravisEnvVar.t) (v : TravisEnvVar.t),
    (falsy_opt (TravisEnvVar.id v) = false ->
     TravisCIPusher.nameIs v (accessKeyIDLocation p) = true ->
     resolvable post (accessKeyIDLocation p) = false ->
     fst (TravisCIPusher.resolveEnvVars p (pre ++ v :: post)) = of_opt (TravisEnvVar.id v))
    /\ (falsy_opt (TravisEnvVar.id v) = false ->
        TravisCIPusher.nameIs v (accessKeyIDLocation p) = false ->
        TravisCIPusher.nameIs v (secretAccessKeyLocation p) = true ->
        secretPicked p post = false ->
        snd (TravisCIPusher.resolveEnvVars p (pre ++ v :: post)) = of_opt (TravisEnvVar.id v))
    /\ (falsy_opt (TravisEnvVar.id v) = true ->
        TravisCIPusher.resolveEnvVars p (pre ++ v :: post)
        = TravisCIPusher.resolveEnvVars p (pre ++ post)).
Proof.
  intros p pre post v. unfold TravisCIPusher.resolveEnvVars.
  rewrite !fold_left_app. cbn [fold_left]. split; [| split].
  - intros Hid Hname Hpost. rewrite (resolve_accessKey_kept p post _ Hpost).
    unfold TravisCIPusher.resolveEnvVar. rewrite Hid, Hname. reflexivity.
  - intros Hid Hak Hsk Hpost. rewrite (resolve_secret_kept p post _ Hpost).
    unfold TravisCIPusher.resolveEnvVar. rewrite Hid, Hak, Hsk. reflexivity.
  - intros Hid. unfold TravisCIPusher.resolveEnvVar at 2. rewrite Hid. reflexivity.
Qed.

Lemma last_named_variable_wins_witness :
  let nameless := {| TravisEnvVar.id := None; TravisEnvVar.name := Some "AWS_ACCESS_KEY_ID"%string;
                     TravisEnvVar.public := None; TravisEnvVar.value := None |} in
  fst (TravisCIPusher.resolveEnvVars demoProject
         ([envVar "id-1" "AWS_ACCESS_KEY_ID"] ++ envVar "id-7" "AWS_ACCESS_KEY_ID"
          :: [envVar "id-2" "AWS_SECRET_ACCESS_KEY"])) = "id-7"%string
  /\ snd (TravisCIPusher.resolveEnvVars demoProject
            ([envVar "id-2" "AWS_SECRET_ACCESS_KEY"] ++ envVar "id-9" "AWS_SECRET_ACCESS_KEY"
             :: [envVar "id-1" "AWS_ACCESS_KEY_ID"])) = "id-9"%string
  /\ TravisCIPusher.resolveEnvVars demoProject (demoEnvVars ++ nameless :: [])
     = TravisCIPusher.resolveEnvVars demoProject (demoEnvVars ++ []).
Proof.
  intros nameless. split; [| split].
  - apply (proj1 (last_named_variable_wins demoProject
                    [envVar "id-1" "AWS_ACCESS_KEY_ID"]
                    [envVar "id-2" "AWS_SECRET_ACCESS_KEY"]
                    (envVar "id-7" "AWS_ACCESS_KEY_ID"))); reflexivity.
  - apply (proj1 (proj2 (last_named_variable_wins demoProject
                           [envVar "id-2" "AWS_SECRET_ACCESS_KEY"]
                           [envVar "id-1" "AWS_ACCESS_KEY_ID"]
                           (envVar "id-9" "AWS_SECRET_ACCESS_KEY")))); reflexivity.
  - apply (proj2 (proj2 (last_named_variable_wins demoProject demoEnvVars [] nameless))).
    reflexivity.
Defined.

(** ** Every run of the push of one project *)

Section ProjectRuns.
Context {S : Type} (h : Handler S) (client : AxiosInstance).
Context (newId newSecret : string) (p : Project).

Let repoSlug := TravisCIPusher.encodeURIComponent (project p).
Let listing := httpGet client (TravisCIPusher.envVarsUrl repoSlug).
Let announce := EvLog [Txt ("Pushing new credentials to Travis CI project '"
+++ project p +++ "'")].
Let updateId (envVarId : string) :=
  httpPatch client (TravisCIPusher.envVarUrl repoSlug envVarId)
    {| env_var_value := newId; env_var_public := true |}.
Let updateSecret (envVarId : string) :=
  httpPatch client (TravisCIPusher.envVarUrl repoSlug envVarId)
    {| env_var_value := newSecret; env_var_public := false |}.

Lemma exec_pushProject (s : S) :
  exec h (TravisCIPusher.pushProject client newId newSecret p) s =
  match h listing s with
  | (s1, inl e) => (s1, [announce; EvCall listing (inl e)], inl e)
  | (s1, inr resp) =>
      match match data resp with Some d => env_vars d | None => None end with
      | None =>
          (s1, [announce; EvCall listing (inr resp)],
           inl (Error "Didn't get list of Travis project credentials as expected."))
      | Some envVars =>
          let ids := TravisCIPusher.resolveEnvVars p envVars in
          if falsy (fst ids) then
            (s1, [announce; EvCall listing (inr resp)],
             inl (unableToFind (accessKeyIDLocation p)))
          else if falsy (snd ids) then
            (s1, [announce; EvCall listing (inr resp)],
             inl (unableToFind (secretAccessKeyLocation p)))
          else
            match h (updateId (fst ids)) s1 with
            | (s2, inl e) =>
                (s2, [announce; EvCall listing (inr resp);
                      EvLog [Txt ("Updating env var '" +++ accessKeyIDLocation p
                                  +++ "' (" +++ fst ids +++ ")")];
                      EvCall (updateId (fst ids)) (inl e)], inl e)
            | (s2, inr r1) =>
                match h (updateSecret (snd ids)) s2 with
                | (s3, inl e) =>
                    (s3, [announce; EvCall listing (inr resp);
                          EvLog [Txt ("Updating env var '" +++ accessKeyIDLocation p
                                      +++ "' (" +++ fst ids +++ ")")];
                          EvCall (updateId (fst ids)) (inr r1);
                          EvLog [Txt ("Updated AWS access key ID. Got response code ("
                                      +++ of_nat (status r1) +++ ")")];
                          EvLog [Txt ("Updating env var '" +++ secretAccessKeyLocation p
                                      +++ "' (" +++ snd ids +++ ")")];
                          EvCall (updateSecret (snd ids)) (inl e)], inl e)
                | (s3, inr r2) =>
                    (s3, [announce; EvCall listing (inr resp);
                          EvLog [Txt ("Updating env var '" +++ accessKeyIDLocation p
                                      +++ "' (" +++ fst ids +++ ")")];
                          EvCall (updateId (fst ids)) (inr r1);
                          EvLog [Txt ("Updated AWS access key ID. Got response code ("
                                      +++ of_nat (status r1) +++ ")")];
                          EvLog [Txt ("Updating env var '" +++ secretAccessKeyLocation p
                                      +++ "' (" +++ snd ids +++ ")")];
                          EvCall (updateSecret (snd ids)) (inr r2);
                          EvLog [Txt ("Updated AWS secret access key. Got response code ("
                                      +++ of_nat (status r2) +++ ")")]], inr tt)
                end
            end
      end
  end.
Proof.
  unfold TravisCIPusher.pushProject.
  rewrite exec_bind, exec_log. cbv zeta. fold repoSlug. rewrite exec_bind.
  rewrite (exec_call h listing). fold listing.
  destruct (h listing s) as [s1 [e | resp]]; cbn [fst snd]; [reflexivity |].
  destruct (data resp) as [d |]; [| reflexivity].
  destruct (env_vars d) as [envVars |]; [| reflexivity].
  destruct (TravisCIPusher.resolveEnvVars p envVars) as [a b]; cbn [fst snd].
  destruct (falsy a); [reflexivity |]. destruct (falsy b); [reflexivity |].
  rewrite exec_bind, exec_log, exec_bind.
  rewrite (exec_call h (updateId a)). fold (updateId a).
  destruct (h (updateId a) s1) as [s2 [e | r1]]; cbn [fst snd]; [reflexivity |].
  rewrite exec_bind, exec_log, exec_bind, exec_log, exec_bind.
  rewrite (exec_call h (updateSecret b)). fold (updateSecret b).
  destruct (h (updateSecret b) s2) as [s3 [e | r2]]; cbn [fst snd]; reflexivity.
Qed.
End ProjectRuns.

(** ** Updates that are rejected *)

(** X10.  The two updates of a project are sent one after the other, the
    key id first, and are not undone: when the target rejects the update of
    the key id the update of the secret is never sent, and when it rejects
    the update of the secret the update of the key id has already been
    accepted and stays; either way the push ends with the rejection. *)
Theorem project_update_is_not_atomic :
  forall (S : Type) (h : Handler S) client newId newSecret p (s s1 : S) resp d envVars,
    let repoSlug := TravisCIPusher.encodeURIComponent (project p) in
    let ids := TravisCIPusher.resolveEnvVars p envVars in
    let listing := httpGet client (TravisCIPusher.envVarsUrl repoSlug) in
    let updateId := httpPatch client (TravisCIPusher.envVarUrl repoSlug (fst ids))
                      {| env_var_value := newId; env_var_public := true |} in
    let updateSecret := httpPatch client (TravisCIPusher.envVarUrl repoSlug (snd ids))
                          {| env_var_value := newSecret; env_var_public := false |} in
    h listing s = (s1, inr resp) -> data resp = Some d -> env_vars d = Some envVars ->
    falsy (fst ids) = false -> falsy (snd ids) = false ->
    let run := exec h (TravisCIPusher.pushProject client newId newSecret p) s in
    (forall (s2 : S) e,
        h updateId s1 = (s2, inl e) ->
        outcome run = inl e /\ final run = s2
        /\ steps (trace run) = [Called listing; Called updateId])
    /\ (forall (s2 s3 : S) r1 e,
          h updateId s1 = (s2, inr r1) ->
          h updateSecret s2 = (s3, inl e) ->
          outcome run = inl e /\ final run = s3
          /\ steps (trace run) = [Called listing; Called updateId; Called updateSecret]).
Proof.
  intros S h client newId newSecret p s s1 resp d envVars repoSlug ids listing
         updateId updateSecret Hget Hdata Hvars Ha Hb run.
  subst run. rewrite exec_pushProject. fold repoSlug. fold listing.
  rewrite Hget, Hdata, Hvars. cbv zeta. fold ids. rewrite Ha, Hb.
  fold updateId. fold updateSecret. split.
  - intros s2 e H1. rewrite H1. repeat split.
  - intros s2 s3 r1 e H1 H2. rewrite H1, H2. repeat split.
Qed.

Lemma project_update_is_not_atomic_witness :
  let client := TravisCIPusher.getTravisClient (Some "travis-token"%string) in
  let push := TravisCIPusher.pushProject client "AKIA1" "secret1" demoProject in
  (outcome (exec (travisStub demoListing (fun _ => false)) push [])
   = inl (Error "Request failed with status code 500")
   /\ final (exec (travisStub demoListing (fun _ => false)) push []) = []
   /\ callsWhere isPatch (trace (exec (travisStub demoListing (fun _ => false)) push []))
      = [httpPatch client "/repo/chrsmith%2Fpulumi-aws-travis-cicd-demo/env_var/id-1"
           {| env_var_value := "AKIA1"; env_var_public := true |}])
  /\ (outcome (exec (travisStub demoListing env_var_public) push [])
      = inl (Error "Request failed with status code 500")
      /\ final (exec (travisStub demoListing env_var_public) push [])
         = [("/repo/chrsmith%2Fpulumi-aws-travis-cicd-demo/env_var/id-1"%string,
             {| env_var_value := "AKIA1"; env_var_public := true |})]).
Proof.
  intros client push. split.
  - destruct (proj1 (project_update_is_not_atomic _ (travisStub demoListing (fun _ => false))
                       client "AKIA1"%string "secret1"%string demoProject [] [] _ _ demoEnvVars
                       eq_refl eq_refl eq_refl eq_refl eq_refl)
                [] (Error "Request failed with status code 500") eq_refl)
      as [Hout [Hfin _]].
    split; [exact Hout |]. split; [exact Hfin | reflexivity].
  - destruct (proj2 (project_update_is_not_atomic _ (travisStub demoListing env_var_public)
                       client "AKIA1"%string "secret1"%string demoProject [] [] _ _ demoEnvVars
                       eq_refl eq_refl eq_refl eq_refl eq_refl)
                _ _ _ (Error "Request failed with status code 500") eq_refl eq_refl)
      as [Hout [Hfin _]].
    split; [exact Hout | exact Hfin].
Defined.

(** ** Listings that are of no use *)

(** X11.  The push of a project goes no further than the listing when the
    listing is rejected, when its answer has no data or no list of
    variables, and when the list is empty: the rejection is passed on, an
    answer without the list ends in the exception that says so, an empty
    list in the exception that the key-id location is not found.  In none
    of these cases is an update sent. *)
Theorem useless_listing_stops_the_project :
  forall (S : Type) (h : Handler S) client newId newSecret p (s s1 : S),
    let listing := httpGet client (TravisCIPusher.envVarsUrl
                                     (TravisCIPusher.encodeURIComponent (project p))) in
    let run := exec h (TravisCIPusher.pushProject client newId newSecret p) s in
    (forall e,
        h listing s = (s1, inl e) ->
        outcome run = inl e /\ steps (trace run) = [Called listing] /\ final run = s1)
    /\ (forall resp,
          h listing s = (s1, inr resp) ->
          data resp = None \/ (exists d, data resp = Some d /\ env_vars d = None) ->
          outcome run
          = inl (Error "Didn't get list of Travis project credentials as expected.")
          /\ steps (trace run) = [Called listing] /\ final run = s1)
    /\ (forall resp d,
          h listing s = (s1, inr resp) ->
          data resp = Some d -> env_vars d = Some [] ->
          outcome run = inl (unableToFind (accessKeyIDLocation p))
          /\ steps (trace run) = [Called listing] /\ final run = s1).
Proof.
  intros S h client newId newSecret p s s1 listing run. subst run.
  rewrite exec_pushProject. fold listing. split; [| split].
  - intros e H. rewrite H. repeat split.
  - intros resp H Hbad. rewrite H.
    destruct Hbad as [Hd | [d [Hd Hv]]]; rewrite Hd; [| rewrite Hv]; repeat split.
  - intros resp d H Hd Hv. rewrite H, Hd, Hv. repeat split.
Qed.

Lemma useless_listing_stops_the_project_witness :
  let client := TravisCIPusher.getTravisClient (Some "travis-token"%string) in
  let push := TravisCIPusher.pushProject client "AKIA1" "secret1" demoProject in
  let noData := inr {| data := None; status := 200 |} in
  let noVars := inr {| data := Some {| env_vars := Some [] |}; status := 200 |} in
  outcome (exec (travisStub (inl (Error "timeout of 10000ms exceeded")) (fun _ => true))
             push [])
  = inl (Error "timeout of 10000ms exceeded")
  /\ outcome (exec (travisStub noData (fun _ => true)) push [])
     = inl (Error "Didn't get list of Travis project credentials as expected.")
  /\ outcome (exec (travisStub noVars (fun _ => true)) push [])
     = inl (unableToFind "AWS_ACCESS_KEY_ID").
Proof.
  intros client push noData noVars. split; [| split].
  - apply (proj1 (useless_listing_stops_the_project _
                    (travisStub (inl (Error "timeout of 10000ms exceeded")) (fun _ => true))
                    client "AKIA1"%string "secret1"%string demoProject [] [])
             (Error "timeout of 10000ms exceeded") eq_refl).
  - apply (proj1 (proj2 (useless_listing_stops_the_project _
                           (travisStub noData (fun _ => true))
                           client "AKIA1"%string "secret1"%string demoProject [] []))
             {| data := None; status := 200 |} eq_refl).
    left; reflexivity.
  - apply (proj2 (proj2 (useless_listing_stops_the_project _
                           (travisStub noVars (fun _ => true))
                           client "AKIA1"%string "secret1"%string demoProject [] []))
             {| data := Some {| env_vars := Some [] |}; status := 200 |}
             {| env_vars := Some [] |} eq_refl eq_refl eq_refl).
Defined.

(** ** Configurations without projects *)

(** X12.  [pushNewCredentials] on a configuration without a list of
    projects throws a [TypeError] before any request; on an empty list it
    completes having done nothing at all.  A configuration that
    [validateConfiguration] accepts has a non-empty access key and a first
    project, and its push begins with the listing of that project's
    variables through the client that carries the key. *)
Theorem push_without_projects_does_nothing :
  forall (S : Type) (h : Handler S) cfg newId newSecret (s : S),
    let run := exec h (TravisCIPusher.pushNewCredentials cfg newId newSecret) s in
    (projects cfg = None ->
     run = (s, [], inl (TypeError "config.projects is not iterable")))
    /\ (projects cfg = Some [] -> run = (s, [], inr tt))
    /\ (TravisCIPusher.validateConfiguration cfg = None ->
        exists token p ps r tr,
          accessKey cfg = Some token /\ token <> EmptyString
          /\ projects cfg = Some (p :: ps)
          /\ trace run =
             EvLog [Txt ("Pushing new credentials to Travis CI project '"
                         +++ project p +++ "'")]
             :: EvCall (httpGet (TravisCIPusher.getTravisClient (Some token))
                          (TravisCIPusher.envVarsUrl
                             (TravisCIPusher.encodeURIComponent (project p)))) r
             :: tr).
Proof.
  intros S h cfg newId newSecret s run. subst run.
  unfold TravisCIPusher.pushNewCredentials; cbv zeta. split; [| split].
  - intros H. rewrite H. reflexivity.
  - intros H. rewrite H. reflexivity.
  - unfold TravisCIPusher.validateConfiguration. intros Hv.
    destruct (accessKey cfg) as [token |] eqn:Hkey; [| discriminate Hv].
    cbn [falsy_opt] in Hv. destruct (falsy token) eqn:Hf; [discriminate Hv |].
    destruct (projects cfg) as [[| p ps] |]; try discriminate Hv.
    rewrite exec_for_of_cons, exec_pushProject.
    exists token, p, ps.
    destruct (h (httpGet (TravisCIPusher.getTravisClient (Some token))
                   (TravisCIPusher.envVarsUrl
                      (TravisCIPusher.encodeURIComponent (project p)))) s)
      as [s1 r] eqn:Hget.
    exists r.
    assert (Hne : token <> EmptyString) by (unfold falsy in Hf; apply String.eqb_neq, Hf).
    destruct r as [e | resp].
    + eexists; split; [reflexivity | split; [exact Hne | split; reflexivity]].
    + destruct (match data resp with Some d => env_vars d | None => None end)
        as [envVars |].
      * cbv zeta.
        destruct (falsy (fst (TravisCIPusher.resolveEnvVars p envVars)));
          [eexists; split; [reflexivity | split; [exact Hne | split; reflexivity]] |].
        destruct (falsy (snd (TravisCIPusher.resolveEnvVars p envVars)));
          [eexists; split; [reflexivity | split; [exact Hne | split; reflexivity]] |].
        match goal with
        | |- context [match h ?c s1 with _ => _ end] =>
            destruct (h c s1) as [s2 [e | r1]]
        end; [eexists; split; [reflexivity | split; [exact Hne | split; reflexivity]] |].
        match goal with
        | |- context [match h ?c s2 with _ => _ end] =>
            destruct (h c s2) as [s3 [e | r2]]
        end; [eexists; split; [reflexivity | split; [exact Hne | split; reflexivity]] |].
        destruct (exec h (for_of ps (TravisCIPusher.pushProject
                                       (TravisCIPusher.getTravisClient (Some token))
                                       newId newSecret)) s3) as [[s4 tr4] r4].
        eexists; split; [reflexivity | split; [exact Hne | split; reflexivity]].
      * eexists; split; [reflexivity | split; [exact Hne | split; reflexivity]].
Qed.

Lemma push_without_projects_does_nothing_witness :
  exec (travisWith demoEnvVars)
    (TravisCIPusher.pushNewCredentials {| accessKey := Some "travis-token"%string;
                                          projects := None |} "AKIA1" "secret1") []
  = ([], [], inl (TypeError "config.projects is not iterable"))
  /\ exec (travisWith demoEnvVars)
       (TravisCIPusher.pushNewCredentials {| accessKey := Some "travis-token"%string;
                                             projects := Some [] |} "AKIA1" "secret1") []
     = ([], [], inr tt)
  /\ exists token p ps,
       accessKey (demoConfiguration "travis-token") = Some token
       /\ token <> EmptyString
       /\ projects (demoConfiguration "travis-token") = Some (p :: ps).
Proof.
  split; [| split].
  - apply (proj1 (push_without_projects_does_nothing _ (travisWith demoEnvVars)
                    {| accessKey := Some "travis-token"%string; projects := None |}
                    "AKIA1"%string "secret1"%string [])).
    reflexivity.
  - apply (proj1 (proj2 (push_without_projects_does_nothing _ (travisWith demoEnvVars)
                           {| accessKey := Some "travis-token"%string; projects := Some [] |}
                           "AKIA1"%string "secret1"%string []))).
    reflexivity.
  - destruct (proj2 (proj2 (push_without_projects_does_nothing _ (travisWith demoEnvVars)
                              (demoConfiguration "travis-token")
                              "AKIA1"%string "secret1"%string [])) eq_refl)
      as [token [p [ps [r [tr [Hk [Hne [Hp _]]]]]]]].
    exists token, p, ps. split; [exact Hk |]. split; [exact Hne | exact Hp].
Defined.

(** ** What the pusher sends, and to whom *)

Lemma calls_app (a b : list Event) : calls (a ++ b) = calls a ++ calls b.
Proof. apply callsWhere_app. Qed.

(** A call made by a loop is a call made by one of its turns, and what
    that turn did is part of what the loop did. *)
Lemma for_of_turn {S X : Type} (h : Handler S) (body : X -> Prog unit)
    (l : list X) (s : S) (c : Call) :
  In c (calls (trace (exec h (for_of l body) s))) ->
  exists x s',
    In x l
    /\ In c (calls (trace (exec h (body x) s')))
    /\ incl (trace (exec h (body x) s')) (trace (exec h (for_of l body) s)).
Proof.
  revert s; induction l as [| x l IH]; intros s Hin; [destruct Hin |].
  rewrite exec_for_of_cons in Hin. rewrite exec_for_of_cons.
  destruct (exec h (body x) s) as [[s1 tr1] [e | []]] eqn:Hx.
  - exists x, s. rewrite Hx. split; [left; reflexivity |].
    split; [exact Hin | apply incl_refl].
  - specialize (IH s1).
    destruct (exec h (for_of l body) s1) as [[s2 tr2] r2].
    unfold trace in *; cbn [fst snd] in *. rewrite calls_app in Hin.
    apply in_app_or in Hin. destruct Hin as [Hin | Hin].
    + exists x, s. rewrite Hx; cbn [fst snd]. split; [left; reflexivity |].
      split; [exact Hin | apply incl_appl, incl_refl].
    + destruct (IH Hin) as [y [s' [Hy [Hc Hincl]]]]. exists y, s'.
      split; [right; exact Hy |]. split; [exact Hc |].
      apply incl_appr, Hincl.
Qed.

Lemma sentFor_incl (tr tr' : list Event) (client : AxiosInstance)
    (newId newSecret : string) (p : Project) (c : Call) :
  incl tr tr' -> sentFor tr client newId newSecret p c ->
  sentFor tr' client newId newSecret p c.
Proof.
  intros Hincl [Hget | [envVars [envVarId [[resp [d [Hin [Hd Hv]]]] Hc]]]];
    [left; exact Hget |].
  right. exists envVars, envVarId. split; [| exact Hc].
  exists resp, d. split; [apply Hincl, Hin |]. split; [exact Hd | exact Hv].
Qed.

(** The requests of the push of one project. *)
Lemma pushProject_sentFor {S : Type} (h : Handler S) (client : AxiosInstance)
    (newId newSecret : string) (p : Project) (s : S) (c : Call) :
  In c (calls (trace (exec h (TravisCIPusher.pushProject client newId newSecret p) s))) ->
  sentFor (trace (exec h (TravisCIPusher.pushProject client newId newSecret p) s))
    client newId newSecret p c.
Proof.
  rewrite exec_pushProject.
  destruct (h _ s) as [s1 [e | resp]].
  - intros [<- | []]. left; reflexivity.
  - destruct (data resp) as [d |] eqn:Hd; [| intros [<- | []]; left; reflexivity].
    destruct (env_vars d) as [envVars |] eqn:Hv; [| intros [<- | []]; left; reflexivity].
    cbv zeta.
    destruct (resolveEnvVars_handles p envVars) as [Hh1 Hh2].
    destruct (falsy (fst (TravisCIPusher.resolveEnvVars p envVars))) eqn:Hf1;
      [intros [<- | []]; left; reflexivity |].
    destruct (falsy (snd (TravisCIPusher.resolveEnvVars p envVars))) eqn:Hf2;
      [intros [<- | []]; left; reflexivity |].
    specialize (Hh1 eq_refl). specialize (Hh2 eq_refl).
    assert (Hlisted : forall rest,
               listedFor (EvLog [Txt ("Pushing new credentials to Travis CI project '"
                                      +++ project p +++ "'")]
                          :: EvCall (httpGet client
                                       (TravisCIPusher.envVarsUrl
                                          (TravisCIPusher.encodeURIComponent (project p))))
                               (inr resp) :: rest) client p envVars).
    { intros rest. exists resp, d. split; [right; left; reflexivity |].
      split; [exact Hd | exact Hv]. }
    destruct (h _ s1) as [s2 [e | r1]].
    + intros [<- | [<- | []]]; [left; reflexivity |].
      right. exists envVars, (fst (TravisCIPusher.resolveEnvVars p envVars)).
      split; [apply Hlisted |]. left. split; [reflexivity | exact Hh1].
    + destruct (h _ s2) as [s3 [e | r2]];
        (intros [<- | [<- | [<- | []]]];
         [left; reflexivity
         | right; exists envVars, (fst (TravisCIPusher.resolveEnvVars p envVars));
           split; [apply Hlisted |]; left; split; [reflexivity | exact Hh1]
         | right; exists envVars, (snd (TravisCIPusher.resolveEnvVars p envVars));
           split; [apply Hlisted |]; right; split; [reflexivity | exact Hh2]]).
Qed.

(** X13.  Whatever the target answers, every call the Travis pusher makes
    is a request through the client built from the configured access key,
    for one of the configured projects: the listing of that project's
    variables, or the update of a variable that a listing answered in the
    same run carries, with an identifier, under the name of the matching
    location.  An update marked public carries the new key id and goes to
    a variable of the key-id name; an update marked not public carries the
    new secret and goes to a variable of the secret name.  The pusher never
    calls the IAM client or another service. *)
Theorem pusher_only_talks_to_configured_projects :
  forall (S : Type) (h : Handler S) cfg newId newSecret (s : S) (c : Call),
    In c (calls (trace (exec h (TravisCIPusher.pushNewCredentials cfg newId newSecret) s))) ->
    (exists ps p,
        projects cfg = Some ps /\ In p ps
        /\ sentFor (trace (exec h (TravisCIPusher.pushNewCredentials cfg newId newSecret) s))
             (TravisCIPusher.getTravisClient (accessKey cfg)) newId newSecret p c)
    /\ iamAction c = None
    /\ isDistribution c = false
    /\ (forall cl url body, c = httpPatch cl url body ->
          env_var_public body = true -> env_var_value body = newId)
    /\ (forall cl url body, c = httpPatch cl url body ->
          env_var_public body = false -> env_var_value body = newSecret).
Proof.
  intros S h cfg newId newSecret s c Hin.
  assert (Hsent : exists ps p,
             projects cfg = Some ps /\ In p ps
             /\ sentFor (trace (exec h (TravisCIPusher.pushNewCredentials cfg newId
                                          newSecret) s))
                  (TravisCIPusher.getTravisClient (accessKey cfg)) newId newSecret p c).
  { unfold TravisCIPusher.pushNewCredentials in *; cbv zeta in *.
    destruct (projects cfg) as [ps |] eqn:Hps; [| destruct Hin].
    destruct (for_of_turn h _ ps s c Hin) as [p [s' [Hp [Hc Hincl]]]].
    exists ps, p. split; [reflexivity |]. split; [exact Hp |].
    eapply sentFor_incl; [exact Hincl |]. apply pushProject_sentFor, Hc. }
  split; [exact Hsent |].
  destruct Hsent as [ps [p [_ [_ [Hc | [envVars [envVarId [_ [[Hc _] | [Hc _]]]]]]]]]];
    subst c; (split; [reflexivity |]); (split; [reflexivity |]);
    split; intros cl url body Heq Hpub; try discriminate Heq;
    injection Heq as _ _ <-; cbn [env_var_public env_var_value] in *;
    first [reflexivity | discriminate Hpub].
Qed.

Lemma pusher_only_talks_to_configured_projects_witness :
  let client := TravisCIPusher.getTravisClient (Some "travis-token"%string) in
  let c := httpPatch client "/repo/chrsmith%2Fpulumi-aws-travis-cicd-demo/env_var/id-2"
             {| env_var_value := "secret1"; env_var_public := false |} in
  let tr := trace (exec (travisWith demoEnvVars)
                     (TravisCIPusher.pushNewCredentials (demoConfiguration "travis-token")
                        "AKIA1" "secret1") []) in
  (exists ps p,
      projects (demoConfiguration "travis-token") = Some ps /\ In p ps
      /\ sentFor tr client "AKIA1" "secret1" p c)
  /\ iamAction c = None
  /\ isDistribution c = false
  /\ (forall cl url body, c = httpPatch cl url body ->
        env_var_public body = true -> env_var_value body = "AKIA1"%string)
  /\ (forall cl url body, c = httpPatch cl url body ->
        env_var_public body = false -> env_var_value body = "secret1"%string).
Proof.
  intros client c tr.
  apply (pusher_only_talks_to_configured_projects _ (travisWith demoEnvVars)
           (demoConfiguration "travis-token") "AKIA1"%string "secret1"%string [] c).
  vm_compute. tauto.
Defined.

(** ** The repository slug in the request path *)

Lemma hexDigit_unreserved (n : nat) :
  n < 16 -> TravisCIPusher.uriUnreserved (TravisCIPusher.hexDigit n) = true.
Proof.
  intros H. do 16 (destruct n as [| n]; [reflexivity |]). lia.
Qed.

Lemma hexDigit_inj (a b : nat) :
  a < 16 -> b < 16 -> TravisCIPusher.hexDigit a = TravisCIPusher.hexDigit b -> a = b.
Proof.
  intros Ha Hb.
  do 16 (destruct a as [| a];
         [do 16 (destruct b as [| b]; [first [reflexivity | discriminate] |]); lia |]).
  lia.
Qed.

Lemma string_length_append (a b : string) :
  String.length (a +++ b) = String.length a + String.length b.
Proof.
  induction a as [| c a IH]; cbn [String.append]; simpl;
    [reflexivity | rewrite IH; reflexivity].
Qed.

(** A common ending can be cancelled. *)
Lemma append_cancel_right (x y t : string) : x +++ t = y +++ t -> x = y.
Proof.
  revert y; induction x as [| c x IH]; intros [| d y] H; cbn [String.append] in H.
  - reflexivity.
  - exfalso. apply (f_equal String.length) in H. simpl in H.
    rewrite !string_length_append in H. simpl in H. lia.
  - exfalso. apply (f_equal String.length) in H. simpl in H.
    rewrite !string_length_append in H. simpl in H. lia.
  - injection H as Hc Hr. subst d. f_equal. apply IH, Hr.
Qed.

Lemma encodeURIComponent_inj (a b : string) :
  TravisCIPusher.encodeURIComponent a = TravisCIPusher.encodeURIComponent b -> a = b.
Proof.
  revert b; induction a as [| c a IH]; intros [| d b] H; cbn [TravisCIPusher.encodeURIComponent] in H.
  - reflexivity.
  - destruct (TravisCIPusher.uriUnreserved d); discriminate H.
  - destruct (TravisCIPusher.uriUnreserved c); discriminate H.
  - destruct (TravisCIPusher.uriUnreserved c) eqn:Hc;
      destruct (TravisCIPusher.uriUnreserved d) eqn:Hd.
    + injection H as Hcd Hr. subst d. f_equal. apply IH, Hr.
    + injection H as Hcd _. subst c. discriminate Hc.
    + injection H as Hcd _. subst d. discriminate Hd.
    + cbv zeta in H. injection H as Hhi Hlo Hr.
      change (TravisCIPusher.hexDigit (nat_of_ascii c / 16)
              = TravisCIPusher.hexDigit (nat_of_ascii d / 16)) in Hhi.
      change (TravisCIPusher.hexDigit (nat_of_ascii c mod 16)
              = TravisCIPusher.hexDigit (nat_of_ascii d mod 16)) in Hlo.
      pose proof (nat_ascii_bounded c) as Bc. pose proof (nat_ascii_bounded d) as Bd.
      apply hexDigit_inj in Hhi;
        [| apply Nat.Div0.div_lt_upper_bound; lia | apply Nat.Div0.div_lt_upper_bound; lia].
      apply hexDigit_inj in Hlo; [| apply Nat.mod_upper_bound; lia | apply Nat.mod_upper_bound; lia].
      assert (Hn : nat_of_ascii c = nat_of_ascii d).
      { rewrite (Nat.div_mod_eq (nat_of_ascii c) 16), (Nat.div_mod_eq (nat_of_ascii d) 16).
        rewrite Hhi, Hlo. reflexivity. }
      assert (Hcd : c = d).
      { rewrite <- (ascii_nat_embedding c), <- (ascii_nat_embedding d), Hn. reflexivity. }
      subst d. f_equal. apply IH, Hr.
Qed.

Lemma encodeURIComponent_append (a b : string) :
  TravisCIPusher.encodeURIComponent (a +++ b)
  = TravisCIPusher.encodeURIComponent a +++ TravisCIPusher.encodeURIComponent b.
Proof.
  induction a as [| c a IH]; [reflexivity |].
  change (String c a +++ b) with (String c (a +++ b)).
  cbn [TravisCIPusher.encodeURIComponent]. rewrite IH.
  destruct (TravisCIPusher.uriUnreserved c); reflexivity.
Qed.

(** X14.  The slug that goes into the request path consists of unreserved
    characters and percent signs only, so it holds no slash and the path
    keeps its segments; a name of unreserved characters is its own slug and
    [owner/repo] becomes [owner%2Frepo]; and two projects are listed under
    the same path only if they have the same name. *)
Theorem repository_slug_is_path_safe :
  forall s : string,
    Forall (fun c => TravisCIPusher.uriUnreserved c = true \/ c = "%"%char)
      (list_ascii_of_string (TravisCIPusher.encodeURIComponent s))
    /\ ~ In "/"%char (list_ascii_of_string (TravisCIPusher.encodeURIComponent s))
    /\ (forallb TravisCIPusher.uriUnreserved (list_ascii_of_string s) = true ->
        TravisCIPusher.encodeURIComponent s = s)
    /\ (forall owner repo,
          s = owner +++ "/" +++ repo ->
          TravisCIPusher.encodeURIComponent s
          = TravisCIPusher.encodeURIComponent owner +++ "%2F"
            +++ TravisCIPusher.encodeURIComponent repo)
    /\ (forall s',
          TravisCIPusher.envVarsUrl (TravisCIPusher.encodeURIComponent s)
          = TravisCIPusher.envVarsUrl (TravisCIPusher.encodeURIComponent s') ->
          s = s').
Proof.
  intros s.
  assert (Hsafe : Forall (fun c => TravisCIPusher.uriUnreserved c = true \/ c = "%"%char)
                    (list_ascii_of_string (TravisCIPusher.encodeURIComponent s))).
  { induction s as [| c s IH]; [constructor |].
    cbn [TravisCIPusher.encodeURIComponent].
    destruct (TravisCIPusher.uriUnreserved c) eqn:Hc; cbn [list_ascii_of_string].
    - constructor; [left; exact Hc | exact IH].
    - pose proof (nat_ascii_bounded c) as Bc.
      constructor; [right; reflexivity |].
      constructor; [left; apply hexDigit_unreserved, Nat.Div0.div_lt_upper_bound; lia |].
      constructor; [left; apply hexDigit_unreserved, Nat.mod_upper_bound; lia | exact IH]. }
  split; [exact Hsafe |]. split; [| split; [| split]].
  - intros Hin. rewrite Forall_forall in Hsafe.
    destruct (Hsafe _ Hin) as [H | H]; discriminate H.
  - clear Hsafe. induction s as [| c s IH]; [reflexivity |].
    cbn [list_ascii_of_string forallb TravisCIPusher.encodeURIComponent].
    intros H. apply andb_true_iff in H. destruct H as [Hc Hs].
    rewrite Hc, (IH Hs). reflexivity.
  - intros owner repo ->. rewrite encodeURIComponent_append. reflexivity.
  - intros s' H. unfold TravisCIPusher.envVarsUrl in H.
    unfold String.append at 1 3 in H. cbn [String.append] in H.
    injection H as H. apply append_cancel_right in H.
    apply encodeURIComponent_inj, H.
Qed.

Lemma repository_slug_is_path_safe_witness :
  TravisCIPusher.encodeURIComponent "pulumi-aws-travis-cicd-demo"
  = "pulumi-aws-travis-cicd-demo"%string
  /\ TravisCIPusher.encodeURIComponent "chrsmith/pulumi-aws-travis-cicd-demo"
     = TravisCIPusher.encodeURIComponent "chrsmith" +++ "%2F"
       +++ TravisCIPusher.encodeURIComponent "pulumi-aws-travis-cicd-demo".
Proof.
  split.
  - apply (proj1 (proj2 (proj2 (repository_slug_is_path_safe
                                   "pulumi-aws-travis-cicd-demo")))).
    reflexivity.
  - apply (proj1 (proj2 (proj2 (proj2 (repository_slug_is_path_safe
                                          "chrsmith/pulumi-aws-travis-cicd-demo"))))
             "chrsmith"%string "pulumi-aws-travis-cicd-demo"%string).
    reflexivity.
Defined.

(** * The rotation and the Travis pusher together *)

(** Against the store and a Travis that has the variables of every project
    of [ps], the loop over [ps] completes, leaves the store alone and leaves
    the two updates of each project applied. *)
Lemma world_pushes_all (envVars : list TravisEnvVar.t) (client : AxiosInstance)
    (newId newSecret : string) (ps : list Project) (sim : Sim)
    (applied : list (string * EnvVarPatch)) :
  forallb (resolves envVars) ps = true ->
  final (exec (worldHandler envVars)
           (for_of ps (TravisCIPusher.pushProject client newId newSecret)) (sim, applied))
  = (sim, applied ++ flat_map (updatesFor envVars newId newSecret) ps)
  /\ outcome (exec (worldHandler envVars)
                (for_of ps (TravisCIPusher.pushProject client newId newSecret)) (sim, applied))
     = inr tt.
Proof.
  revert applied; induction ps as [| q ps IH]; intros applied Hall.
  - simpl. rewrite app_nil_r. split; reflexivity.
  - cbn [forallb] in Hall. apply andb_true_iff in Hall. destruct Hall as [Hq Hall].
    unfold resolves in Hq. apply andb_true_iff in Hq. destruct Hq as [Hqa Hqs].
    rewrite exec_for_of_cons.
    destruct (pushProject_resolved (worldHandler envVars) client newId newSecret q
                (sim, applied) (sim, applied) _ _ _ _ envVars _ _ eq_refl eq_refl eq_refl
                ltac:(rewrite resolveEnvVars_accessKey_falsy, Hqa; reflexivity)
                ltac:(rewrite resolveEnvVars_secret_falsy, Hqs; reflexivity)
                eq_refl eq_refl) as [Hfin [Hout _]].
    destruct (exec (worldHandler envVars)
                (TravisCIPusher.pushProject client newId newSecret q) (sim, applied))
      as [[wq trq] rq].
    unfold final, outcome in Hfin, Hout; cbn [fst snd] in Hfin, Hout. subst wq rq.
    cbn [fst snd].
    destruct (IH ((applied ++ [(TravisCIPusher.envVarUrl
                                  (TravisCIPusher.encodeURIComponent (project q))
                                  (fst (TravisCIPusher.resolveEnvVars q envVars)),
                                {| env_var_value := newId; env_var_public := true |})])
                  ++ [(TravisCIPusher.envVarUrl
                         (TravisCIPusher.encodeURIComponent (project q))
                         (snd (TravisCIPusher.resolveEnvVars q envVars)),
                       {| env_var_value := newSecret; env_var_public := false |})]) Hall)
      as [IHf IHo].
    destruct (exec (worldHandler envVars)
                (for_of ps (TravisCIPusher.pushProject client newId newSecret)) _)
      as [[wd trd] rd].
    unfold final, outcome in *; cbn [fst snd] in *. subst wd rd.
    split; [| reflexivity].
    cbn [flat_map]. unfold updatesFor at 2; cbv zeta.
    rewrite <- !app_assoc. reflexivity.
Qed.

(** X15.  The Lambda with a Travis pusher built by the constructor, run on a
    store of at most one key and a Travis that has the variables of every
    configured project: the store gains the new Active key, and every
    project receives the identifier of that key, marked public, and the
    secret the store returned for it, marked not public; the invocation
    completes normally. *)
Theorem rotation_delivers_the_created_key_to_travis :
  forall u rate cfg cp ps envVars (s : Sim) (t : Z) (down : bool)
         (applied : list (string * EnvVarPatch)),
    newCredentialPusher TravisCIPusher.new cfg = inr cp ->
    projects cfg = Some ps ->
    forallb (resolves envVars) ps = true ->
    List.length (keys s) <= 1 ->
    let args := {| user := u; interval := rate; credentialPusher := cp |} in
    let run := exec (worldHandler envVars) (keyRotatorLambda args)
                 (Build_Sim (keys s) (issued s) t down, applied) in
    outcome run = inr tt
    /\ keys (fst (final run)) = keys s ++ [createdKey u s t]
    /\ snd (final run)
       = applied ++ flat_map (updatesFor envVars (keyIdOf (issued s)) (secretOf (issued s))) ps.
Proof.
  intros u rate cfg cp ps envVars s t down applied Hnew Hps Hall Hlen args run.
  assert (Hcp : cp = {| service := TravisCIPusher.new; config := cfg |}).
  { unfold newCredentialPusher in Hnew; cbv zeta in Hnew.
    destruct (negb (falsy_opt (validateConfiguration TravisCIPusher.new cfg)));
      [discriminate Hnew |]. injection Hnew as Hnew. symmetry. exact Hnew. }
  subst run args cp. unfold keyRotatorLambda; cbv zeta. cbn [user].
  rewrite exec_rotateIAMUserKeys, exec_rotateSteps.
  cbn [worldHandler simHandler fst snd keys].
  rewrite exec_rotateSorted_few by (rewrite sort_length; exact Hlen).
  cbn [worldHandler simHandler fst snd keys issued now pushFails
       AccessKey.AccessKeyId AccessKey.SecretAccessKey].
  unfold onNewCredentials. rewrite exec_try_catch, exec_bind, exec_log.
  unfold push; cbn [credentialPusher service config pushNewCredentials TravisCIPusher.new].
  unfold TravisCIPusher.pushNewCredentials; cbv zeta. rewrite Hps.
  destruct (world_pushes_all envVars (TravisCIPusher.getTravisClient (accessKey cfg))
              (keyIdOf (issued s)) (secretOf (issued s)) ps
              {| keys := keys s ++ [ {| UserName := User.name u;
                                       AccessKeyId := keyIdOf (issued s);
                                       Status := "Active"; CreateDate := t |} ];
                 issued := Datatypes.S (issued s); now := t; pushFails := down |}
              applied Hall) as [Hfin Hout].
  destruct (exec (worldHandler envVars)
              (for_of ps (TravisCIPusher.pushProject
                            (TravisCIPusher.getTravisClient (accessKey cfg))
                            (keyIdOf (issued s)) (secretOf (issued s)))) _)
    as [[w tr] r].
  unfold final, outcome in Hfin, Hout; cbn [fst snd] in Hfin, Hout. subst w r.
  unfold final, outcome; cbn [fst snd keys]. repeat split.
Qed.

Lemma rotation_delivers_the_created_key_to_travis_witness :
  let args := {| user := cicdUser; interval := "rate(1 hour)";
                 credentialPusher := {| service := TravisCIPusher.new;
                                        config := demoConfiguration "travis-token" |} |} in
  let run := exec (worldHandler demoEnvVars) (keyRotatorLambda args)
               (Build_Sim [sampleKey 0 "Active" 5] 1 9 false, []) in
  outcome run = inr tt
  /\ keys (fst (final run)) = [sampleKey 0 "Active" 5; sampleKey 1 "Active" 9]
  /\ snd (final run)
     = [("/repo/chrsmith%2Fpulumi-aws-travis-cicd-demo/env_var/id-1"%string,
         {| env_var_value := "AKIA1"; env_var_public := true |});
        ("/repo/chrsmith%2Fpulumi-aws-travis-cicd-demo/env_var/id-2"%string,
         {| env_var_value := "secret1"; env_var_public := false |})].
Proof.
  apply (rotation_delivers_the_created_key_to_travis cicdUser "rate(1 hour)"%string
           (demoConfiguration "travis-token") _ _ demoEnvVars
           (storeOf [sampleKey 0 "Active" 5] 1) 9%Z false [] eq_refl eq_refl eq_refl).
  simpl; lia.
Defined.

(** * The execution policy of the Lambda *)

Lemma permits_own (u : User.t) (c : Call) :
  match iamAction c with
  | None => True
  | Some (action, userName) =>
      userName = User.name u
      /\ In action ["iam:CreateAccessKey"; "iam:DeleteAccessKey";
                    "iam:ListAccessKeys"; "iam:UpdateAccessKey"]%string
  end ->
  permits u c = true.
Proof.
  unfold permits, allows, keyRotatorPolicy.
  destruct (iamAction c) as [[action userName] |]; [| reflexivity].
  intros [Hu Ha]. subst userName. rewrite String.eqb_refl. cbn [andb].
  apply existsb_exists. eexists. split; [left; reflexivity |].
  cbn [Effect Action Resource]. rewrite (String.eqb_refl (User.arn u)), andb_true_r.
  cbn [String.eqb Ascii.eqb Bool.eqb andb].
  apply existsb_exists. exists action. split; [exact Ha | apply String.eqb_refl].
Qed.

Ltac own_call :=
  apply permits_own; cbn [iamAction];
  first [exact I | split; [reflexivity | cbn [In]; tauto]].

Ltac each_call H :=
  unfold calls, trace in H; cbn [fst snd] in H;
  repeat progress
    (cbn [callsWhere app pushFailed pushingOut stepComplete unhandled] in H;
     rewrite ?callsWhere_app, ?callsWhere_keyListing in H);
  repeat (destruct H as [H | H];
          [match type of H with _ = ?v => subst v end; own_call |]);
  destruct H.

(** X16.  The policy that [createLambdaRolePolicy] attaches to the role of
    the Lambda covers the rotation: whatever the store answers, every call
    the Lambda makes to the IAM client is made for the user the policy
    names and needs an action the policy allows.  Each of the four actions
    the policy allows is needed by some invocation. *)
Theorem execution_policy_covers_the_rotation :
  forall u rate validate cfg,
    (forall (S : Type) (h : Handler S) (s : S) (c : Call),
        In c (calls (trace (exec h (keyRotatorLambda (externalArgs u rate validate cfg)) s))) ->
        permits u c = true)
    /\ (forall action,
          allows (keyRotatorPolicy u) action (User.arn u) = true ->
          exists (s : Sim) (c : Call),
            In c (calls (trace (invocation (externalArgs u rate validate cfg) s 0 false)))
            /\ iamAction c = Some (action, User.name u)).
Proof.
  intros u rate validate cfg. split.
  - intros S h s c Hin.
    destruct (h (listAccessKeys (User.name u)) s) as [s1 [e | fetched]] eqn:Hlist.
    + unfold keyRotatorLambda in Hin; cbv zeta in Hin.
      rewrite exec_rotateIAMUserKeys, exec_rotateSteps in Hin.
      replace (user (externalArgs u rate validate cfg)) with u in Hin by reflexivity.
      rewrite Hlist in Hin. each_call Hin.
    + destruct (le_lt_dec (List.length fetched) 1) as [Hle | Hgt].
      * rewrite (lambda_run_few h u rate validate cfg s s1 fetched Hlist Hle) in Hin.
        destruct (h (createAccessKey (User.name u)) s1) as [s2 [e | newKey]];
          [each_call Hin |].
        rewrite exec_onNewCredentials in Hin.
        destruct (h (servicePush cfg (AccessKey.AccessKeyId newKey)
                       (AccessKey.SecretAccessKey newKey)) s2) as [s3 [e | x]];
          each_call Hin.
      * destruct (le_lt_dec (List.length fetched) 2) as [Hle2 | Hgt2].
        -- assert (Hlen : List.length fetched = 2) by lia.
           destruct (nth_error_second (sort compareCreateDate fetched)) as [older Hn];
             [rewrite sort_length; exact Hlen |].
           rewrite (lambda_run_two h u rate validate cfg s s1 fetched older Hlist Hlen Hn)
             in Hin.
           rewrite (exec_rotateSorted_two h u _ _ older s1) in Hin by
             (rewrite ?sort_length; assumption).
           destruct (String.eqb (Status older) "Active");
             [| destruct (String.eqb (Status older) "Inactive")].
           ++ destruct (h (updateAccessKey (User.name u) (AccessKeyId older) "Inactive") s1)
                as [s2 [e | x]]; each_call Hin.
           ++ destruct (h (deleteAccessKey (User.name u) (AccessKeyId older)) s1)
                as [s2 [e | x]]; each_call Hin.
           ++ each_call Hin.
        -- rewrite (lambda_run_many h u rate validate cfg s s1 fetched Hlist Hgt2) in Hin.
           each_call Hin.
  - intros action Hall.
    unfold allows, keyRotatorPolicy in Hall. cbn [existsb Effect Action Resource] in Hall.
    rewrite orb_false_r in Hall. apply andb_true_iff in Hall. destruct Hall as [Hall _].
    apply andb_true_iff in Hall. destruct Hall as [_ Hall].
    rewrite !orb_true_iff in Hall.
    destruct Hall as [H | [H | [H | [H | H]]]]; try discriminate H;
      apply String.eqb_eq in H; subst action.
    + exists emptyStore, (createAccessKey (User.name u)).
      split; [| reflexivity].
      rewrite (invocation_few u rate validate cfg emptyStore 0 false (Nat.le_0_l 1)).
      unfold calls, trace; cbn [fst snd callsWhere]. right.
      rewrite callsWhere_app, callsWhere_keyListing. left. reflexivity.
    + exists (storeOf [sampleKey 0 "Inactive" 5; sampleKey 1 "Active" 9] 2),
             (deleteAccessKey (User.name u) (keyIdOf 0)).
      split; [| reflexivity].
      change (invocation (externalArgs u rate validate cfg) (storeOf [sampleKey 0 "Inactive" 5; sampleKey 1 "Active" 9] 2) 0 false)
        with (exec simHandler (keyRotatorLambda (externalArgs u rate validate cfg))
                (storeOf [sampleKey 0 "Inactive" 5; sampleKey 1 "Active" 9] 2)).
      rewrite (lambda_run_two simHandler u rate validate cfg
                 (storeOf [sampleKey 0 "Inactive" 5; sampleKey 1 "Active" 9] 2)
                 (storeOf [sampleKey 0 "Inactive" 5; sampleKey 1 "Active" 9] 2)
                 [sampleKey 0 "Inactive" 5; sampleKey 1 "Active" 9]
                 (sampleKey 0 "Inactive" 5) eq_refl eq_refl eq_refl).
      rewrite (exec_rotateSorted_two simHandler u _ _ (sampleKey 0 "Inactive" 5))
        by reflexivity.
      cbn [sampleKey Status AccessKeyId String.eqb Ascii.eqb Bool.eqb andb simHandler].
      unfold calls, trace; cbn [fst snd callsWhere]. right.
      rewrite callsWhere_app, callsWhere_keyListing. left. reflexivity.
    + exists emptyStore, (listAccessKeys (User.name u)).
      split; [| reflexivity].
      rewrite (invocation_few u rate validate cfg emptyStore 0 false (Nat.le_0_l 1)).
      left. reflexivity.
    + exists (storeOf [sampleKey 0 "Active" 5; sampleKey 1 "Active" 9] 2),
             (updateAccessKey (User.name u) (keyIdOf 0) "Inactive").
      split; [| reflexivity].
      change (invocation (externalArgs u rate validate cfg) (storeOf [sampleKey 0 "Active" 5; sampleKey 1 "Active" 9] 2) 0 false)
        with (exec simHandler (keyRotatorLambda (externalArgs u rate validate cfg))
                (storeOf [sampleKey 0 "Active" 5; sampleKey 1 "Active" 9] 2)).
      rewrite (lambda_run_two simHandler u rate validate cfg
                 (storeOf [sampleKey 0 "Active" 5; sampleKey 1 "Active" 9] 2)
                 (storeOf [sampleKey 0 "Active" 5; sampleKey 1 "Active" 9] 2)
                 [sampleKey 0 "Active" 5; sampleKey 1 "Active" 9]
                 (sampleKey 0 "Active" 5) eq_refl eq_refl eq_refl).
      rewrite (exec_rotateSorted_two simHandler u _ _ (sampleKey 0 "Active" 5))
        by reflexivity.
      cbn [sampleKey Status AccessKeyId String.eqb Ascii.eqb Bool.eqb andb simHandler].
      unfold calls, trace; cbn [fst snd callsWhere]. right.
      rewrite callsWhere_app, callsWhere_keyListing. left. reflexivity.
Qed.

Lemma execution_policy_covers_the_rotation_witness :
  permits cicdUser (createAccessKey "cicd-bot") = true
  /\ exists (s : Sim) (c : Call),
       In c (calls (trace (invocation sampleArgs s 0 false)))
       /\ iamAction c = Some ("iam:UpdateAccessKey"%string, "cicd-bot"%string).
Proof.
  pose proof (execution_policy_covers_the_rotation cicdUser "rate(1 hour)"%string
                TravisCIPusher.validateConfiguration (demoConfiguration "travis-token"))
    as [Hcover Hused].
  split.
  - apply (Hcover Sim simHandler emptyStore (createAccessKey "cicd-bot")).
    vm_compute. tauto.
  - apply (Hused "iam:UpdateAccessKey"%string). reflexivity.
Defined.

(** * What the constructor of the pusher throws *)

(** X17.  The constructor of [CredentialPusher] throws the message of the
    service behind a fixed prefix, and takes an empty message for no error
    at all.  With the Travis pusher a missing or empty access key is
    reported whatever the projects are; missing or empty projects are
    reported only when the access key is there; otherwise the instance
    carries the service and the configuration it was given. *)
Theorem constructor_reports_the_first_missing_part :
  (forall svc cfg msg,
      validateConfiguration svc cfg = Some msg -> msg <> EmptyString ->
      newCredentialPusher svc cfg
      = inl (Error ("validation CredentialPusher configuration: " +++ msg)))
  /\ (forall svc cfg,
        validateConfiguration svc cfg = Some EmptyString ->
        newCredentialPusher svc cfg = inr {| service := svc; config := cfg |})
  /\ (forall cfg,
        falsy_opt (accessKey cfg) = true ->
        newCredentialPusher TravisCIPusher.new cfg
        = inl (Error ("validation CredentialPusher configuration: "
                      +++ "No Travis CI access key provided.")))
  /\ (forall cfg,
        falsy_opt (accessKey cfg) = false ->
        projects cfg = None \/ projects cfg = Some [] ->
        newCredentialPusher TravisCIPusher.new cfg
        = inl (Error ("validation CredentialPusher configuration: "
                      +++ "No projects to push credentials to.")))
  /\ (forall cfg p ps,
        falsy_opt (accessKey cfg) = false ->
        projects cfg = Some (p :: ps) ->
        newCredentialPusher TravisCIPusher.new cfg
        = inr {| service := TravisCIPusher.new; config := cfg |}).
Proof.
  split; [| split; [| split; [| split]]].
  - intros svc cfg msg Hv Hne. unfold newCredentialPusher; cbv zeta. rewrite Hv.
    cbn [falsy_opt of_opt]. unfold falsy. apply String.eqb_neq in Hne. rewrite Hne.
    reflexivity.
  - intros svc cfg Hv. unfold newCredentialPusher; cbv zeta. rewrite Hv. reflexivity.
  - intros cfg Hk. unfold newCredentialPusher; cbv zeta.
    cbn [validateConfiguration TravisCIPusher.new].
    unfold TravisCIPusher.validateConfiguration. rewrite Hk. reflexivity.
  - intros cfg Hk Hp. unfold newCredentialPusher; cbv zeta.
    cbn [validateConfiguration TravisCIPusher.new].
    unfold TravisCIPusher.validateConfiguration. rewrite Hk.
    destruct Hp as [Hp | Hp]; rewrite Hp; reflexivity.
  - intros cfg p ps Hk Hp. unfold newCredentialPusher; cbv zeta.
    cbn [validateConfiguration TravisCIPusher.new].
    unfold TravisCIPusher.validateConfiguration. rewrite Hk, Hp. reflexivity.
Qed.

Lemma constructor_reports_the_first_missing_part_witness :
  newCredentialPusher TravisCIPusher.new {| accessKey := None; projects := None |}
  = inl (Error "validation CredentialPusher configuration: No Travis CI access key provided.")
  /\ newCredentialPusher TravisCIPusher.new
       {| accessKey := Some "travis-token"%string; projects := Some [] |}
     = inl (Error "validation CredentialPusher configuration: No projects to push credentials to.")
  /\ newCredentialPusher (externalService (fun _ => Some EmptyString))
       {| accessKey := None; projects := None |}
     = inr {| service := externalService (fun _ => Some EmptyString);
              config := {| accessKey := None; projects := None |} |}
  /\ demoTravisCIPusher "travis-token"
     = inr {| service := TravisCIPusher.new; config := demoConfiguration "travis-token" |}.
Proof.
  pose proof constructor_reports_the_first_missing_part as [_ [H2 [H3 [H4 H5]]]].
  split; [apply (H3 {| accessKey := None; projects := None |}); reflexivity |].
  split; [apply (H4 {| accessKey := Some "travis-token"%string; projects := Some [] |});
          [reflexivity | right; reflexivity] |].
  split; [apply (H2 (externalService (fun _ => Some EmptyString))); reflexivity |].
  apply (H5 (demoConfiguration "travis-token") demoProject []); reflexivity.
Defined.
